(** * Retrieval and context-assembly pipeline: a shallow embedding

    Python values are embedded as follows.
    - [str] is [string]; a character is an [ascii], read as a code point in
      U+0000..U+00FF.
    - [int] is [Z] (unbounded, negative values included).
    - [list] is [list]; [set] of strings is [gset string]; a [dict] used as a
      constant table is a [gmap].
    - [float] is a type with the operations of the class [PyFloat]; its two
      instances are the binary64 numbers of the machine and the real numbers.
    - a raised exception is the [Raise] constructor of [result]. *)

From Stdlib Require Import ZArith Reals Lra.
From Stdlib Require Uint63 PrimFloat FloatAxioms.
From Stdlib Require Sorted.
From Stdlib Require Import Ascii String.
From stdpp Require Import base tactics list strings pretty gmap.

Local Open Scope Z_scope.

(** ** Python built-ins on strings *)

Module Py.

(** [str.isspace] on one character, on the code points below 256. The
    regular-expression class [\s] of a [str] pattern is the same set. *)
Definition isspace (c : ascii) : bool :=
  match c with
  | "009" | "010" | "011" | "012" | "013"
  | "028" | "029" | "030" | "031" | " "
  | "133" | "160" => true
  | _ => false
  end%char.

Definition push (w : string) (ws : list string) : list string :=
  match w with
  | EmptyString => ws
  | _ => w :: ws
  end.

(** One right-to-left pass of [str.split()]: the state is the word that
    starts at the current position, and the words after it. *)
Fixpoint split_from (s : string) (st : string * list string)
  : string * list string :=
  match s with
  | EmptyString => st
  | String c s' =>
      let '(w, ws) := split_from s' st in
      if isspace c then (EmptyString, push w ws) else (String c w, ws)
  end.

(** [s.split()]: the maximal runs of non-whitespace characters. *)
Definition split (s : string) : list string :=
  let '(w, ws) := split_from s (EmptyString, []) in push w ws.

(** [sep.join(l)] *)
Fixpoint join (sep : string) (l : list string) : string :=
  match l with
  | [] => EmptyString
  | [x] => x
  | x :: rest => x +:+ sep +:+ join sep rest
  end.

(** [len(l)] *)
Definition len {A} (l : list A) : Z := Z.of_nat (length l).

(** [l[start:stop]], negative indices counted from the end, both clamped. *)
Definition clamp_index (n i : Z) : Z :=
  if i <? 0 then Z.max (i + n) 0 else Z.min i n.

Definition slice {A} (l : list A) (start stop : Z) : list A :=
  let lo := clamp_index (len l) start in
  let hi := clamp_index (len l) stop in
  take (Z.to_nat (hi - lo)) (drop (Z.to_nat lo) l).

(** [sum(l)] for a list of integers. *)
Definition sum (l : list Z) : Z := fold_left Z.add l 0.

Fixpoint lstrip (s : string) : string :=
  match s with
  | EmptyString => EmptyString
  | String c s' => if isspace c then lstrip s' else s
  end.

Fixpoint rstrip (s : string) : string :=
  match s with
  | EmptyString => EmptyString
  | String c s' =>
      match rstrip s' with
      | EmptyString => if isspace c then EmptyString else String c EmptyString
      | r => String c r
      end
  end.

(** [s.strip()] *)
Definition strip (s : string) : string := lstrip (rstrip s).

(** [s[:n]] for [0 <= n]. *)
Fixpoint prefix (n : nat) (s : string) : string :=
  match n, s with
  | S n', String c s' => String c (prefix n' s')
  | _, _ => EmptyString
  end.

(** Truth value of a string and of a list. *)
Definition nonempty_str (s : string) : bool :=
  match s with EmptyString => false | _ => true end.

Definition nonempty {A} (l : list A) : bool :=
  match l with [] => false | _ => true end.

(** [min(l)] and [max(l)] for the list [x :: rest] of integers. *)
Definition min_of (x : Z) (rest : list Z) : Z := fold_left Z.min rest x.
Definition max_of (x : Z) (rest : list Z) : Z := fold_left Z.max rest x.

(** [c in s] for a one-character string [c]. *)
Fixpoint has_char (c : ascii) (s : string) : bool :=
  match s with
  | EmptyString => false
  | String a s' => if decide (a = c) then true else has_char c s'
  end.

(** The text before the first [c], and the text after it if [c] occurs. *)
Fixpoint partition_at (c : ascii) (s : string) : string * option string :=
  match s with
  | EmptyString => (EmptyString, None)
  | String a s' =>
      if decide (a = c) then (EmptyString, Some s')
      else let '(p, r) := partition_at c s' in (String a p, r)
  end.

(** [s.split(c, 1)]: one piece, or two when [c] occurs. *)
Definition split_once (c : ascii) (s : string) : list string :=
  let '(p, r) := partition_at c s in
  match r with
  | Some rest => [p; rest]
  | None => [p]
  end.

(** [sorted(l, key=key, reverse=True)] for keys that [<] orders totally:
    the elements by falling key, those of equal key in their order in [l]. *)
Section Sorted.
Context {A K : Type} (lt : K → K → bool) (key : A → K).

Fixpoint insert_desc (x : A) (l : list A) : list A :=
  match l with
  | [] => [x]
  | y :: l' => if lt (key x) (key y) then y :: insert_desc x l' else x :: l
  end.

Definition sorted_desc (l : list A) : list A := foldr insert_desc [] l.

End Sorted.

End Py.

(** ** chunking_utility.py *)

Inductive Method := WordBased | SentenceBased.

(** The extent keys of a chunk dictionary: [start_word] and [end_word] for a
    word-based chunk, [sentence_count] for a sentence-based one. *)
Inductive Span :=
  | WordSpan (start_word end_word : Z)
  | SentenceCount (sentence_count : Z).

Record Chunk := mkChunk {
  chunk_id : Z;
  text : string;
  span : Span;
  word_count : Z;
  method : Method
}.

Record TextChunker := mkTextChunker {
  chunk_size : Z;
  overlap : Z
}.

Module TextChunker.

(** The three states of the scan for [(?<=[.!?])\s+]: after an ordinary
    character, just after a terminal mark, and inside a matched separator. *)
Inductive scan := Plain | AfterTerminal | InSeparator.

Definition is_terminal (c : ascii) : bool :=
  match c with
  | "." | "!" | "?" => true
  | _ => false
  end%char.

(** The pieces of [re.split(r'(?<=[.!?])\s+', s)] as the piece that is open
    at the current position and the pieces after it. *)
Fixpoint sentence_pieces (st : scan) (s : string) : string * list string :=
  match s with
  | EmptyString => (EmptyString, [])
  | String c s' =>
      match st, Py.isspace c with
      | AfterTerminal, true =>
          let '(p, ps) := sentence_pieces InSeparator s' in
          (EmptyString, p :: ps)
      | InSeparator, true => sentence_pieces InSeparator s'
      | _, _ =>
          let '(p, ps) :=
            sentence_pieces (if is_terminal c then AfterTerminal else Plain) s' in
          (String c p, ps)
      end
  end.

Definition re_split_sentences (s : string) : list string :=
  let '(p, ps) := sentence_pieces Plain s in p :: ps.

Definition split_into_sentences (text : string) : list string :=
  omap (fun s => if Py.nonempty_str (Py.strip s) then Some (Py.strip s) else None)
       (re_split_sentences text).

Definition count_words (text : string) : Z := Py.len (Py.split text).

(** [chunks[-1]['start_word']] *)
Definition last_start_word (chunks : list Chunk) : option Z :=
  match last chunks with
  | Some {| span := WordSpan s _ |} => Some s
  | _ => None
  end.

(** The [while] loop of [chunk_by_words]; one unit of fuel per iteration,
    [None] when the fuel runs out. [None] is also the outcome of a failed
    lookup of [chunks[-1]['start_word']], which the append before it rules
    out. *)
Fixpoint words_loop (self : TextChunker) (words : list string) (fuel : nat)
    (chunks : list Chunk) (chunk_id start : Z) : option (list Chunk) :=
  match fuel with
  | O => None
  | S fuel' =>
      if start <? Py.len words then
        let end_ := Z.min (start + chunk_size self) (Py.len words) in
        let chunk_words := Py.slice words start end_ in
        let chunk_text := Py.join " " chunk_words in
        let chunks := chunks ++ [ {| chunk_id := chunk_id;
                                     text := chunk_text;
                                     span := WordSpan start end_;
                                     word_count := Py.len chunk_words;
                                     method := WordBased |} ] in
        let chunk_id := chunk_id + 1 in
        let start := end_ - overlap self in
        match last_start_word chunks with
        | Some prev =>
            if start <=? prev then Some chunks
            else words_loop self words fuel' chunks chunk_id start
        | None => None
        end
      else Some chunks
  end.

Definition chunk_by_words_fuel (self : TextChunker) (fuel : nat) (text : string)
  : option (list Chunk) :=
  words_loop self (Py.split text) fuel [] 0 0.

(** [chunk_by_words], run with one more unit of fuel than there are words. *)
Definition chunk_by_words (self : TextChunker) (text : string)
  : option (list Chunk) :=
  chunk_by_words_fuel self (S (length (Py.split text))) text.

Definition sentence_chunk (chunk_id : Z) (current_chunk : list string)
    (current_word_count : Z) : Chunk :=
  {| chunk_id := chunk_id;
     text := Py.join " " current_chunk;
     span := SentenceCount (Py.len current_chunk);
     word_count := current_word_count;
     method := SentenceBased |}.

(** [current_chunk[-2:] if len(current_chunk) >= 2 else current_chunk] *)
Definition overlap_sentences (current_chunk : list string) : list string :=
  if Py.len current_chunk >=? 2
  then Py.slice current_chunk (-2) (Py.len current_chunk)
  else current_chunk.

(** The [for] loop of [chunk_by_sentences] with the code after it. *)
Fixpoint sentences_loop (self : TextChunker) (sentences : list string)
    (chunks : list Chunk) (current_chunk : list string)
    (current_word_count chunk_id : Z) : list Chunk :=
  match sentences with
  | [] =>
      if Py.nonempty current_chunk
      then chunks ++ [sentence_chunk chunk_id current_chunk current_word_count]
      else chunks
  | sentence :: rest =>
      let sentence_word_count := count_words sentence in
      if (current_word_count + sentence_word_count >? chunk_size self)
         && Py.nonempty current_chunk
      then
        let chunks :=
          chunks ++ [sentence_chunk chunk_id current_chunk current_word_count] in
        let overlap_sentences := overlap_sentences current_chunk in
        let current_chunk := overlap_sentences in
        let current_word_count := Py.sum (map count_words current_chunk) in
        let chunk_id := chunk_id + 1 in
        sentences_loop self rest chunks (current_chunk ++ [sentence])
          (current_word_count + sentence_word_count) chunk_id
      else
        sentences_loop self rest chunks (current_chunk ++ [sentence])
          (current_word_count + sentence_word_count) chunk_id
  end.

Definition chunk_by_sentences (self : TextChunker) (text : string) : list Chunk :=
  sentences_loop self (split_into_sentences text) [] [] 0 0.

End TextChunker.



(** ** text_cleaner.py *)

Module TextCleaner.

(** [str.lower] on one character: A-Z, and the upper-case letters of the
    Latin-1 block, move up by 32. *)
Definition lower_char (c : ascii) : ascii :=
  let n := N_of_ascii c in
  if ((65 <=? n) && (n <=? 90)
      || (192 <=? n) && (n <=? 222) && negb (n =? 215))%N
  then ascii_of_N (n + 32) else c.

Fixpoint lower (s : string) : string :=
  match s with
  | EmptyString => EmptyString
  | String c s' => String (lower_char c) (lower s')
  end.

(** The class [a-z0-9]. *)
Definition is_lower_alnum (c : ascii) : bool :=
  let n := N_of_ascii c in
  ((97 <=? n) && (n <=? 122) || (48 <=? n) && (n <=? 57))%N.

(** [re.sub(r'[^a-z0-9\s]', '', s)] *)
Fixpoint remove_special (s : string) : string :=
  match s with
  | EmptyString => EmptyString
  | String c s' =>
      if is_lower_alnum c || Py.isspace c
      then String c (remove_special s') else remove_special s'
  end.

(** [re.sub(r'\s+', ' ', s)]; [in_run] says that the previous character
    belongs to the run being replaced. *)
Fixpoint collapse_from (in_run : bool) (s : string) : string :=
  match s with
  | EmptyString => EmptyString
  | String c s' =>
      if Py.isspace c
      then if in_run then collapse_from true s'
           else String " " (collapse_from true s')
      else String c (collapse_from false s')
  end.

Definition collapse_whitespace (s : string) : string := collapse_from false s.

Definition clean_text (text : string) : string :=
  let text := lower text in
  let text := Py.strip text in
  let text := remove_special text in
  let text := collapse_whitespace text in
  text.

Definition tokenize (text : string) : list string :=
  let cleaned := clean_text text in
  Py.split cleaned.

Definition get_word_count (text : string) : Z := Py.len (tokenize text).

End TextCleaner.

(** ** Exceptions *)

Inductive exn :=
  | DimensionMismatch (n1 n2 : Z)  (* ValueError: Vectors must be same length! *)
  | MathDomainError                (* ValueError raised by math.sqrt *)
  | ZeroDivisionError
  | NoneNotSubscriptable.          (* TypeError on None[...] *)

Inductive result (A : Type) :=
  | Ok (a : A)
  | Raise (e : exn).
Arguments Ok {A} a.
Arguments Raise {A} e.

Definition bind {A B} (r : result A) (k : A → result B) : result B :=
  match r with
  | Ok a => k a
  | Raise e => Raise e
  end.

(** ** Python floats

    The operations that the code applies to floats. [binary64] is the
    arithmetic Python runs: every operation rounds to the nearest double.
    [exact] is the same arithmetic without rounding, on the real numbers. *)

Class PyFloat (F : Type) := {
  of_int : Z → F;        (* float(n), and the literal 0.0 as [of_int 0] *)
  fadd : F → F → F;
  fmul : F → F → F;
  fdiv : F → F → F;      (* x / y for a divisor that is not zero *)
  fsqrt : F → F;         (* math.sqrt(x) for an argument that is not negative *)
  feqb : F → F → bool;   (* x == y *)
  fltb : F → F → bool    (* x < y *)
}.

(** [float(n)] for an integer below 2^63 in absolute value. *)
Definition double_of_int (z : Z) : PrimFloat.float :=
  match z with
  | Zneg p => PrimFloat.opp (PrimFloat.of_uint63 (Uint63Axioms.of_Z (Zpos p)))
  | _ => PrimFloat.of_uint63 (Uint63Axioms.of_Z z)
  end.

#[export] Instance binary64 : PyFloat PrimFloat.float := {|
  of_int := double_of_int;
  fadd := PrimFloat.add;
  fmul := PrimFloat.mul;
  fdiv := PrimFloat.div;
  fsqrt := PrimFloat.sqrt;
  feqb := PrimFloat.eqb;
  fltb := PrimFloat.ltb
|}.

#[export] Instance exact : PyFloat R := {|
  of_int := IZR;
  fadd := Rplus;
  fmul := Rmult;
  fdiv := Rdiv;
  fsqrt := sqrt;
  feqb x y := if Req_dec_T x y then true else false;
  fltb x y := if Rlt_dec x y then true else false
|}.

(** ** faq_finder.py *)

Record FAQ := mkFAQ {
  question : string;
  answer : string;
  question_clean : string
}.

Record FAQFinder := mkFAQFinder {
  faqs : list FAQ
}.

Record Answer (F : Type) := mkAnswer {
  ans_answer : string;
  confidence : F;
  matched_question : option string
}.
Arguments mkAnswer {F} _ _ _.
Arguments ans_answer {F} _.
Arguments confidence {F} _.
Arguments matched_question {F} _.

Module FAQFinder.

Definition stop_words : gset string :=
  list_to_set
    ["a"; "an"; "the"; "is"; "are"; "am"; "be"; "to"; "of"; "in";
     "on"; "at"; "for"; "with"; "do"; "does"; "i"; "you"; "we";
     "they"; "there"; "can"; "will"; "it"; "what"; "how"; "when"; "where"].

Definition synonyms : gmap string (list string) :=
  list_to_map
    [("sign", ["register"; "signup"; "join"; "enroll"]);
     ("register", ["sign"; "signup"; "join"; "enroll"]);
     ("signup", ["sign"; "register"; "join"; "enroll"]);
     ("pay", ["fee"; "cost"; "price"; "money"; "charge"]);
     ("fee", ["pay"; "cost"; "price"; "money"; "charge"]);
     ("cost", ["pay"; "fee"; "price"; "money"; "charge"]);
     ("start", ["schedule"; "time"; "begin"; "when"]);
     ("time", ["schedule"; "start"; "when"]);
     ("when", ["time"; "schedule"; "start"]);
     ("where", ["venue"; "location"; "place"]);
     ("venue", ["where"; "location"; "place"]);
     ("location", ["where"; "venue"; "place"])].

(** A finder as [__init__] leaves it. *)
Definition init : FAQFinder := {| faqs := [] |}.

Definition add_faq (self : FAQFinder) (question answer : string) : FAQFinder :=
  {| faqs := faqs self ++ [ {| question := question;
                               answer := answer;
                               question_clean := TextCleaner.clean_text question |} ] |}.

Definition expand_with_synonyms (words : gset string) : gset string :=
  set_fold (fun word expanded =>
              match synonyms !! word with
              | Some l => expanded ∪ list_to_set l
              | None => expanded
              end)
           words words.

(** The token set of a cleaned text: stop words removed, synonyms added,
    and the plain token set when that leaves nothing. [find_answer] does
    this once for the question asked and once for every entry. *)
Definition token_set (clean : string) : gset string :=
  let words_raw := list_to_set (Py.split clean) ∖ stop_words in
  let words := expand_with_synonyms words_raw in
  if decide (words = ∅) then list_to_set (Py.split clean) else words.

Section Scoring.
Context {F : Type} `{PyFloat F}.

(** The quotient is taken only for a union that is not empty, so that the
    divisor is not zero. *)
Definition score (user_words faq_words : gset string) : F :=
  let intersection := user_words ∩ faq_words in
  let union := user_words ∪ faq_words in
  if decide (union = ∅) then of_int 0
  else fdiv (of_int (Z.of_nat (size intersection)))
            (of_int (Z.of_nat (size union))).

(** The [for] loop over the entries, on the pair [(best_match, best_score)]. *)
Definition scan (user_words : gset string) (faqs : list FAQ)
  : option FAQ * F :=
  fold_left
    (fun '(best_match, best_score) faq =>
       let faq_words := token_set (question_clean faq) in
       let score := score user_words faq_words in
       if fltb best_score score then (Some faq, score)
       else (best_match, best_score))
    faqs (None, of_int 0).

Definition find_answer (self : FAQFinder) (user_question : string)
    (threshold : F) : result (Answer F) :=
  match faqs self with
  | [] => Ok {| ans_answer := "No FAQs loaded.";
                confidence := of_int 0;
                matched_question := None |}
  | _ =>
      let user_clean := TextCleaner.clean_text user_question in
      let user_words := token_set user_clean in
      let '(best_match, best_score) := scan user_words (faqs self) in
      if fltb best_score threshold then
        Ok {| ans_answer := "I couldn't find a good answer found.";
              confidence := best_score;
              matched_question := None |}
      else
        match best_match with
        | Some m => Ok {| ans_answer := answer m;
                          confidence := best_score;
                          matched_question := Some (question m) |}
        | None => Raise NoneNotSubscriptable
        end
  end.

End Scoring.

End FAQFinder.

(** ** semantic_similarity.py *)

Module SemanticSimilarity.

Section Cosine.
Context {F : Type} `{PyFloat F}.

(** [sum(...)] of floats, from the integer 0 and from left to right, every
    addition rounded: the sum as CPython computes it up to version 3.11.
    Later versions carry a correction term along, which can change the
    last bits of a sum that is not exact. *)
Definition fsum (l : list F) : F := fold_left fadd l (of_int 0).

(** [math.sqrt] *)
Definition math_sqrt (x : F) : result F :=
  if fltb x (of_int 0) then Raise MathDomainError else Ok (fsqrt x).

(** [x / y] *)
Definition truediv (x y : F) : result F :=
  if feqb y (of_int 0) then Raise ZeroDivisionError else Ok (fdiv x y).

Definition dot_product (vec1 vec2 : list F) : F :=
  fsum (map (fun '(a, b) => fmul a b) (zip vec1 vec2)).

Definition sum_of_squares (vec : list F) : F :=
  fsum (map (fun a => fmul a a) vec).

Definition cosine_similarity (vec1 vec2 : list F) : result F :=
  if negb (Py.len vec1 =? Py.len vec2) then
    Raise (DimensionMismatch (Py.len vec1) (Py.len vec2))
  else
    let dot_product := dot_product vec1 vec2 in
    bind (math_sqrt (sum_of_squares vec1)) (fun magnitude1 =>
    bind (math_sqrt (sum_of_squares vec2)) (fun magnitude2 =>
    if feqb magnitude1 (of_int 0) || feqb magnitude2 (of_int 0)
    then Ok (of_int 0)
    else truediv dot_product (fmul magnitude1 magnitude2))).

End Cosine.

End SemanticSimilarity.

(** ** rag_agent.py *)

(** A retrieved chunk, as [KnowledgeBase.query] builds it. A value of the
    store is [None] when the store reported no distance. *)
Record Passage := mkPassage {
  p_id : string;
  p_text : string;
  p_metadata : gmap string string;
  p_distance : option PrimFloat.float;
  p_similarity : option PrimFloat.float
}.

(** One entry of the [sources] list of an answer. *)
Record Source := mkSource {
  s_text : string;
  s_metadata : gmap string string;
  s_similarity : option PrimFloat.float
}.

Record AnswerResult := mkAnswerResult {
  r_query : string;
  r_answer : string;
  r_sources : list Source;
  num_sources : Z;
  has_sources : bool
}.

(** The agent: the completion service, as the function from a prompt to the
    text it returns, and the knowledge base, if one is connected, as its
    [query] method. *)
Record RAGAgent := mkRAGAgent {
  llm_generate : string → string;
  knowledge_base : option (string → Z → list Passage)
}.

Module RAGAgent.

Definition dquote : string := String "034" EmptyString.
Definition nl : string := String "010" EmptyString.

(** [len(s)] *)
Definition str_len (s : string) : Z := Z.of_nat (String.length s).

Definition retrieve_context (self : RAGAgent) (query : string) (top_k : Z)
  : list Passage :=
  match knowledge_base self with
  | None => []
  | Some kb_query => kb_query query top_k
  end.

(** The text before and after the question in the prompt for no context. *)
Definition decline_head : string := "The user asked: " +:+ dquote.

Definition decline_tail : string :=
  dquote +:+ nl +:+ nl +:+
  "You don't have any relevant information in your knowledge base to answer this question." +:+ nl +:+
  "Please respond honestly that you don't have this information available, and suggest " +:+ nl +:+
  "that the user might need to provide relevant documents or ask a different question.".

Definition instructions : string :=
  nl +:+
  "=== USER QUESTION ===" +:+ nl +:+ nl.

Definition guidelines : string :=
  nl +:+ nl +:+
  "=== INSTRUCTIONS ===" +:+ nl +:+ nl +:+
  "Please answer the user's question using ONLY the information provided in the context above." +:+ nl +:+ nl +:+
  "Important guidelines:" +:+ nl +:+
  "1. Cite which source(s) you used (e.g., " +:+ dquote +:+ "According to Source 1..." +:+ dquote +:+ ", "
    +:+ dquote +:+ "Source 2 states..." +:+ dquote +:+ ")" +:+ nl +:+
  "2. If the context contains the answer, provide it clearly and concisely" +:+ nl +:+
  "3. If the context doesn't fully answer the question, say so and explain what information is available" +:+ nl +:+
  "4. DO NOT make up information or use knowledge outside the provided context" +:+ nl +:+
  "5. Be helpful and conversational while staying factual" +:+ nl +:+ nl +:+
  "Your answer:".

(** The two lines that one chunk adds to the context, [i] counted from 1. *)
Definition source_block (i : nat) (chunk : Passage) : string :=
  let source := default "Unknown Source" (p_metadata chunk !! "source") in
  ("[Source " +:+ pretty i +:+ ": " +:+ source +:+ "]" +:+ nl)
  +:+ (p_text chunk +:+ nl +:+ nl).

Fixpoint source_blocks (i : nat) (context_chunks : list Passage) : string :=
  match context_chunks with
  | [] => EmptyString
  | chunk :: rest => source_block i chunk +:+ source_blocks (S i) rest
  end.

Definition build_prompt_with_context (query : string)
    (context_chunks : list Passage) : string :=
  match context_chunks with
  | [] => decline_head +:+ query +:+ decline_tail
  | _ =>
      let context_text :=
        ("=== KNOWLEDGE BASE CONTEXT ===" +:+ nl +:+ nl)
        +:+ ("Here are relevant excerpts from the knowledge base:" +:+ nl +:+ nl)
        +:+ source_blocks 1 context_chunks in
      context_text +:+ instructions +:+ query +:+ guidelines
  end.

(** One entry of [sources]: a text longer than 300 characters is cut to 300
    and marked. The key [similarity] is present in every chunk that
    [KnowledgeBase.query] builds, so the default of [get] is not used. *)
Definition source_of (chunk : Passage) : Source :=
  {| s_text := if str_len (p_text chunk) >? 300
               then Py.prefix 300 (p_text chunk) +:+ "..."
               else p_text chunk;
     s_metadata := p_metadata chunk;
     s_similarity := p_similarity chunk |}.

Definition answer (self : RAGAgent) (query : string) (top_k : Z)
  : AnswerResult :=
  let context_chunks := retrieve_context self query top_k in
  let prompt := build_prompt_with_context query context_chunks in
  let answer := llm_generate self prompt in
  {| r_query := query;
     r_answer := answer;
     r_sources := map source_of context_chunks;
     num_sources := Py.len context_chunks;
     has_sources := Py.len context_chunks >? 0 |}.

End RAGAgent.

(** ** chunking_utility.py: the dispatcher and the statistics *)

(** What [chunk_text] does: it returns the chunks, or it raises
    [ValueError] for a method name that it does not know. *)
Inductive ChunkTextResult :=
  | Chunks (chunks : list Chunk)
  | UnknownMethod (method : string).

(** The dictionary that [get_chunk_stats] returns for a list that is not
    empty. *)
Record ChunkStats (F : Type) := mkChunkStats {
  total_chunks : Z;
  avg_words_per_chunk : F;
  min_words : Z;
  max_words : Z;
  total_words : Z;
  stats_method : Method
}.
Arguments mkChunkStats {F} _ _ _ _ _ _.
Arguments total_chunks {F} _.
Arguments avg_words_per_chunk {F} _.
Arguments min_words {F} _.
Arguments max_words {F} _.
Arguments total_words {F} _.
Arguments stats_method {F} _.

Inductive Stats (F : Type) :=
  | NoChunksProvided                 (* {'error': 'No chunks provided'} *)
  | StatsOf (stats : ChunkStats F).
Arguments NoChunksProvided {F}.
Arguments StatsOf {F} stats.

Module Chunking.

(** [None] only if the word-based loop runs out of fuel. *)
Definition chunk_text (self : TextChunker) (text method : string)
  : option ChunkTextResult :=
  if decide (method = "words") then
    Chunks <$> TextChunker.chunk_by_words self text
  else if decide (method = "sentences") then
    Some (Chunks (TextChunker.chunk_by_sentences self text))
  else Some (UnknownMethod method).

(** The chunks are dictionaries that the chunker built, so that every key
    read here is present. The average is the quotient of two integers; it
    is the quotient of their floats as long as these are exact, which is
    up to 2^53. *)
Definition get_chunk_stats {F : Type} `{PyFloat F} (chunks : list Chunk)
  : Stats F :=
  match chunks with
  | [] => NoChunksProvided
  | first :: others =>
      let word_counts := map word_count chunks in
      StatsOf
        {| total_chunks := Py.len chunks;
           avg_words_per_chunk :=
             fdiv (of_int (Py.sum word_counts)) (of_int (Py.len word_counts));
           min_words := Py.min_of (word_count first) (map word_count others);
           max_words := Py.max_of (word_count first) (map word_count others);
           total_words := Py.sum word_counts;
           stats_method := method first |}
  end.

End Chunking.

(** ** faq_finder.py: loading from a file *)

Module FAQFile.

(** The body of the loop for one line. [None] is the [ValueError] of an
    unpacking that does not find two values. *)
Definition load_line (self : FAQFinder) (line : string) : option FAQFinder :=
  let line := Py.strip line in
  if Py.nonempty_str line && Py.has_char "|" line then
    match Py.split_once "|" line with
    | [question; answer] =>
        Some (FAQFinder.add_faq self (Py.strip question) (Py.strip answer))
    | _ => None
    end
  else Some self.

(** The loop over the lines. An exception ends it; the entries added
    before stay. The flag tells whether every line was read. *)
Fixpoint load_lines (self : FAQFinder) (lines : list string)
  : FAQFinder * bool :=
  match lines with
  | [] => (self, true)
  | line :: rest =>
      match load_line self line with
      | Some self' => load_lines self' rest
      | None => (self, false)
      end
  end.

(** The file is the list of its lines, as iterating over it gives them, or
    [None] when it cannot be opened. Every exception is caught. *)
Definition load_from_file (self : FAQFinder) (file : option (list string))
  : FAQFinder :=
  match file with
  | Some lines => fst (load_lines self lines)
  | None => self
  end.

End FAQFile.

(** ** semantic_similarity.py: labels and rankings *)

Module Comparison.
Import (notations) Stdlib.Floats.PrimFloat.

(** The doubles nearest to 0.9, 0.7, 0.5 and 0.3. *)
Definition double_0_9 : PrimFloat.float := 0x1.ccccccccccccdp-1%float.
Definition double_0_7 : PrimFloat.float := 0x1.6666666666666p-1%float.
Definition double_0_5 : PrimFloat.float := 0x1p-1%float.
Definition double_0_3 : PrimFloat.float := 0x1.3333333333333p-2%float.

(** [score >= c] is [c <= score]. *)
Definition interpret_similarity (score : PrimFloat.float) : string :=
  if PrimFloat.leb double_0_9 score then "Nearly identical!"
  else if PrimFloat.leb double_0_7 score then "Very similar"
  else if PrimFloat.leb double_0_5 score then "Somewhat similar"
  else if PrimFloat.leb double_0_3 score then "A bit related"
  else "Quite different".

Section Ranking.
Context {F : Type} `{PyFloat F}.

(** The loop that fills [results]. A dictionary is the list of its items in
    the order of insertion. *)
Fixpoint compare_each (base_vec : list F) (compare_vecs : list (string * list F))
  : result (list (string * F)) :=
  match compare_vecs with
  | [] => Ok []
  | (name, vec) :: rest =>
      bind (SemanticSimilarity.cosine_similarity base_vec vec) (fun similarity =>
      bind (compare_each base_vec rest) (fun results =>
      Ok ((name, similarity) :: results)))
  end.

Definition compare_multiple (base_vec : list F)
    (compare_vecs : list (string * list F)) : result (list (string * F)) :=
  bind (compare_each base_vec compare_vecs) (fun results =>
  Ok (Py.sorted_desc fltb snd results)).

End Ranking.

End Comparison.

(** ** gemini_wrapper.py *)

(** One entry of [history]. *)
Record Interaction := mkInteraction {
  i_prompt : string;
  i_response : string;
  i_temperature : PrimFloat.float;
  i_model : string
}.

Inductive Role := UserRole | AssistantRole.

(** One entry of [_chat_transcript]. *)
Record Turn := mkTurn {
  role : Role;
  turn_text : string
}.

(** The wrapper. [chat_transcript] is [None] as long as the attribute
    [_chat_transcript] is not set. *)
Record GeminiWrapper := mkGeminiWrapper {
  model_name : string;
  temperature : PrimFloat.float;
  history : list Interaction;
  persona : option string;
  chat_transcript : option (list Turn)
}.

Module GeminiWrapper.

(** What a test for truth lets through of a string or [None]. *)
Definition truthy (s : option string) : option string :=
  match s with
  | Some p => if Py.nonempty_str p then Some p else None
  | None => None
  end.

Definition nl2 : string := String "010" (String "010" EmptyString).

(** The text that [generate] sends to the service. *)
Definition full_prompt (self : GeminiWrapper) (prompt : string) : string :=
  match truthy (persona self) with
  | Some p => "SYSTEM: " +:+ p +:+ nl2 +:+ "USER: " +:+ prompt
  | None => prompt
  end.

(** [generate], for the outcome of its call of the service: [inl text] when
    the call returns and [text] is what is read from the response, [inr e]
    when it raises an exception whose message is [e]. The service is sent
    [full_prompt self prompt]. *)
Definition generate (self : GeminiWrapper) (prompt : string)
    (temperature' : option PrimFloat.float) (outcome : string + string)
  : GeminiWrapper * string :=
  let temp := default (temperature self) temperature' in
  match outcome with
  | inl text =>
      ({| model_name := model_name self;
          temperature := temperature self;
          history := history self
                     ++ [ {| i_prompt := prompt; i_response := text;
                             i_temperature := temp;
                             i_model := model_name self |} ];
          persona := persona self;
          chat_transcript := chat_transcript self |},
       text)
  | inr e => (self, "Error calling Gemini API: " +:+ e)
  end.

Definition turn_line (turn : Turn) : string :=
  match role turn with
  | UserRole => "USER: " +:+ turn_text turn
  | AssistantRole => "ASSISTANT: " +:+ turn_text turn
  end.

(** The prompt that [chat] builds from the transcript, the new message
    included. *)
Definition chat_prompt (persona : option string) (transcript : list Turn)
  : string :=
  let convo :=
    match truthy persona with Some p => ["SYSTEM: " +:+ p] | None => [] end
    ++ map turn_line (Py.slice transcript (-10) (Py.len transcript))
    ++ ["ASSISTANT:"] in
  Py.join nl2 convo.

Definition chat (self : GeminiWrapper) (message : string)
    (outcome : string + string) : GeminiWrapper * string :=
  let transcript :=
    default [] (chat_transcript self) ++ [mkTurn UserRole message] in
  let prompt := chat_prompt (persona self) transcript in
  let '(self, reply) := generate self prompt None outcome in
  ({| model_name := model_name self;
      temperature := temperature self;
      history := history self;
      persona := persona self;
      chat_transcript := Some (transcript ++ [mkTurn AssistantRole reply]) |},
   reply).

Definition clear_history (self : GeminiWrapper) : GeminiWrapper :=
  {| model_name := model_name self;
     temperature := temperature self;
     history := [];
     persona := persona self;
     chat_transcript :=
       match chat_transcript self with Some _ => Some [] | None => None end |}.

End GeminiWrapper.

(** ** knowledge_base.py: what [add_document] hands to the store *)

(** A value of a metadata dictionary. *)
Inductive MetaValue :=
  | MetaStr (s : string)
  | MetaInt (z : Z).

(** The arguments of [collection.add]. *)
Record Records := mkRecords {
  ids : list string;
  documents : list string;
  metadatas : list (gmap string MetaValue)
}.

Module KnowledgeBase.

(** The chunker that [__init__] builds. *)
Definition chunker : TextChunker := {| chunk_size := 500; overlap := 50 |}.

(** The value of the key [method] of a chunk. *)
Definition method_name (m : Method) : string :=
  match m with
  | WordBased => "word-based"
  | SentenceBased => "sentence-based"
  end.

(** [{**metadata, 'chunk_id': ..., 'word_count': ..., 'method': ...}] *)
Definition chunk_metadata (metadata : gmap string MetaValue) (chunk : Chunk)
  : gmap string MetaValue :=
  <["method" := MetaStr (method_name (method chunk))]>
    (<["word_count" := MetaInt (word_count chunk)]>
       (<["chunk_id" := MetaInt (chunk_id chunk)]> metadata)).

(** The loop over the chunks; [uuids] are the identifiers that the calls of
    [uuid.uuid4] give, by the number of the call. *)
Definition records_of (metadata : gmap string MetaValue) (uuids : nat → string)
    (chunks : list Chunk) : Records :=
  {| ids := imap (fun i _ => uuids i) chunks;
     documents := map text chunks;
     metadatas := map (chunk_metadata metadata) chunks |}.

(** [add_document] up to its call of [collection.add]: the arguments of
    this call, of which the identifiers are what [add_document] returns
    when the store accepts them. [None] stands for an exception of
    [chunk_text]. *)
Definition add_document (text : string)
    (metadata : option (gmap string MetaValue)) (uuids : nat → string)
  : option Records :=
  let metadata := default ∅ metadata in
  match Chunking.chunk_text chunker text "sentences" with
  | Some (Chunks chunks) => Some (records_of metadata uuids chunks)
  | _ => None
  end.

End KnowledgeBase.

(** ** Vocabulary of the statements *)

Module Vocabulary.
Import Py.
Import (notations) Stdlib.Floats.PrimFloat.

Fixpoint no_space (s : string) : bool :=
  match s with
  | EmptyString => true
  | String c s' => negb (isspace c) && no_space s'
  end.

(** A word: a non-empty string without whitespace. *)
Definition is_word (w : string) : bool := nonempty_str w && no_space w.

Section Windows.
Variable self : TextChunker.
Variable words : list string.

Definition next_end (start : Z) : Z :=
  Z.min (start + chunk_size self) (len words).

(** The dictionary appended by one iteration that begins at [start]. *)
Definition word_chunk (id start : Z) : Chunk :=
  {| chunk_id := id;
     text := join " " (slice words start (next_end start));
     span := WordSpan start (next_end start);
     word_count := len (slice words start (next_end start));
     method := WordBased |}.

(** What the loop appends when it is entered at [start] with counter [id]. *)
Inductive windows : Z → Z → list Chunk → Prop :=
  | windows_exhausted start id :
      len words ≤ start → windows start id []
  | windows_halt start id :
      start < len words →
      next_end start - overlap self ≤ start →
      windows start id [word_chunk id start]
  | windows_advance start id rest :
      start < len words →
      start < next_end start - overlap self →
      windows (next_end start - overlap self) (id + 1) rest →
      windows start id (word_chunk id start :: rest).

End Windows.

(** The sentence lists that [sentences_loop] turns into chunks: the loop
    without its bookkeeping of identifiers and word counts. *)
Fixpoint groups_loop (self : TextChunker) (sentences : list string)
    (current_chunk : list string) : list (list string) :=
  match sentences with
  | [] => if nonempty current_chunk then [current_chunk] else []
  | sentence :: rest =>
      if (sum (map TextChunker.count_words current_chunk)
          + TextChunker.count_words sentence >? chunk_size self)
         && nonempty current_chunk
      then current_chunk
           :: groups_loop self rest
                (TextChunker.overlap_sentences current_chunk ++ [sentence])
      else groups_loop self rest (current_chunk ++ [sentence])
  end.

(** The chunks of a list of sentence lists, numbered from [id]. *)
Fixpoint number_chunks (id : Z) (groups : list (list string)) : list Chunk :=
  match groups with
  | [] => []
  | g :: gs =>
      TextChunker.sentence_chunk id g (sum (map TextChunker.count_words g))
      :: number_chunks (id + 1) gs
  end.

(** The last two elements of a list, or all of a shorter one. *)
Definition trailing_two {A} (l : list A) : list A := drop (length l - 2) l.

(** The sentences [new] were added to a chunk that began with [carried]
    without passing the size limit: either there is at most one of them, or
    the whole chunk has at most [chunk_size] words. *)
Definition fits (self : TextChunker) (carried new : list string) : Prop :=
  (length new ≤ 1)%nat
  ∨ sum (map TextChunker.count_words (carried ++ new)) ≤ chunk_size self.

(** A sentence of [new] with more than [chunk_size] words is all of [new]. *)
Definition alone_if_long (self : TextChunker) (new : list string) : Prop :=
  ∀ s, s ∈ new → chunk_size self < TextChunker.count_words s → new = [s].

(** [seg_chain self sentences before carried new gs]: in the document
    [sentences] the group [carried ++ new] comes right after [before]; each
    group of [gs] is the trailing two sentences of the group before it
    followed by the next sentences of the document, at least one; the last
    group ends the document; the new sentences of every group fit. *)
Inductive seg_chain (self : TextChunker) (sentences : list string)
  : list string → list string → list string → list (list string) → Prop :=
  | seg_last before carried new :
      sentences = before ++ carried ++ new →
      fits self carried new →
      seg_chain self sentences before carried new []
  | seg_next before carried new new' after gs :
      sentences = before ++ carried ++ new ++ new' ++ after →
      fits self carried new →
      new' ≠ [] →
      seg_chain self sentences
        (before ++ take (length (carried ++ new) - 2) (carried ++ new))
        (trailing_two (carried ++ new)) new' gs →
      seg_chain self sentences before carried new
        ((trailing_two (carried ++ new) ++ new') :: gs).

(** Word [k] of the document lies in the span of chunk [c]. *)
Definition in_span (c : Chunk) (k : Z) : Prop :=
  match span c with
  | WordSpan s e => s ≤ k < e
  | SentenceCount _ => False
  end.

(** The number of word positions that the spans of two chunks share. *)
Definition shared_words (c c' : Chunk) : Z :=
  match span c, span c' with
  | WordSpan s e, WordSpan s' e' => Z.max 0 (Z.min e e' - Z.max s s')
  | _, _ => 0
  end.

(** The identifiers count from 0 in list order, and every recorded word
    count is the word count of the chunk's text. *)
Definition well_indexed (chunks : list Chunk) : Prop :=
  ∀ i c, chunks !! i = Some c →
    chunk_id c = Z.of_nat i ∧ word_count c = TextChunker.count_words (text c).

(** All characters of a string satisfy a test. *)
Fixpoint all_chars (p : ascii → bool) (s : string) : bool :=
  match s with
  | EmptyString => true
  | String c s' => p c && all_chars p s'
  end.

Definition is_space_char (c : ascii) : bool :=
  if decide (c = " "%char) then true else false.

(** No whitespace character follows another one; [after_space] tells
    whether the string comes right after a whitespace character. *)
Fixpoint single_spaced (after_space : bool) (s : string) : bool :=
  match s with
  | EmptyString => true
  | String c s' =>
      if isspace c then negb after_space && single_spaced true s'
      else single_spaced false s'
  end.

Definition first_char (s : string) : option ascii :=
  match s with
  | EmptyString => None
  | String c _ => Some c
  end.

Fixpoint last_char (s : string) : option ascii :=
  match s with
  | EmptyString => None
  | String c s' =>
      match last_char s' with
      | None => Some c
      | Some d => Some d
      end
  end.

(** The string begins, or ends, with a whitespace character. *)
Definition leading_space (s : string) : bool :=
  match first_char s with Some c => isspace c | None => false end.

Definition trailing_space (s : string) : bool :=
  match last_char s with Some c => isspace c | None => false end.

(** The string begins, or ends, with a character of [a-z0-9]. *)
Definition begins_alnum (s : string) : bool :=
  match first_char s with
  | Some c => TextCleaner.is_lower_alnum c
  | None => false
  end.

Definition ends_alnum (s : string) : bool :=
  match last_char s with
  | Some c => TextCleaner.is_lower_alnum c
  | None => false
  end.

(** [prefix.startswith], and [needle in hay] for strings. *)
Fixpoint startswith (p s : string) : bool :=
  match p, s with
  | EmptyString, _ => true
  | String a p', String b s' =>
      if decide (a = b) then startswith p' s' else false
  | String _ _, EmptyString => false
  end.

Fixpoint contains (needle hay : string) : bool :=
  startswith needle hay
  || match hay with
     | EmptyString => false
     | String _ hay' => contains needle hay'
     end.

(** The length of a vector of reals. *)
Definition magnitude (vec : list R) : R :=
  sqrt (SemanticSimilarity.sum_of_squares vec).

(** The same in binary64 arithmetic. *)
Definition double_magnitude (vec : list PrimFloat.float) : PrimFloat.float :=
  PrimFloat.sqrt (SemanticSimilarity.sum_of_squares vec).

(** The dot product and the magnitude as the specification words them, to
    be compared with what [cosine_similarity] computes. On the reals the dot
    product is the sum, over the positions, of the products of the two
    entries, and the magnitude of a vector is the root of its dot product
    with itself. *)
Fixpoint inner_product (vec1 vec2 : list R) : R :=
  match vec1, vec2 with
  | a :: vec1', b :: vec2' => (a * b + inner_product vec1' vec2')%R
  | _, _ => 0%R
  end.

Definition euclidean_norm (vec : list R) : R := sqrt (inner_product vec vec).

(** In binary64 the order of the additions matters: the products, each
    rounded, are added position after position to a total that begins at
    zero, and every sum is rounded. *)
Fixpoint double_products (total : PrimFloat.float)
    (vec1 vec2 : list PrimFloat.float) : PrimFloat.float :=
  match vec1, vec2 with
  | a :: vec1', b :: vec2' =>
      double_products (PrimFloat.add total (PrimFloat.mul a b)) vec1' vec2'
  | _, _ => total
  end.

Definition double_inner_product (vec1 vec2 : list PrimFloat.float)
  : PrimFloat.float :=
  double_products 0%float vec1 vec2.

Definition double_euclidean_norm (vec : list PrimFloat.float)
  : PrimFloat.float :=
  PrimFloat.sqrt (double_inner_product vec vec).

(** A binary64 number, in its specification form, that is not below zero:
    a zero, a positive number, plus infinity, or not a number. *)
Definition not_negative (x : SpecFloat.spec_float) : bool :=
  match x with
  | SpecFloat.S754_infinity true | SpecFloat.S754_finite true _ _ => false
  | _ => true
  end.

(** A binary64 number that is not a zero. *)
Definition nonzero (x : SpecFloat.spec_float) : bool :=
  match x with SpecFloat.S754_zero _ => false | _ => true end.

(** A binary64 number that is not a zero and, when finite, has a full
    mantissa of 53 bits and an exponent of at least -589: its absolute value
    is at least 2^-537. *)
Definition sturdy (x : SpecFloat.spec_float) : bool :=
  match x with
  | SpecFloat.S754_zero _ => false
  | SpecFloat.S754_finite _ m e =>
      (Zpos (SpecFloat.digits2_pos m) =? 53) && (-589 <=? e)
  | _ => true
  end.

(** The double nearest to 0.15, which is what Python reads [0.15] as. *)
Definition double_0_15 : PrimFloat.float := 0x1.3333333333333p-3%float.

(** A text of [n] one-letter words. *)
Definition text_of_words (n : nat) : string := join " " (replicate n "w").

(** The finder of the registration scenario: one entry, added by [add_faq]. *)
Definition register_finder : FAQFinder :=
  FAQFinder.add_faq FAQFinder.init
    "How do I register?" "Click the register button.".

(** An agent with no knowledge base connected, whose completion service
    echoes the prompt. *)
Definition echo_agent : RAGAgent :=
  {| llm_generate := fun prompt => prompt; knowledge_base := None |}.

End Vocabulary.

(** ** Vocabulary of the further theorems *)

Module Notions.
Import Py.
Import (notations) Stdlib.Floats.PrimFloat.

(** The words that a state of the scan of [split] stands for. *)
Definition pushed (st : string * list string) : list string :=
  push (fst st) (snd st).

(** What cleaning leaves of one word. *)
Definition clean_word (w : string) : string :=
  TextCleaner.remove_special (TextCleaner.lower w).

(** The strings of a list that are not empty. *)
Definition nonempty_strings (l : list string) : list string :=
  filter (fun w => nonempty_str w = true) l.

(** The body of the loop of [find_answer]. *)
Definition step {F : Type} `{PyFloat F} (user_words : gset string)
    (st : option FAQ * F) (faq : FAQ) : option FAQ * F :=
  if fltb (snd st)
          (FAQFinder.score user_words (FAQFinder.token_set (question_clean faq)))
  then (Some faq,
        FAQFinder.score user_words (FAQFinder.token_set (question_clean faq)))
  else st.

(** The score of an entry for a question, as [find_answer] computes it. *)
Definition entry_score {F : Type} `{PyFloat F} (user_question : string)
    (faq : FAQ) : F :=
  FAQFinder.score
    (FAQFinder.token_set (TextCleaner.clean_text user_question))
    (FAQFinder.token_set (question_clean faq)).

Definition bar : ascii := "|"%char.

Definition has_bar (line : string) : bool := has_char bar line.

(** The entry that a line with a bar stands for: the question is the text
    before the first bar, the answer the text after it, both stripped. *)
Definition entry_of_line (line : string) (faq : FAQ) : Prop :=
  ∃ q a, strip line = q +:+ String bar a
         ∧ has_char bar q = false
         ∧ question faq = strip q
         ∧ answer faq = strip a
         ∧ question_clean faq = TextCleaner.clean_text (strip q).

(** The labels of [interpret_similarity], from the weakest to the
    strongest. *)
Definition label_rank (label : string) : nat :=
  if decide (label = "Nearly identical!") then 4
  else if decide (label = "Very similar") then 3
  else if decide (label = "Somewhat similar") then 2
  else if decide (label = "A bit related") then 1
  else 0.

(** The names and scores [results] are those of the items [compare_vecs],
    in the same order. *)
Definition scores_of {F : Type} `{PyFloat F} (base_vec : list F)
    (compare_vecs : list (string * list F)) (results : list (string * F))
  : Prop :=
  Forall2 (fun item result =>
             fst item = fst result
             ∧ SemanticSimilarity.cosine_similarity base_vec (snd item)
               = Ok (snd result))
          compare_vecs results.

(** A double that is a number. *)
Definition is_number (x : PrimFloat.float) : Prop := PrimFloat.eqb x x = true.

(** [a] may stand before [b] in a falling order: the key of [a] is not
    below the key of [b]. *)
Definition falls {A K : Type} (lt : K → K → bool) (key : A → K) (a b : A)
  : Prop :=
  lt (key a) (key b) = false.

(** The entry of [sources] for a chunk: the metadata and the similarity are
    the chunk's; the text is the chunk's, or its first 300 characters and
    an ellipsis when it is longer. *)
Definition excerpt_of (chunk : Passage) (source : Source) : Prop :=
  s_metadata source = p_metadata chunk
  ∧ s_similarity source = p_similarity chunk
  ∧ RAGAgent.str_len (s_text source) ≤ 303
  ∧ (RAGAgent.str_len (p_text chunk) ≤ 300 → s_text source = p_text chunk)
  ∧ (300 < RAGAgent.str_len (p_text chunk) →
       s_text source = prefix 300 (p_text chunk) +:+ "..."
       ∧ RAGAgent.str_len (s_text source) = 303).

(** The two lines that open the context. *)
Definition context_header : string :=
  ("=== KNOWLEDGE BASE CONTEXT ===" +:+ RAGAgent.nl +:+ RAGAgent.nl)
  +:+ ("Here are relevant excerpts from the knowledge base:"
       +:+ RAGAgent.nl +:+ RAGAgent.nl).

(** The label of a chunk in the prompt and the chunk's text under it. *)
Definition citation (i : nat) (chunk : Passage) : string :=
  "[Source " +:+ pretty i +:+ ": "
  +:+ default "Unknown Source" (p_metadata chunk !! "source")
  +:+ "]" +:+ RAGAgent.nl +:+ p_text chunk +:+ RAGAgent.nl.

(** What a call of [chat] returns for an outcome of the service. *)
Definition reply_of (outcome : string + string) : string :=
  match outcome with
  | inl text => text
  | inr e => "Error calling Gemini API: " +:+ e
  end.

(** The two turns that one call of [chat] adds. *)
Definition exchange (step : string * (string + string)) : list Turn :=
  [mkTurn UserRole (fst step); mkTurn AssistantRole (reply_of (snd step))].

Definition has_returned (outcome : string + string) : bool :=
  match outcome with inl _ => true | inr _ => false end.

(** The number of calls of the service that returned. *)
Definition returned (steps : list (string * (string + string))) : nat :=
  length (filter (fun step => has_returned (snd step) = true) steps).

(** [chat] called for each message in turn; the replies in order. *)
Fixpoint chats (self : GeminiWrapper) (steps : list (string * (string + string)))
  : GeminiWrapper * list string :=
  match steps with
  | [] => (self, [])
  | (message, outcome) :: rest =>
      let '(self, reply) := GeminiWrapper.chat self message outcome in
      let '(self, replies) := chats self rest in
      (self, reply :: replies)
  end.

(** The turns of the transcript that the next prompt shows. *)
Definition window (self : GeminiWrapper) (message : string) : list Turn :=
  let transcript :=
    default [] (chat_transcript self) ++ [mkTurn UserRole message] in
  slice transcript (-10) (len transcript).

(** Two chunks of two and one words. *)
Definition small_chunks : list Chunk :=
  [mkChunk 0 "a b" (WordSpan 0 2) 2 WordBased;
   mkChunk 1 "b" (WordSpan 1 2) 1 WordBased].

(** A knowledge base that returns the same two passages for every query:
    a short one with a source, and one of 400 characters without. *)
Definition two_passages : list Passage :=
  [ {| p_id := "a"; p_text := "Workshops run from 9 to 5.";
       p_metadata := {[ "source" := "GDG Guidelines" ]};
       p_distance := None; p_similarity := None |};
    {| p_id := "b"; p_text := join EmptyString (replicate 400 "x");
       p_metadata := ∅;
       p_distance := None; p_similarity := None |} ].

Definition fixed_agent : RAGAgent :=
  {| llm_generate := fun prompt => prompt;
     knowledge_base := Some (fun _ _ => two_passages) |}.

(** A wrapper as [__init__] leaves it, and six messages of which the
    service fails the third. *)
Definition fresh_wrapper : GeminiWrapper :=
  {| model_name := "gemini-2.5-flash";
     temperature := 0x1.6666666666666p-1%float;
     history := [];
     persona := None;
     chat_transcript := None |}.

Definition six_steps : list (string * (string + string)) :=
  [("q1", inl "r1"); ("q2", inl "r2"); ("q3", inr "timeout");
   ("q4", inl "r4"); ("q5", inl "r5"); ("q6", inl "r6")].

End Notions.

(** ** The embedding at work *)

Module Examples.
Import Vocabulary.
Import Stdlib.Floats.PrimFloat.

Example split_runs :
  Py.split "  hello   big world " = ["hello"; "big"; "world"].
Proof. reflexivity. Qed.

Example slice_negative_stop : Py.slice [1; 2; 3; 4; 5] 0 (-2) = [1; 2; 3].
Proof. reflexivity. Qed.

Example sentences_of_text :
  TextChunker.split_into_sentences "Hi there.  How are you? Fine!   "
  = ["Hi there."; "How are you?"; "Fine!"].
Proof. reflexivity. Qed.

Example words_3_1 :
  TextChunker.chunk_by_words (mkTextChunker 3 1) "a b c d e"
  = Some [mkChunk 0 "a b c" (WordSpan 0 3) 3 WordBased;
          mkChunk 1 "c d e" (WordSpan 2 5) 3 WordBased;
          mkChunk 2 "e" (WordSpan 4 5) 1 WordBased].
Proof. reflexivity. Qed.

Example words_overlap_not_below_size :
  TextChunker.chunk_by_words (mkTextChunker 2 2) "a b c d e"
  = Some [mkChunk 0 "a b" (WordSpan 0 2) 2 WordBased].
Proof. reflexivity. Qed.

Example sentences_size_3 :
  TextChunker.chunk_by_sentences (mkTextChunker 3 0)
    "One two. Three! Four five six seven? Eight."
  = [mkChunk 0 "One two. Three!" (SentenceCount 2) 3 SentenceBased;
     mkChunk 1 "One two. Three! Four five six seven?" (SentenceCount 3) 7
       SentenceBased;
     mkChunk 2 "Three! Four five six seven? Eight." (SentenceCount 3) 6
       SentenceBased].
Proof. reflexivity. Qed.

Example sentences_long_second :
  TextChunker.chunk_by_sentences (mkTextChunker 3 0) "A. B b b b b. C."
  = [mkChunk 0 "A." (SentenceCount 1) 1 SentenceBased;
     mkChunk 1 "A. B b b b b." (SentenceCount 2) 6 SentenceBased;
     mkChunk 2 "A. B b b b b. C." (SentenceCount 3) 7 SentenceBased].
Proof. reflexivity. Qed.

Example clean_text_demo :
  TextCleaner.clean_text "  Hello, World!!!  " = "hello world".
Proof. reflexivity. Qed.

Example expand_sign :
  FAQFinder.expand_with_synonyms {["sign"]}
  = list_to_set ["sign"; "register"; "signup"; "join"; "enroll"].
Proof. by vm_compute. Qed.

Example no_faqs :
  FAQFinder.find_answer FAQFinder.init "anything" double_0_15
  = Ok (mkAnswer "No FAQs loaded." 0%float None).
Proof. reflexivity. Qed.

Example double_0_15_value :
  double_0_15
  = div (double_of_int 5404319552844595) (double_of_int (2 ^ 55)).
Proof. reflexivity. Qed.

Example cosine_orthogonal :
  SemanticSimilarity.cosine_similarity [1%float; 0%float] [0%float; 1%float]
  = Ok 0%float.
Proof. reflexivity. Qed.

Example cosine_itself :
  SemanticSimilarity.cosine_similarity [3%float; 4%float] [3%float; 4%float]
  = Ok 1%float.
Proof. reflexivity. Qed.

Example cosine_null_vector :
  SemanticSimilarity.cosine_similarity [0%float; 0%float] [3%float; 4%float]
  = Ok 0%float.
Proof. reflexivity. Qed.

Example cosine_lengths_differ :
  SemanticSimilarity.cosine_similarity [1%float] [3%float; 4%float]
  = Raise (DimensionMismatch 1 2).
Proof. reflexivity. Qed.

Example no_match_at_zero_threshold :
  FAQFinder.find_answer register_finder "pizza" 0%float
  = Raise NoneNotSubscriptable.
Proof. by vm_compute. Qed.

End Examples.

(** ** Facts about the string built-ins *)

Arguments Py.isspace : simpl never.
Arguments TextCleaner.is_lower_alnum : simpl never.

Module PyFacts.
Import Py Vocabulary.

Lemma app_cons c (a b : string) : String c a +:+ b = String c (a +:+ b).
Proof. reflexivity. Qed.

Lemma app_empty_l (a : string) : EmptyString +:+ a = a.
Proof. reflexivity. Qed.

Lemma app_empty_r (a : string) : a +:+ EmptyString = a.
Proof. induction a as [|c a IH]; [done|]. by rewrite app_cons, IH. Qed.

Lemma app_assoc_str (a b c : string) : (a +:+ b) +:+ c = a +:+ (b +:+ c).
Proof. induction a as [|x a IH]; [done|]. by rewrite !app_cons, IH. Qed.

Lemma push_app w ws l : push w (ws ++ l) = push w ws ++ l.
Proof. by destruct w. Qed.

Lemma push_word w ws : nonempty_str w = true → push w ws = w :: ws.
Proof. by destruct w. Qed.

Lemma split_from_app a b st :
  split_from (a +:+ b) st = split_from a (split_from b st).
Proof.
  induction a as [|c a IH]; [done|].
  rewrite app_cons. simpl. by rewrite IH.
Qed.

Lemma split_from_tail a l :
  split_from a (EmptyString, l)
  = (fst (split_from a (EmptyString, [])), snd (split_from a (EmptyString, [])) ++ l).
Proof.
  induction a as [|c a IH]; [done|].
  simpl. rewrite IH.
  destruct (split_from a (EmptyString, [])) as [w ws]. simpl.
  destruct (isspace c); [|done]. by rewrite push_app.
Qed.

Lemma split_from_no_space a w ws :
  no_space a = true → split_from a (w, ws) = (a +:+ w, ws).
Proof.
  induction a as [|c a IH]; [done|].
  simpl. intros [Hc Ha]%andb_prop. rewrite (IH Ha).
  apply negb_true_iff in Hc. by rewrite Hc.
Qed.

Lemma split_is_word w : is_word w = true → split w = [w].
Proof.
  intros [Hne Hns]%andb_prop. unfold split.
  rewrite (split_from_no_space _ _ _ Hns), app_empty_r.
  by apply push_word.
Qed.

(** Splitting distributes over a separating space. *)
Lemma split_app_space a b : split (a +:+ " " +:+ b) = split a ++ split b.
Proof.
  unfold split. rewrite split_from_app.
  change (split_from (" " +:+ b) (EmptyString, []))
    with (let '(w, ws) := split_from b (EmptyString, []) in (EmptyString, push w ws)).
  destruct (split_from b (EmptyString, [])) as [wb wsb].
  rewrite split_from_tail.
  destruct (split_from a (EmptyString, [])) as [wa wsa]. simpl.
  apply push_app.
Qed.

Lemma split_from_words s st :
  no_space (fst st) = true → Forall (fun w => is_word w = true) (snd st) →
  no_space (fst (split_from s st)) = true
  ∧ Forall (fun w => is_word w = true) (snd (split_from s st)).
Proof.
  intros Hw Hws. induction s as [|c s [IHw IHws]]; [done|].
  simpl. destruct (split_from s st) as [w ws]. simpl in *.
  destruct (isspace c) eqn:Hc; simpl.
  - split; [done|]. destruct w; [done|].
    constructor; [|done]. unfold is_word. by rewrite IHw.
  - by rewrite Hc, IHw.
Qed.

(** Every element of [s.split()] is a word. *)
Lemma split_words s : Forall (fun w => is_word w = true) (split s).
Proof.
  unfold split.
  destruct (split_from_words s (EmptyString, [])) as [Hw Hws]; [done..|].
  destruct (split_from s (EmptyString, [])) as [w ws]. simpl in *.
  destruct w; [done|]. constructor; [|done]. unfold is_word. by rewrite Hw.
Qed.

(** [' '.join(ws).split() == ws] for a list of words. *)
Lemma split_join ws :
  Forall (fun w => is_word w = true) ws → split (join " " ws) = ws.
Proof.
  induction 1 as [|w ws Hw Hws IH]; [done|].
  destruct ws as [|w' ws].
  - by apply split_is_word.
  - change (join " " (w :: w' :: ws)) with (w +:+ " " +:+ join " " (w' :: ws)).
    by rewrite split_app_space, IH, (split_is_word _ Hw).
Qed.

Lemma sum_from l a : fold_left Z.add l a = a + sum l.
Proof.
  unfold sum. revert a. induction l as [|x l IH]; intros a; simpl; [lia|].
  rewrite (IH (a + x)), (IH (0 + x)). lia.
Qed.

Lemma sum_cons x l : sum (x :: l) = x + sum l.
Proof. unfold sum at 1. simpl. rewrite sum_from. lia. Qed.

Lemma sum_app l1 l2 : sum (l1 ++ l2) = sum l1 + sum l2.
Proof.
  induction l1 as [|x l1 IH]; [done|].
  change ((x :: l1) ++ l2) with (x :: (l1 ++ l2)). rewrite !sum_cons, IH. lia.
Qed.

Lemma len_app {A} (l1 l2 : list A) : len (l1 ++ l2) = len l1 + len l2.
Proof. unfold len. rewrite length_app. lia. Qed.

(** The word count of a joined list is the sum of the parts' word counts. *)
Lemma len_split_join l :
  len (split (join " " l)) = sum (map (fun s => len (split s)) l).
Proof.
  induction l as [|a l IH]; [done|].
  destruct l as [|b l].
  - simpl. rewrite sum_cons. unfold sum. simpl. lia.
  - change (join " " (a :: b :: l)) with (a +:+ " " +:+ join " " (b :: l)).
    rewrite split_app_space, len_app, IH.
    change (map _ (a :: b :: l))
      with (len (split a) :: map (fun s => len (split s)) (b :: l)).
    by rewrite sum_cons.
Qed.

Lemma clamp_index_range n i : 0 ≤ n → 0 ≤ clamp_index n i ≤ n.
Proof. unfold clamp_index. destruct (i <? 0) eqn:E; lia. Qed.

Lemma len_slice {A} (l : list A) start stop :
  len (slice l start stop)
  = Z.max 0 (clamp_index (len l) stop - clamp_index (len l) start).
Proof.
  unfold slice.
  pose proof (clamp_index_range (len l) start ltac:(unfold len; lia)).
  pose proof (clamp_index_range (len l) stop ltac:(unfold len; lia)).
  unfold len in *. rewrite length_take, length_drop. lia.
Qed.

Lemma slice_Forall {A} (P : A → Prop) (l : list A) start stop :
  Forall P l → Forall P (slice l start stop).
Proof. intros H. unfold slice. by apply Forall_take, Forall_drop. Qed.

End PyFacts.

(** ** The word-based loop as a chain of windows *)

Module WordsFacts.
Import Py Vocabulary PyFacts TextChunker.

Section Windows.
Variable self : TextChunker.
Variable words : list string.

Local Abbreviation next_end := (next_end self words).
Local Abbreviation word_chunk := (word_chunk self words).
Local Abbreviation windows := (windows self words).

Lemma last_start_word_snoc chunks id start :
  last_start_word (chunks ++ [word_chunk id start]) = Some start.
Proof. unfold last_start_word. by rewrite last_snoc. Qed.

Lemma words_loop_exit fuel chunks id start :
  len words ≤ start →
  words_loop self words (S fuel) chunks id start = Some chunks.
Proof. intros H. simpl. by rewrite (proj2 (Z.ltb_ge _ _) H). Qed.

Lemma words_loop_iter fuel chunks id start :
  start < len words →
  words_loop self words (S fuel) chunks id start
  = if next_end start - overlap self <=? start
    then Some (chunks ++ [word_chunk id start])
    else words_loop self words fuel (chunks ++ [word_chunk id start])
           (id + 1) (next_end start - overlap self).
Proof.
  intros H. simpl. rewrite (proj2 (Z.ltb_lt _ _) H).
  change (Z.min (start + chunk_size self) (len words)) with (next_end start).
  change (mkChunk id _ _ _ _) with (word_chunk id start).
  by rewrite last_start_word_snoc.
Qed.

Lemma words_loop_windows fuel : ∀ chunks id start r,
  words_loop self words fuel chunks id start = Some r →
  ∃ rest, r = chunks ++ rest ∧ windows start id rest.
Proof.
  induction fuel as [|fuel IH]; intros chunks id start r Hr; [done|].
  destruct (Z.lt_ge_cases start (len words)) as [Hlt|Hge].
  - rewrite (words_loop_iter _ _ _ _ Hlt) in Hr.
    destruct (Z.leb_spec (next_end start - overlap self) start) as [Hle|Hgt].
    + injection Hr as <-. eexists; split; [done|]. by apply windows_halt.
    + apply IH in Hr as (rest & -> & Hrest).
      exists (word_chunk id start :: rest). split.
      * by rewrite <- app_assoc.
      * by apply windows_advance.
  - rewrite (words_loop_exit _ _ _ _ Hge) in Hr. injection Hr as <-.
    exists []. split; [by rewrite app_nil_r|]. by apply windows_exhausted.
Qed.

(** The distance to the end of the word list bounds the fuel needed. *)
Lemma words_loop_total fuel : ∀ chunks id start,
  (Z.to_nat (len words - start) < fuel)%nat →
  is_Some (words_loop self words fuel chunks id start).
Proof.
  induction fuel as [|fuel IH]; intros chunks id start Hfuel; [lia|].
  destruct (Z.lt_ge_cases start (len words)) as [Hlt|Hge].
  - rewrite (words_loop_iter _ _ _ _ Hlt).
    destruct (Z.leb_spec (next_end start - overlap self) start) as [Hle|Hgt];
      [done|].
    apply IH. lia.
  - by rewrite (words_loop_exit _ _ _ _ Hge).
Qed.

Lemma words_loop_more_fuel fuel : ∀ fuel' chunks id start r,
  words_loop self words fuel chunks id start = Some r →
  (fuel ≤ fuel')%nat →
  words_loop self words fuel' chunks id start = Some r.
Proof.
  induction fuel as [|fuel IH]; intros fuel' chunks id start r Hr Hle; [done|].
  destruct fuel' as [|fuel']; [lia|].
  destruct (Z.lt_ge_cases start (len words)) as [Hlt|Hge].
  - rewrite (words_loop_iter _ _ _ _ Hlt) in Hr.
    rewrite (words_loop_iter _ _ _ _ Hlt).
    destruct (next_end start - overlap self <=? start); [done|].
    apply IH; [done|lia].
  - rewrite (words_loop_exit _ _ _ _ Hge) in Hr.
    by rewrite (words_loop_exit _ _ _ _ Hge).
Qed.

(** Shape of the [i]-th chunk of a chain, and of two neighbours. *)
Lemma windows_lookup start id rest :
  windows start id rest → ∀ i c, rest !! i = Some c →
  ∃ s, c = word_chunk (id + Z.of_nat i) s ∧ start ≤ s < len words.
Proof.
  induction 1 as [start id Hge|start id Hlt Hle|start id rest Hlt Hgt Hrest IH];
    intros i c Hi.
  - done.
  - destruct i as [|i]; [|done]. injection Hi as <-.
    exists start. rewrite Z.add_0_r. split; [done|lia].
  - destruct i as [|i].
    + injection Hi as <-. exists start. rewrite Z.add_0_r. split; [done|lia].
    + destruct (IH _ _ Hi) as (s & -> & Hs). exists s.
      split; [f_equal; lia|lia].
Qed.

Lemma windows_head start id c rest :
  windows start id (c :: rest) → c = word_chunk id start.
Proof. by inversion 1. Qed.

Lemma windows_neighbours start id rest :
  windows start id rest → ∀ i c c',
  rest !! i = Some c → rest !! S i = Some c' →
  ∃ s, c = word_chunk (id + Z.of_nat i) s
       ∧ c' = word_chunk (id + Z.of_nat i + 1) (next_end s - overlap self)
       ∧ s < next_end s - overlap self.
Proof.
  induction 1 as [start id Hge|start id Hlt Hle|start id rest Hlt Hgt Hrest IH];
    intros i c c' Hi Hi'.
  - done.
  - by destruct i.
  - destruct i as [|i].
    + injection Hi as <-. simpl in Hi'.
      destruct rest as [|d rest]; [done|]. injection Hi' as <-.
      exists start. rewrite Z.add_0_r.
      by rewrite (windows_head _ _ _ _ Hrest).
    + destruct (IH _ _ _ Hi Hi') as (s & -> & -> & Hs).
      exists s. split; [f_equal; lia|]. split; [f_equal; lia|done].
Qed.

(** A chain has at most one chunk per word from its start on. *)
Lemma windows_length start id rest :
  windows start id rest →
  Z.of_nat (length rest) ≤ Z.max 0 (len words - start).
Proof.
  induction 1 as [start id Hge|start id Hlt Hle|start id rest Hlt Hgt Hrest IH];
    simpl length; lia.
Qed.

(** With [0 <= overlap < chunk_size], a chain that starts inside the word
    list reaches every later word. *)
Lemma windows_cover start id rest :
  0 ≤ overlap self < chunk_size self →
  windows start id rest → ∀ k, start ≤ k < len words →
  ∃ c, c ∈ rest ∧ in_span c k.
Proof.
  intros Hov.
  induction 1 as [start id Hge|start id Hlt Hle|start id rest Hlt Hgt Hrest IH];
    intros k Hk.
  - lia.
  - exists (word_chunk id start). split; [by left|].
    unfold in_span. simpl. unfold Vocabulary.next_end in *. lia.
  - destruct (Z.lt_ge_cases k (next_end start)) as [Hin|Hout].
    + exists (word_chunk id start). split; [by left|].
      unfold in_span. simpl. lia.
    + destruct (IH k) as (c & Hc & Hks); [lia|].
      exists c. split; [by right|done].
Qed.

End Windows.

Lemma chunk_by_words_windows self text :
  ∃ chunks, chunk_by_words self text = Some chunks
            ∧ windows self (split text) 0 0 chunks.
Proof.
  unfold chunk_by_words, chunk_by_words_fuel.
  destruct (words_loop_total self (split text) (S (length (split text))) [] 0 0)
    as [chunks Hc]; [unfold len; lia|].
  exists chunks. split; [done|].
  by apply words_loop_windows in Hc as (rest & -> & Hrest).
Qed.

Lemma word_chunk_counts self words id s :
  Forall (fun w => is_word w = true) words →
  word_count (word_chunk self words id s)
  = count_words (text (word_chunk self words id s)).
Proof.
  intros Hw. unfold word_chunk, count_words. simpl.
  by rewrite split_join by by apply slice_Forall.
Qed.

End WordsFacts.

(** ** Word-based segmentation: theorems *)

Module WordsClaims.
Import Py Vocabulary PyFacts TextChunker WordsFacts.

(** C3. The loop of [chunk_by_words] ends for every text and every pair of
    parameters: one unit of fuel per word and one more is enough, more fuel
    gives the same list, and the list has at most one chunk per word. When
    the next start, [end - overlap], is not beyond the start of the chunk
    just appended, the loop returns with that chunk as the last one. *)
Theorem chunk_by_words_terminates (self : TextChunker) (text : string) :
  (∃ chunks, chunk_by_words self text = Some chunks
     ∧ (length chunks ≤ length (split text))%nat
     ∧ ∀ fuel, (length (split text) < fuel)%nat →
               chunk_by_words_fuel self fuel text = Some chunks)
  ∧ (∀ fuel chunks id start,
       start < len (split text) →
       next_end self (split text) start - overlap self ≤ start →
       words_loop self (split text) (S fuel) chunks id start
       = Some (chunks ++ [word_chunk self (split text) id start])).
Proof.
  split.
  - destruct (chunk_by_words_windows self text) as (chunks & Hc & Hw).
    exists chunks. split; [done|].
    split; [apply windows_length in Hw; unfold len in Hw; lia|].
    intros fuel Hfuel.
    unfold chunk_by_words_fuel.
    apply (words_loop_more_fuel _ _ (S (length (split text)))); [done|lia].
  - intros fuel chunks id start Hlt Hle.
    rewrite (words_loop_iter _ _ _ _ _ _ Hlt).
    by rewrite (proj2 (Z.leb_le _ _) Hle).
Qed.

Lemma len_slice_inside {A} (l : list A) s e :
  0 ≤ s → s ≤ e → e ≤ len l → len (slice l s e) = e - s.
Proof.
  intros H1 H2 H3. rewrite len_slice. unfold clamp_index.
  destruct (Z.ltb_spec e 0), (Z.ltb_spec s 0); lia.
Qed.

(** C1, as amended. With [chunk_size = 500] and [overlap = 50], a text of
    1200 words gives four chunks: they start at words 0, 450, 900 and 1150
    and hold 500, 500, 300 and 50 words. *)
Theorem chunk_by_words_1200 (text : string) :
  length (split text) = 1200%nat →
  ∃ chunks, chunk_by_words (mkTextChunker 500 50) text = Some chunks
    ∧ map span chunks
      = [WordSpan 0 500; WordSpan 450 950; WordSpan 900 1200; WordSpan 1150 1200]
    ∧ map word_count chunks = [500; 500; 300; 50].
Proof.
  intros Hlen.
  assert (Hn : len (split text) = 1200) by (unfold len; lia).
  unfold chunk_by_words, chunk_by_words_fuel. rewrite Hlen.
  set (self := mkTextChunker 500 50). set (words := split text) in *.
  assert (E0 : next_end self words 0 = 500) by (unfold next_end; simpl; lia).
  assert (E1 : next_end self words 450 = 950) by (unfold next_end; simpl; lia).
  assert (E2 : next_end self words 900 = 1200) by (unfold next_end; simpl; lia).
  assert (E3 : next_end self words 1150 = 1200) by (unfold next_end; simpl; lia).
  assert (Hov : overlap self = 50) by done.
  rewrite words_loop_iter, E0, Hov by lia.
  change (500 - 50) with 450. simpl (_ <=? _).
  rewrite words_loop_iter, E1, Hov by lia.
  change (950 - 50) with 900. simpl (_ <=? _).
  rewrite words_loop_iter, E2, Hov by lia.
  change (1200 - 50) with 1150. simpl (_ <=? _).
  rewrite words_loop_iter, E3, Hov by lia. simpl (_ <=? _).
  eexists. split; [done|]. simpl. unfold word_chunk. simpl.
  rewrite E0, E1, E2, E3.
  split; [done|].
  by rewrite !len_slice_inside by lia.
Qed.

Lemma chunk_by_words_1200_witness :
  ∃ chunks,
    chunk_by_words (mkTextChunker 500 50) (text_of_words 1200) = Some chunks
    ∧ map span chunks
      = [WordSpan 0 500; WordSpan 450 950; WordSpan 900 1200; WordSpan 1150 1200]
    ∧ map word_count chunks = [500; 500; 300; 50].
Proof. apply chunk_by_words_1200. vm_compute. reflexivity. Defined.

(** C1 as it is written fails: the text of 1200 words is not cut into three
    chunks of 500, 500 and 200 words. *)
Lemma chunk_by_words_1200_not_three :
  length (split (text_of_words 1200)) = 1200%nat
  ∧ (∃ chunks,
        chunk_by_words (mkTextChunker 500 50) (text_of_words 1200) = Some chunks
        ∧ map span chunks
          = [WordSpan 0 500; WordSpan 450 950; WordSpan 900 1200;
             WordSpan 1150 1200]
        ∧ map word_count chunks = [500; 500; 300; 50])
  ∧ ¬ ∃ chunks,
        chunk_by_words (mkTextChunker 500 50) (text_of_words 1200) = Some chunks
        ∧ map span chunks = [WordSpan 0 500; WordSpan 450 950; WordSpan 900 1200]
        ∧ map word_count chunks = [500; 500; 200].
Proof.
  split; [by vm_compute|].
  destruct (chunk_by_words (mkTextChunker 500 50) (text_of_words 1200))
    as [chunks|] eqn:E; vm_compute in E; [|done].
  injection E as <-. split.
  - eexists. split; [done|]. by vm_compute.
  - intros (chunks & [= <-] & Hspan & _). vm_compute in Hspan. done.
Qed.

(** C2, as amended. With [0 <= overlap < chunk_size], the spans of the
    chunks of [chunk_by_words] are exactly the word positions of the text; a
    chunk starts after the start and not after the end of the chunk before
    it, and the two share exactly [overlap] word positions; every chunk is
    the run of words of its span, and a chunk holds [chunk_size] words
    unless it reaches the end of the text. The chunks that reach the end of
    the text need not be the last one alone. *)
Theorem chunk_by_words_covers (self : TextChunker) (document : string) :
  0 ≤ overlap self < chunk_size self →
  ∃ chunks, chunk_by_words self document = Some chunks
    ∧ (∀ k, (∃ c, c ∈ chunks ∧ in_span c k) ↔ 0 ≤ k < len (split document))
    ∧ (∀ i c c', chunks !! i = Some c → chunks !! S i = Some c' →
         ∃ s e s' e',
           span c = WordSpan s e ∧ span c' = WordSpan s' e'
           ∧ s < s' ∧ s' ≤ e ∧ e ≤ e'
           ∧ shared_words c c' = overlap self)
    ∧ (∀ c, c ∈ chunks →
         ∃ s e,
           span c = WordSpan s e ∧ 0 ≤ s < e ∧ e ≤ len (split document)
           ∧ text c = join " " (slice (split document) s e)
           ∧ word_count c = e - s
           ∧ (word_count c = chunk_size self ∨ e = len (split document))).
Proof.
  intros Hov.
  destruct (chunk_by_words_windows self document) as (chunks & Hc & Hw).
  exists chunks. split; [done|].
  set (words := split document) in *.
  assert (Hshape : ∀ c, c ∈ chunks →
            ∃ id s, c = word_chunk self words id s ∧ 0 ≤ s < len words).
  { intros c (i & Hi)%list_elem_of_lookup.
    destruct (windows_lookup _ _ _ _ _ Hw _ _ Hi) as (s & -> & Hs). eauto. }
  split; [|split].
  - intros k. split.
    + intros (c & (id & s & -> & Hs)%Hshape & Hk).
      unfold in_span, word_chunk, next_end in Hk. simpl in Hk. lia.
    + intros Hk.
      apply (windows_cover _ _ _ _ _ Hov Hw k Hk).
  - intros i c c' Hi Hi'.
    destruct (windows_neighbours _ _ _ _ _ Hw _ _ _ Hi Hi') as (s & -> & -> & Hs).
    destruct (windows_lookup _ _ _ _ _ Hw _ _ Hi) as (s0 & Heq & Hs0).
    assert (s0 = s) as -> by (by injection Heq).
    eexists _, _, _, _. split; [done|]. split; [done|].
    unfold shared_words, word_chunk, next_end in *. simpl. lia.
  - intros c (id & s & -> & Hs)%Hshape.
    exists s, (next_end self words s).
    assert (Hend : s < next_end self words s ≤ len words)
      by (unfold next_end; lia).
    split; [done|]. split; [lia|]. split; [lia|]. split; [done|].
    assert (Hcount : word_count (word_chunk self words id s)
                     = next_end self words s - s)
      by (simpl; rewrite len_slice_inside; lia).
    split; [done|]. rewrite Hcount. unfold next_end. lia.
Qed.

Lemma chunk_by_words_covers_witness :
  ∃ chunks, chunk_by_words (mkTextChunker 3 1) "a b c d e f g" = Some chunks
    ∧ (∀ k, (∃ c, c ∈ chunks ∧ in_span c k)
            ↔ 0 ≤ k < len (split "a b c d e f g"))
    ∧ (∀ i c c', chunks !! i = Some c → chunks !! S i = Some c' →
         ∃ s e s' e',
           span c = WordSpan s e ∧ span c' = WordSpan s' e'
           ∧ s < s' ∧ s' ≤ e ∧ e ≤ e'
           ∧ shared_words c c' = 1)
    ∧ (∀ c, c ∈ chunks →
         ∃ s e,
           span c = WordSpan s e ∧ 0 ≤ s < e ∧ e ≤ len (split "a b c d e f g")
           ∧ text c = join " " (slice (split "a b c d e f g") s e)
           ∧ word_count c = e - s
           ∧ (word_count c = 3 ∨ e = len (split "a b c d e f g"))).
Proof. apply (chunk_by_words_covers (mkTextChunker 3 1)). simpl. lia. Defined.

(** C2 as it is written fails: it lets only the last chunk hold fewer than
    [chunk_size] words. With [chunk_size = 5] and [overlap = 1] the text of
    seven words is cut into the words 0..5, 4..7 and 6..7: the second chunk
    holds three words and is not the last. *)
Lemma chunk_by_words_short_before_last :
  0 ≤ overlap (mkTextChunker 5 1) < chunk_size (mkTextChunker 5 1)
  ∧ (∃ chunks,
        chunk_by_words (mkTextChunker 5 1) "a b c d e f g" = Some chunks
        ∧ map span chunks = [WordSpan 0 5; WordSpan 4 7; WordSpan 6 7]
        ∧ map word_count chunks = [5; 3; 1])
  ∧ ¬ ∃ chunks,
        chunk_by_words (mkTextChunker 5 1) "a b c d e f g" = Some chunks
        ∧ ∀ i c, chunks !! i = Some c → (S i < length chunks)%nat →
                 word_count c = chunk_size (mkTextChunker 5 1).
Proof.
  split; [simpl; lia|].
  destruct (chunk_by_words (mkTextChunker 5 1) "a b c d e f g")
    as [chunks|] eqn:E; vm_compute in E; [|done].
  injection E as <-. split.
  - eexists. split; [done|]. by vm_compute.
  - intros (chunks & [= <-] & Hall).
    specialize (Hall 1%nat _ eq_refl). cbn [length] in Hall.
    specialize (Hall ltac:(lia)). vm_compute in Hall. done.
Qed.

End WordsClaims.

(** ** The sentence-based loop and its groups *)

Module SentencesFacts.
Import Py Vocabulary PyFacts TextChunker.

Lemma overlap_sentences_trailing l : overlap_sentences l = trailing_two l.
Proof.
  unfold overlap_sentences, trailing_two.
  destruct (Z.geb_spec (len l) 2) as [Hge|Hlt].
  - unfold slice.
    assert (H1 : clamp_index (len l) (-2) = len l - 2).
    { unfold clamp_index. change (-2 <? 0) with true. cbv iota. lia. }
    assert (H2 : clamp_index (len l) (len l) = len l).
    { unfold clamp_index. destruct (Z.ltb_spec (len l) 0); lia. }
    rewrite H1, H2. unfold len in *.
    replace (Z.to_nat (Z.of_nat (length l) - 2)) with (length l - 2)%nat by lia.
    apply take_ge. rewrite length_drop. lia.
  - unfold len in *. replace (length l - 2)%nat with 0%nat by lia. done.
Qed.

Lemma sum_map_snoc l s :
  sum (map count_words (l ++ [s])) = sum (map count_words l) + count_words s.
Proof.
  rewrite map_app, sum_app. simpl. rewrite sum_cons. unfold sum. simpl. lia.
Qed.

(** The loop emits the numbered chunks of its groups. *)
Lemma sentences_loop_groups self sentences : ∀ chunks current_chunk id,
  sentences_loop self sentences chunks current_chunk
    (sum (map count_words current_chunk)) id
  = chunks ++ number_chunks id (groups_loop self sentences current_chunk).
Proof.
  induction sentences as [|sentence rest IH]; intros chunks current id; simpl.
  - destruct (nonempty current); [done|by rewrite app_nil_r].
  - destruct ((sum (map count_words current) + count_words sentence
               >? chunk_size self) && nonempty current).
    + rewrite <- sum_map_snoc, IH. simpl. by rewrite <- app_assoc.
    + by rewrite <- sum_map_snoc, IH.
Qed.

Lemma chunk_by_sentences_groups self document :
  chunk_by_sentences self document
  = number_chunks 0
      (groups_loop self (split_into_sentences document) []).
Proof.
  unfold chunk_by_sentences.
  apply (sentences_loop_groups self _ [] [] 0).
Qed.

Lemma nonempty_true {A} (l : list A) : l ≠ [] → nonempty l = true.
Proof. by destruct l. Qed.

Lemma take_trailing {A} (l : list A) : take (length l - 2) l ++ trailing_two l = l.
Proof. apply take_drop. Qed.

Lemma count_words_nonneg s : 0 ≤ count_words s.
Proof. unfold count_words, len. lia. Qed.

Lemma sum_map_member (l : list string) s :
  s ∈ l → count_words s ≤ sum (map count_words l).
Proof.
  induction 1 as [s l|s t l Hin IH]; simpl; rewrite sum_cons.
  - assert (0 ≤ sum (map count_words l)); [|lia].
    clear. induction l as [|t l IH]; [done|].
    simpl. rewrite sum_cons. pose proof (count_words_nonneg t). lia.
  - pose proof (count_words_nonneg t). lia.
Qed.

(** New sentences that fit hold a long sentence only by itself. *)
Lemma fits_alone self carried new :
  fits self carried new → alone_if_long self new.
Proof.
  intros [Hshort|Hsum] s Hs Hlong.
  - destruct new as [|t [|t' new]]; [by apply elem_of_nil in Hs| |simpl in *; lia].
    by apply list_elem_of_singleton in Hs as ->.
  - assert (s ∈ carried ++ new) as Hin%sum_map_member
      by (apply elem_of_app; by right).
    lia.
Qed.

Lemma seg_chain_fits self sentences before carried new gs :
  seg_chain self sentences before carried new gs → fits self carried new.
Proof. by destruct 1. Qed.

Lemma seg_chain_ends self sentences before carried new gs :
  seg_chain self sentences before carried new gs →
  ∃ after, sentences = before ++ (carried ++ new) ++ after.
Proof.
  destruct 1 as [before carried new Hdoc|before carried new new' after gs Hdoc].
  - exists []. by rewrite app_nil_r.
  - exists (new' ++ after). by rewrite <- app_assoc.
Qed.

(** The loop, entered with a current chunk that is not empty and whose new
    sentences fit, produces a chain. *)
Lemma groups_loop_chain self sentences rest : ∀ before carried new,
  sentences = before ++ carried ++ new ++ rest →
  carried ++ new ≠ [] →
  fits self carried new →
  ∃ more gs,
    groups_loop self rest (carried ++ new) = (carried ++ new ++ more) :: gs
    ∧ seg_chain self sentences before carried (new ++ more) gs.
Proof.
  induction rest as [|s rest IH]; intros before carried new Hdoc Hne Hfits;
    simpl.
  - exists [], []. rewrite (nonempty_true _ Hne), !app_nil_r.
    split; [done|]. apply seg_last; [|done]. by rewrite app_nil_r in Hdoc.
  - rewrite (nonempty_true _ Hne), andb_true_r.
    destruct (Z.gtb_spec (sum (map count_words (carried ++ new)) + count_words s)
                (chunk_size self)) as [Hover|Hunder].
    + rewrite overlap_sentences_trailing.
      destruct (IH (before ++ take (length (carried ++ new) - 2) (carried ++ new))
                   (trailing_two (carried ++ new)) [s])
        as (more & gs & Hg & Hchain).
      { rewrite Hdoc, <- !app_assoc. f_equal.
        rewrite (app_assoc (take _ _) (trailing_two _)), take_trailing.
        by rewrite <- !app_assoc. }
      { by destruct (trailing_two (carried ++ new)). }
      { left. simpl. lia. }
      exists [], ((trailing_two (carried ++ new) ++ [s] ++ more) :: gs).
      rewrite !app_nil_r, Hg. split; [done|].
      destruct (seg_chain_ends _ _ _ _ _ _ Hchain) as [after Hafter].
      apply (seg_next _ _ _ _ _ ([s] ++ more) after); [|done|done|done].
      rewrite Hafter, <- !app_assoc. f_equal.
      by rewrite (app_assoc (take _ _)), take_trailing, <- !app_assoc.
    + destruct (IH before carried (new ++ [s])) as (more & gs & Hg & Hchain).
      { by rewrite Hdoc, <- !app_assoc. }
      { by destruct carried, new. }
      { right. rewrite app_assoc, sum_map_snoc. lia. }
      exists (s :: more), gs.
      rewrite <- !app_assoc in Hg, Hchain. by rewrite <- app_assoc.
Qed.

Lemma seg_chain_segments self sentences before carried new gs :
  seg_chain self sentences before carried new gs → carried ++ new ≠ [] →
  ∀ x, x ∈ (carried ++ new) :: gs →
    x ≠ [] ∧ ∃ before' after, sentences = before' ++ x ++ after.
Proof.
  induction 1
    as [before carried new Hdoc|before carried new new' after gs Hdoc _ Hnew _ IH];
    intros Hg x Hx.
  - apply list_elem_of_singleton in Hx as ->. split; [done|].
    exists before, []. by rewrite app_nil_r.
  - apply elem_of_cons in Hx as [->|Hx].
    + split; [done|]. exists before, (new' ++ after). by rewrite <- app_assoc.
    + apply IH; [|done]. by destruct (trailing_two (carried ++ new)), new'.
Qed.

Lemma seg_chain_neighbours self sentences before carried new gs :
  seg_chain self sentences before carried new gs →
  ∀ i x y, ((carried ++ new) :: gs) !! i = Some x →
           ((carried ++ new) :: gs) !! S i = Some y →
    ∃ before' new' after,
      sentences = before' ++ x ++ new' ++ after
      ∧ new' ≠ [] ∧ y = trailing_two x ++ new' ∧ alone_if_long self new'.
Proof.
  induction 1
    as [before carried new Hdoc|before carried new new' after gs Hdoc _ Hnew Hchain IH];
    intros i x y Hi Hi'.
  - by destruct i.
  - destruct i as [|i].
    + injection Hi as <-. injection Hi' as <-.
      exists before, new', after. rewrite <- app_assoc.
      split; [done|]. split; [done|]. split; [done|].
      by apply (fits_alone _ (trailing_two (carried ++ new))),
               (seg_chain_fits _ _ _ _ _ _ Hchain).
    + by apply (IH i).
Qed.

Lemma seg_chain_all self sentences before carried new gs :
  seg_chain self sentences before carried new gs →
  ∀ s, s ∈ sentences →
    s ∈ before ∨ ∃ x, x ∈ (carried ++ new) :: gs ∧ s ∈ x.
Proof.
  induction 1
    as [before carried new Hdoc|before carried new new' after gs Hdoc _ Hnew _ IH];
    intros s Hs.
  - rewrite Hdoc in Hs. apply elem_of_app in Hs as [Hs|Hs]; [by left|].
    right. exists (carried ++ new). split; [by left|done].
  - destruct (IH s Hs) as [Hb|(x & Hx & Hsx)].
    + apply elem_of_app in Hb as [Hb|Hb]; [by left|].
      right. exists (carried ++ new). split; [by left|].
      apply elem_of_take in Hb as (i & Hi & _).
      apply list_elem_of_lookup. eauto.
    + right. exists x. split; [by right|done].
Qed.

(** The groups of a whole document. *)
Lemma groups_of_document self sentences :
  (sentences = [] ∧ groups_loop self sentences [] = [])
  ∨ (∃ g gs, groups_loop self sentences [] = g :: gs
             ∧ g ≠ [] ∧ seg_chain self sentences [] [] g gs).
Proof.
  destruct sentences as [|s rest]; [by left|]. right. simpl.
  destruct (groups_loop_chain self (s :: rest) rest [] [] [s])
    as (more & gs & Hg & Hchain); [done|done|left; simpl; lia|].
  rewrite andb_false_r. by exists ([s] ++ more), gs.
Qed.

Lemma number_chunks_lookup groups : ∀ id i c,
  number_chunks id groups !! i = Some c →
  ∃ g, groups !! i = Some g
       ∧ c = sentence_chunk (id + Z.of_nat i) g (sum (map count_words g)).
Proof.
  induction groups as [|g gs IH]; intros id i c Hi; [done|].
  destruct i as [|i]; simpl in Hi.
  - injection Hi as <-. exists g. by rewrite Z.add_0_r.
  - destruct (IH _ _ _ Hi) as (g' & Hg' & ->). exists g'.
    split; [done|]. f_equal. lia.
Qed.

Lemma number_chunks_texts groups : ∀ id,
  Forall2 (fun c g => text c = join " " g ∧ span c = SentenceCount (len g))
          (number_chunks id groups) groups.
Proof. induction groups as [|g gs IH]; intros id; simpl; by constructor. Qed.

Lemma number_chunks_well_indexed groups :
  well_indexed (number_chunks 0 groups).
Proof.
  intros i c Hi.
  destruct (number_chunks_lookup _ _ _ _ Hi) as (g & _ & ->). simpl.
  split; [done|]. unfold count_words. by rewrite len_split_join.
Qed.

End SentencesFacts.

(** ** Sentence-based segmentation and the chunk invariants: theorems *)

Module ChunkClaims.
Import Py Vocabulary PyFacts TextChunker WordsFacts SentencesFacts.

(** C4, as amended. The chunks of [chunk_by_sentences] are the joined groups of a list
    of sentence lists. Every group is a non-empty run of consecutive whole
    sentences of the sentence split of the text. A group that follows
    another one is the trailing two sentences of that one (all of it when it
    has fewer) followed by the next sentences of the text, at least one.
    Every sentence is in some group. A sentence with more than [chunk_size]
    words is the only new sentence of its group: the first group by itself
    when it is the first sentence, and else the only sentence after the ones
    carried over. *)
Theorem chunk_by_sentences_whole (self : TextChunker) (document : string) :
  ∃ groups : list (list string),
    Forall2 (fun c g => text c = join " " g ∧ span c = SentenceCount (len g))
            (chunk_by_sentences self document) groups
    ∧ (∀ g, g ∈ groups →
         g ≠ [] ∧ ∃ before after,
                    split_into_sentences document = before ++ g ++ after)
    ∧ (∀ i g g', groups !! i = Some g → groups !! S i = Some g' →
         ∃ before new after,
           split_into_sentences document = before ++ g ++ new ++ after
           ∧ new ≠ [] ∧ g' = trailing_two g ++ new
           ∧ alone_if_long self new)
    ∧ (∀ s, s ∈ split_into_sentences document → ∃ g, g ∈ groups ∧ s ∈ g)
    ∧ (∀ g gs, groups = g :: gs →
         (∃ after, split_into_sentences document = g ++ after)
         ∧ alone_if_long self g)
    ∧ (∀ s rest, split_into_sentences document = s :: rest →
         chunk_size self < count_words s → ∃ gs, groups = [s] :: gs).
Proof.
  exists (groups_loop self (split_into_sentences document) []).
  rewrite chunk_by_sentences_groups.
  split; [apply number_chunks_texts|].
  set (sentences := split_into_sentences document).
  destruct (groups_of_document self sentences)
    as [[Hs Hgs]|(g & gs & Hgs & Hg & Hchain)]; rewrite Hgs.
  - rewrite Hs. split; [by intros ? ?%elem_of_nil|].
    split; [done|]. split; [by intros ? ?%elem_of_nil|done].
  - assert (Hfirst : (∃ after, sentences = g ++ after) ∧ alone_if_long self g).
    { split; [by apply (seg_chain_ends _ _ _ _ _ _ Hchain)|].
      by apply (fits_alone _ []), (seg_chain_fits _ _ _ _ _ _ Hchain). }
    split; [by apply (seg_chain_segments _ _ _ _ _ _ Hchain)|].
    split; [by apply (seg_chain_neighbours _ _ _ _ _ _ Hchain)|].
    split; [|split].
    + intros s Hs.
      by destruct (seg_chain_all _ _ _ _ _ _ Hchain s Hs) as [?%elem_of_nil|?].
    + by intros g' gs' [= <- <-].
    + intros s rest Hdoc Hlong. exists gs. f_equal.
      destruct Hfirst as [[after Hafter] Halone].
      apply Halone; [|done].
      rewrite Hdoc in Hafter. destruct g as [|s' g]; [done|].
      injection Hafter as <- _. by left.
Qed.

(** C4 as it is written fails in its last part: with [chunk_size = 3] the
    five-word sentence of "A. B b b b b. C." is in no chunk of its own; the
    chunks that hold it begin with the sentence carried over. *)
Lemma long_sentence_not_alone :
  split_into_sentences "A. B b b b b. C." = ["A."; "B b b b b."; "C."]
  ∧ chunk_size (mkTextChunker 3 0) < count_words "B b b b b."
  ∧ map text (chunk_by_sentences (mkTextChunker 3 0) "A. B b b b b. C.")
    = ["A."; "A. B b b b b."; "A. B b b b b. C."]
  ∧ ¬ ∃ c, c ∈ chunk_by_sentences (mkTextChunker 3 0) "A. B b b b b. C."
           ∧ text c = "B b b b b.".
Proof.
  split; [done|]. split; [done|]. split; [done|].
  intros (c & Hc & Htext). vm_compute in Hc.
  repeat (apply elem_of_cons in Hc as [->|Hc]; [discriminate Htext|]).
  by apply elem_of_nil in Hc.
Qed.

(** C7. Under both strategies the chunks carry the identifiers 0, 1, 2, ...
    in list order, and the recorded word count of a chunk is the number of
    words of its text. The list order is the order of the document: a
    word-based chunk starts after the chunk before it, and a sentence-based
    chunk continues the chunk before it with the next sentences of the
    text. *)
Theorem chunks_well_indexed (self : TextChunker) (document : string) :
  (∃ chunks, chunk_by_words self document = Some chunks
     ∧ well_indexed chunks
     ∧ ∀ i c c', chunks !! i = Some c → chunks !! S i = Some c' →
         ∃ s e s' e',
           span c = WordSpan s e ∧ span c' = WordSpan s' e' ∧ s < s')
  ∧ well_indexed (chunk_by_sentences self document)
  ∧ ∃ groups : list (list string),
      Forall2 (fun c g => text c = join " " g)
              (chunk_by_sentences self document) groups
      ∧ ∀ i g g', groups !! i = Some g → groups !! S i = Some g' →
          ∃ before new after,
            split_into_sentences document = before ++ g ++ new ++ after
            ∧ new ≠ [] ∧ g' = trailing_two g ++ new.
Proof.
  split; [|split].
  - destruct (chunk_by_words_windows self document) as (chunks & Hc & Hw).
    exists chunks. split; [done|]. split.
    + intros i c Hi.
      destruct (windows_lookup _ _ _ _ _ Hw _ _ Hi) as (s & -> & _).
      split; [simpl; lia|]. apply word_chunk_counts, split_words.
    + intros i c c' Hi Hi'.
      destruct (windows_neighbours _ _ _ _ _ Hw _ _ _ Hi Hi')
        as (s & -> & -> & Hs).
      by eexists _, _, _, _.
  - rewrite chunk_by_sentences_groups. apply number_chunks_well_indexed.
  - exists (groups_loop self (split_into_sentences document) []).
    rewrite chunk_by_sentences_groups. split.
    + eapply Forall2_impl; [apply number_chunks_texts|]. by intros c g [? _].
    + destruct (groups_of_document self (split_into_sentences document))
        as [[Hs Hgs]|(g & gs & Hgs & Hg & Hchain)]; rewrite Hgs; [done|].
      intros i x y Hi Hi'.
      destruct (seg_chain_neighbours _ _ _ _ _ _ Hchain i x y Hi Hi')
        as (before & new & after & Hdoc & Hnew & Hy & _).
      by exists before, new, after.
Qed.

End ChunkClaims.

(** ** Text normalization: theorems *)

Module CleanerClaims.
Import Py Vocabulary TextCleaner.

Lemma alnum_not_space c : is_lower_alnum c = true → isspace c = false.
Proof. by destruct c as [[] [] [] [] [] [] [] []]. Qed.

Lemma remove_special_chars s :
  all_chars (fun c => is_lower_alnum c || isspace c) (remove_special s) = true.
Proof.
  induction s as [|c s IH]; [done|]. simpl.
  destruct (is_lower_alnum c || isspace c) eqn:E; [|done].
  simpl. by rewrite E.
Qed.

Lemma collapse_chars s : ∀ b,
  all_chars (fun c => is_lower_alnum c || isspace c) s = true →
  all_chars (fun c => is_lower_alnum c || is_space_char c) (collapse_from b s)
  = true.
Proof.
  induction s as [|c s IH]; intros b; [done|]. simpl.
  intros [Hc Hs]%andb_prop.
  destruct (isspace c) eqn:E.
  - destruct b; [by apply IH|]. simpl. by apply IH.
  - simpl. rewrite orb_false_r in Hc. rewrite Hc. by apply IH.
Qed.

Lemma collapse_single_spaced s : ∀ b,
  single_spaced b (collapse_from b s) = true.
Proof.
  induction s as [|c s IH]; intros b; [done|]. simpl.
  destruct (isspace c) eqn:E.
  - destruct b; [apply IH|]. simpl. apply IH.
  - simpl. rewrite E. apply IH.
Qed.

Lemma remove_special_first s :
  begins_alnum s = true → first_char (remove_special s) = first_char s.
Proof.
  destruct s as [|c s]; [done|]. unfold begins_alnum. simpl.
  by intros ->.
Qed.

Lemma collapse_first s :
  begins_alnum s = true → first_char (collapse_whitespace s) = first_char s.
Proof.
  destruct s as [|c s]; [done|]. unfold begins_alnum. simpl.
  intros Hc%alnum_not_space. unfold collapse_whitespace. simpl. by rewrite Hc.
Qed.

Lemma last_char_None s : last_char s = None → s = EmptyString.
Proof. destruct s as [|c s]; [done|]. simpl. by destruct (last_char s). Qed.

Lemma remove_special_last s c :
  last_char s = Some c → is_lower_alnum c = true →
  last_char (remove_special s) = Some c.
Proof.
  intros Hlast Hc. induction s as [|d s IH]; [done|]. simpl in *.
  destruct (last_char s) as [e|] eqn:E.
  - injection Hlast as ->. specialize (IH eq_refl).
    destruct (is_lower_alnum d || isspace d); [|done]. simpl. by rewrite IH.
  - injection Hlast as ->. rewrite Hc. simpl.
    by rewrite (last_char_None _ E).
Qed.

Lemma collapse_last s c : ∀ b,
  last_char s = Some c → isspace c = false →
  last_char (collapse_from b s) = Some c.
Proof.
  intros b Hlast Hc. revert b. induction s as [|d s IH]; intros b; [done|].
  simpl in *. destruct (last_char s) as [e|] eqn:E.
  - injection Hlast as ->.
    destruct (isspace d), b; simpl; by rewrite ?IH.
  - injection Hlast as ->. rewrite Hc. simpl.
    by rewrite (last_char_None _ E).
Qed.

(** C5, as amended. [clean_text] lowercases, strips the whitespace around
    the text, removes every character outside [a-z0-9] and whitespace, and
    replaces each run of whitespace by one space, in this order. The result
    holds only lowercase letters, digits and spaces, with no space next to
    another one; it has no leading whitespace when the lowercased, stripped
    text begins with a letter or digit, and no trailing whitespace when that
    text ends with one. *)
Theorem clean_text_normalizes (document : string) :
  clean_text document
  = collapse_whitespace (remove_special (strip (lower document)))
  ∧ all_chars (fun c => is_lower_alnum c || is_space_char c)
              (clean_text document) = true
  ∧ single_spaced false (clean_text document) = true
  ∧ (begins_alnum (strip (lower document)) = true →
       leading_space (clean_text document) = false)
  ∧ (ends_alnum (strip (lower document)) = true →
       trailing_space (clean_text document) = false).
Proof.
  split; [done|]. unfold clean_text.
  split; [apply collapse_chars, remove_special_chars|].
  split; [apply collapse_single_spaced|].
  set (s := strip (lower document)). split.
  - intros Hb. unfold leading_space.
    assert (Hr : begins_alnum (remove_special s) = true).
    { unfold begins_alnum. by rewrite remove_special_first. }
    rewrite (collapse_first _ Hr), (remove_special_first _ Hb).
    unfold begins_alnum in Hb. destruct (first_char s); [|done].
    by apply alnum_not_space.
  - unfold ends_alnum, trailing_space, collapse_whitespace. intros He.
    destruct (last_char s) as [c|] eqn:E; [|done].
    pose proof (alnum_not_space _ He) as Hns.
    by rewrite (collapse_last _ c false (remove_special_last _ _ E He) Hns).
Qed.

Lemma clean_text_normalizes_witness :
  leading_space (clean_text "  Hello, World 42 ") = false
  ∧ trailing_space (clean_text "  Hello, World 42 ") = false.
Proof.
  split; apply (clean_text_normalizes "  Hello, World 42 "); reflexivity.
Defined.

(** C5 as it is written fails: a removed character can leave the whitespace
    next to it at either end of the result. *)
Lemma clean_text_keeps_outer_space :
  clean_text "! a" = " a"
  ∧ leading_space (clean_text "! a") = true
  ∧ clean_text "a !" = "a "
  ∧ trailing_space (clean_text "a !") = true
  ∧ ¬ (∀ document, strip (clean_text document) = clean_text document).
Proof.
  repeat split; try reflexivity.
  intros H. specialize (H "! a"). discriminate H.
Qed.

End CleanerClaims.

(** ** FAQ lookup: theorems *)

Module FAQClaims.
Import Py Vocabulary TextCleaner FAQFinder.

(** C6. With the single entry "How do I register?", the question
    "How can I sign up?" and the threshold 0.15, [find_answer] returns the
    entry's answer and its question as the match, in binary64 arithmetic.
    "sign" brings "register" into the tokens of the question asked; five of
    the six tokens are shared, and the score 5/6 is not below 0.15. *)
Theorem find_answer_sign_up :
  find_answer register_finder "How can I sign up?" double_0_15
  = Ok {| ans_answer := "Click the register button.";
          confidence := PrimFloat.div (double_of_int 5) (double_of_int 6);
          matched_question := Some "How do I register?" |}
  ∧ "register" ∈ token_set (clean_text "How can I sign up?")
  ∧ "register" ∈ token_set (clean_text "How do I register?")
  ∧ size (token_set (clean_text "How can I sign up?")
          ∩ token_set (clean_text "How do I register?")) = 5%nat
  ∧ size (token_set (clean_text "How can I sign up?")
          ∪ token_set (clean_text "How do I register?")) = 6%nat
  ∧ PrimFloat.ltb (PrimFloat.div (double_of_int 5) (double_of_int 6))
                  double_0_15 = false.
Proof.
  split; [by vm_compute|].
  split; [by apply (bool_decide_unpack _); vm_compute|].
  split; [by apply (bool_decide_unpack _); vm_compute|].
  split; [by vm_compute|]. split; by vm_compute.
Qed.

(** The two facts about floats that the next proofs use. *)
Section ZeroScores.
Context {F : Type} `{PyFloat F}.
Hypothesis zero_quotient :
  ∀ x : F, fltb (of_int 0) (fdiv (of_int 0) x) = false.
Hypothesis zero_not_below_zero : fltb (of_int 0) (of_int 0 : F) = false.

Lemma score_disjoint (user_words faq_words : gset string) :
  user_words ## faq_words →
  fltb (of_int 0) (score (F := F) user_words faq_words) = false.
Proof.
  intros Hd%disjoint_intersection_L.
  unfold score. rewrite Hd, size_empty.
  destruct (decide _); [done|]. apply zero_quotient.
Qed.

Lemma scan_disjoint user_words (entries : list FAQ) :
  (∀ faq, faq ∈ entries → user_words ## token_set (question_clean faq)) →
  scan (F := F) user_words entries = (None, of_int 0).
Proof.
  unfold scan. generalize (@None FAQ).
  induction entries as [|faq entries IH]; intros best Hd; [done|].
  cbn [fold_left]. rewrite score_disjoint by (apply Hd; by left).
  apply IH. intros faq' Hin. apply Hd. by right.
Qed.

Lemma find_answer_disjoint (self : FAQFinder) (user_question : string) :
  faqs self ≠ [] →
  (∀ faq, faq ∈ faqs self →
     token_set (clean_text user_question) ## token_set (question_clean faq)) →
  find_answer (F := F) self user_question (of_int 0)
  = Raise NoneNotSubscriptable.
Proof.
  intros Hne Hd. unfold find_answer.
  destruct (faqs self) as [|faq entries] eqn:E; [done|].
  by rewrite (scan_disjoint _ _ Hd), zero_not_below_zero.
Qed.

End ZeroScores.

(** In binary64 the quotient of zero by any number is a zero or not a
    number, and neither is above zero. *)
Lemma double_zero_quotient (x : PrimFloat.float) :
  PrimFloat.ltb (double_of_int 0) (PrimFloat.div (double_of_int 0) x) = false.
Proof.
  rewrite FloatAxioms.ltb_spec, FloatAxioms.div_spec.
  change (FloatOps.Prim2SF (double_of_int 0)) with (SpecFloat.S754_zero false).
  by destruct (FloatOps.Prim2SF x) as [[]|[]| |[] m e].
Qed.

Lemma real_zero_quotient (x : R) : fltb (of_int 0) (fdiv (of_int 0) x) = false.
Proof.
  simpl. destruct (Rlt_dec _ _) as [Hlt|_]; [|done].
  unfold Rdiv in Hlt. rewrite Rmult_0_l in Hlt. lra.
Qed.

Lemma real_zero_not_below_zero : fltb (of_int 0) (of_int 0 : R) = false.
Proof. simpl. destruct (Rlt_dec 0 0); [lra|done]. Qed.

(** C10. With at least one entry and threshold 0.0, a question whose token
    set shares nothing with the token set of any entry makes [find_answer]
    raise: no entry scores above 0.0, the best match stays [None], 0.0 is
    not below the threshold, and [None] is subscripted. This holds in
    binary64 arithmetic and in exact arithmetic. *)
Theorem find_answer_zero_threshold (self : FAQFinder) (user_question : string) :
  faqs self ≠ [] →
  (∀ faq, faq ∈ faqs self →
     token_set (clean_text user_question) ## token_set (question_clean faq)) →
  find_answer (F := PrimFloat.float) self user_question (of_int 0)
  = Raise NoneNotSubscriptable
  ∧ find_answer (F := R) self user_question (of_int 0)
    = Raise NoneNotSubscriptable.
Proof.
  intros Hne Hd. split.
  - by apply (@find_answer_disjoint _ binary64 double_zero_quotient eq_refl).
  - by apply (@find_answer_disjoint _ exact real_zero_quotient
                real_zero_not_below_zero).
Qed.

Lemma find_answer_zero_threshold_witness :
  find_answer (F := PrimFloat.float) register_finder "pizza" (of_int 0)
  = Raise NoneNotSubscriptable
  ∧ find_answer (F := R) register_finder "pizza" (of_int 0)
    = Raise NoneNotSubscriptable.
Proof.
  apply find_answer_zero_threshold; [done|].
  intros faq ->%list_elem_of_singleton.
  apply (bool_decide_unpack _). by vm_compute.
Defined.

End FAQClaims.

(** ** Binary64 arithmetic: rounding cannot reach zero from 2^-1074 up *)

Module DoubleFacts.
Import Vocabulary SpecFloat.
Import (notations) Stdlib.Floats.PrimFloat.

Lemma digits2_pos_bounds m :
  2 ^ (Zpos (digits2_pos m) - 1) ≤ Zpos m < 2 ^ Zpos (digits2_pos m).
Proof.
  induction m as [m IH|m IH|]; simpl digits2_pos.
  - rewrite Pos2Z.inj_succ.
    replace (Z.succ (Zpos (digits2_pos m)) - 1) with (Z.succ (Zpos (digits2_pos m) - 1)) by lia.
    rewrite !Z.pow_succ_r by lia. lia.
  - rewrite Pos2Z.inj_succ.
    replace (Z.succ (Zpos (digits2_pos m)) - 1) with (Z.succ (Zpos (digits2_pos m) - 1)) by lia.
    rewrite !Z.pow_succ_r by lia. lia.
  - simpl. lia.
Qed.

Lemma shr_1_m mrs : 0 ≤ shr_m mrs → shr_m (shr_1 mrs) = Z.shiftr (shr_m mrs) 1.
Proof.
  destruct mrs as [[|[p|p|]|p] r s]; simpl; try done; lia.
Qed.

Lemma shr_iter_m p : ∀ mrs, 0 ≤ shr_m mrs →
  shr_m (iter_pos shr_1 p mrs) = Z.shiftr (shr_m mrs) (Zpos p).
Proof.
  induction p as [p IH|p IH|]; intros mrs Hm; simpl iter_pos.
  - assert (H1 : 0 ≤ shr_m (shr_1 mrs)).
    { rewrite shr_1_m by done. by apply Z.shiftr_nonneg. }
    assert (H2 : 0 ≤ shr_m (iter_pos shr_1 p (shr_1 mrs))).
    { rewrite IH by done. by apply Z.shiftr_nonneg. }
    rewrite IH, IH, shr_1_m, !Z.shiftr_shiftr by lia.
    f_equal. lia.
  - assert (H2 : 0 ≤ shr_m (iter_pos shr_1 p mrs)).
    { rewrite IH by done. by apply Z.shiftr_nonneg. }
    rewrite IH, IH, !Z.shiftr_shiftr by lia. f_equal. lia.
  - by apply shr_1_m.
Qed.

Local Abbreviation prec := FloatOps.prec.
Local Abbreviation emax := FloatOps.emax.

Lemma fexp_64 k : fexp prec emax k = Z.max (k - 53) (-1074).
Proof. reflexivity. Qed.

Lemma shr_record_of_loc_m m l : shr_m (shr_record_of_loc m l) = m.
Proof. by destruct l as [|[]]. Qed.

(** A shift to the binary64 exponent keeps a positive mantissa positive when
    the number is not below the least positive double. *)
Lemma shr_fexp_positive p e l :
  -1073 ≤ Zpos (digits2_pos p) + e →
  1 ≤ shr_m (fst (shr_fexp prec emax (Zpos p) e l))
  ∧ -1074 ≤ snd (shr_fexp prec emax (Zpos p) e l).
Proof.
  intros Hd. unfold shr_fexp, shr. rewrite fexp_64. simpl Zdigits2.
  pose proof (digits2_pos_bounds p) as [Hlo _].
  set (d := Zpos (digits2_pos p)) in *.
  destruct (Z.max (d + e - 53) (-1074) - e) as [|q|q] eqn:En; simpl fst; simpl snd.
  - rewrite shr_record_of_loc_m. lia.
  - rewrite shr_iter_m, shr_record_of_loc_m by (rewrite shr_record_of_loc_m; lia).
    split; [|lia].
    rewrite Z.shiftr_div_pow2 by lia.
    apply Z.div_le_lower_bound; [lia|].
    rewrite Z.mul_1_r.
    transitivity (2 ^ (d - 1)); [|done].
    apply Z.pow_le_mono_r; lia.
  - rewrite shr_record_of_loc_m. lia.
Qed.

Lemma shr_fexp_exponent m e l : e ≤ snd (shr_fexp prec emax m e l).
Proof.
  unfold shr_fexp, shr. destruct (_ - e) as [|q|q]; simpl; lia.
Qed.

Lemma round_nearest_even_positive m l : 1 ≤ m → 1 ≤ round_nearest_even m l.
Proof.
  intros Hm. destruct l as [|[]]; simpl; try lia.
  destruct (Z.even m); lia.
Qed.

(** Rounding to binary64 does not give zero for such a number. *)
Lemma round_nonzero s p e l :
  -1073 ≤ Zpos (digits2_pos p) + e →
  nonzero (binary_round_aux prec emax s (Zpos p) e l) = true.
Proof.
  intros Hd. unfold binary_round_aux.
  destruct (shr_fexp_positive p e l Hd) as [Hm He].
  destruct (shr_fexp prec emax (Zpos p) e l) as [mrs' e']. simpl in Hm, He.
  pose proof (round_nearest_even_positive (shr_m mrs') (loc_of_shr_record mrs') Hm)
    as Hr.
  destruct (round_nearest_even (shr_m mrs') (loc_of_shr_record mrs'))
    as [|p'|p'] eqn:Er; [lia| |lia].
  destruct (shr_fexp_positive p' e' loc_Exact) as [Hm' _]; [lia|].
  destruct (shr_fexp prec emax (Zpos p') e' loc_Exact) as [mrs'' e'']. simpl in Hm'.
  destruct (shr_m mrs'') as [|p''|p'']; [lia| |lia].
  by destruct (_ <=? _).
Qed.

(** Rounding to binary64 does not lower the exponent. *)
Lemma round_exponent s m e l s' m' e' :
  binary_round_aux prec emax s m e l = S754_finite s' m' e' → e ≤ e'.
Proof.
  unfold binary_round_aux.
  pose proof (shr_fexp_exponent m e l) as H1.
  destruct (shr_fexp prec emax m e l) as [mrs1 e1]. simpl in H1.
  pose proof (shr_fexp_exponent
                (round_nearest_even (shr_m mrs1) (loc_of_shr_record mrs1))
                e1 loc_Exact) as H2.
  destruct (shr_fexp prec emax _ e1 loc_Exact) as [mrs2 e2]. simpl in H2.
  destruct (shr_m mrs2); [done| |done].
  destruct (_ <=? _); [|done]. intros [= _ _ <-]. lia.
Qed.

Lemma bounded_exponent m e : bounded prec emax m e = true → -1074 ≤ e.
Proof.
  unfold bounded, canonical_mantissa. rewrite fexp_64.
  intros [He%Z.eqb_eq _]%andb_prop. lia.
Qed.

(** A valid double with exponent above the least one has a full mantissa. *)
Lemma bounded_normal m e :
  bounded prec emax m e = true → -1074 < e → Zpos (digits2_pos m) = 53.
Proof.
  unfold bounded, canonical_mantissa. rewrite fexp_64.
  intros [He%Z.eqb_eq _]%andb_prop. lia.
Qed.

(** The exponent of a square root is at least -589. *)
Lemma sqrt_exponent m e s' m' e' :
  bounded prec emax m e = true →
  SFsqrt prec emax (S754_finite false m e) = S754_finite s' m' e' →
  -589 ≤ e'.
Proof.
  intros He%bounded_exponent. unfold SFsqrt, SFsqrt_core_binary.
  rewrite fexp_64. simpl Zdigits2.
  set (d := Zpos (digits2_pos m)).
  assert (Hd : 1 ≤ d) by (unfold d; lia).
  set (e0 := Z.min _ _).
  assert (He0 : -589 ≤ e0).
  { unfold e0. rewrite !Z.div2_div.
    assert (-537 ≤ e `div` 2) by (apply Z.div_le_lower_bound; lia).
    assert (-536 ≤ (d + e + 1) `div` 2) by (apply Z.div_le_lower_bound; lia).
    lia. }
  clearbody e0.
  destruct (Z.sqrtrem _) as [q r].
  intros Hr%round_exponent. lia.
Qed.

Lemma mul_full_nonzero s1 m1 e1 s2 m2 e2 :
  Zpos (digits2_pos m1) = 53 → Zpos (digits2_pos m2) = 53 →
  -589 ≤ e1 → -589 ≤ e2 →
  nonzero (SFmul prec emax (S754_finite s1 m1 e1) (S754_finite s2 m2 e2)) = true.
Proof.
  intros Hd1 Hd2 He1 He2. unfold SFmul. apply round_nonzero.
  pose proof (digits2_pos_bounds m1) as [H1 _].
  pose proof (digits2_pos_bounds m2) as [H2 _].
  pose proof (digits2_pos_bounds (m1 * m2)) as [_ H3].
  rewrite Hd1 in H1. rewrite Hd2 in H2.
  assert (H4 : 2 ^ 104 ≤ Zpos (m1 * m2)).
  { rewrite Pos2Z.inj_mul. change (2 ^ 104) with (2 ^ 52 * 2 ^ 52).
    change (53 - 1) with 52 in *. apply Z.mul_le_mono_nonneg; lia. }
  assert (H5 : 104 < Zpos (digits2_pos (m1 * m2))).
  { apply (Z.pow_lt_mono_r_iff 2); lia. }
  lia.
Qed.

Lemma mul_sturdy a b :
  sturdy a = true → sturdy b = true →
  nonzero (FloatAxioms.SF64mul a b) = true.
Proof.
  destruct a as [sa|sa| |sa ma ea], b as [sb|sb| |sb mb eb]; try done.
  unfold sturdy.
  intros [Ha1%Z.eqb_eq Ha2%Z.leb_le]%andb_prop [Hb1%Z.eqb_eq Hb2%Z.leb_le]%andb_prop.
  by apply mul_full_nonzero.
Qed.

Lemma sqrt_sturdy (x : PrimFloat.float) :
  nonzero (FloatOps.Prim2SF (PrimFloat.sqrt x)) = true →
  sturdy (FloatOps.Prim2SF (PrimFloat.sqrt x)) = true.
Proof.
  pose proof (FloatAxioms.Prim2SF_valid (PrimFloat.sqrt x)) as Hv.
  pose proof (FloatAxioms.Prim2SF_valid x) as Hx.
  rewrite FloatAxioms.sqrt_spec in *. unfold FloatAxioms.SF64sqrt in *.
  destruct (FloatOps.Prim2SF x) as [sx|[]| |[] m e]; try done.
  destruct (SFsqrt prec emax (S754_finite false m e)) as [s'|s'| |s' m' e'] eqn:Er;
    try done.
  intros _. apply (sqrt_exponent _ _ _ _ _ Hx) in Er.
  unfold sturdy. cbn [valid_binary] in Hv.
  rewrite (bounded_normal _ _ Hv), Z.eqb_refl by lia.
  by apply Z.leb_le in Er as ->.
Qed.

Lemma eqb_zero (a : PrimFloat.float) :
  PrimFloat.eqb a 0%float = negb (nonzero (FloatOps.Prim2SF a)).
Proof.
  rewrite FloatAxioms.eqb_spec.
  change (FloatOps.Prim2SF 0%float) with (S754_zero false).
  by destruct (FloatOps.Prim2SF a) as [[]|[]| |[] m e].
Qed.

(** In binary64 the product of two square roots that are not zero is not
    zero: it cannot underflow. *)
Lemma sqrt_product_nonzero (x y : PrimFloat.float) :
  PrimFloat.eqb (PrimFloat.sqrt x) 0%float = false →
  PrimFloat.eqb (PrimFloat.sqrt y) 0%float = false →
  PrimFloat.eqb (PrimFloat.mul (PrimFloat.sqrt x) (PrimFloat.sqrt y)) 0%float = false.
Proof.
  rewrite !eqb_zero, FloatAxioms.mul_spec.
  intros Hx%negb_false_iff%sqrt_sturdy Hy%negb_false_iff%sqrt_sturdy.
  by rewrite mul_sturdy.
Qed.

End DoubleFacts.

(** ** Cosine similarity: theorems *)

Module SimilarityClaims.
Import Py Vocabulary SemanticSimilarity DoubleFacts.
Import (notations) Stdlib.Floats.PrimFloat.

(** In every arithmetic the length error is raised exactly for vectors of
    different lengths. *)
Lemma cosine_similarity_mismatch {F : Type} `{PyFloat F} (vec1 vec2 : list F) :
  (∃ n1 n2, cosine_similarity vec1 vec2 = Raise (DimensionMismatch n1 n2))
  ↔ length vec1 ≠ length vec2.
Proof.
  unfold cosine_similarity, len. split.
  - intros (n1 & n2 & Hr) Hlen. rewrite Hlen, Z.eqb_refl in Hr.
    cbn [negb] in Hr. unfold math_sqrt, truediv, bind in Hr.
    repeat (destruct (fltb _ _) in Hr; [done|]).
    destruct (_ || _) in Hr; [done|]. by destruct (feqb _ _) in Hr.
  - intros Hne. exists (Z.of_nat (length vec1)), (Z.of_nat (length vec2)).
    destruct (Z.eqb_spec (Z.of_nat (length vec1)) (Z.of_nat (length vec2)));
      [lia|done].
Qed.

(** The error carries the two lengths. *)
Lemma cosine_similarity_lengths {F : Type} `{PyFloat F} (vec1 vec2 : list F) :
  length vec1 ≠ length vec2 →
  cosine_similarity vec1 vec2 = Raise (DimensionMismatch (len vec1) (len vec2)).
Proof.
  intros Hne. unfold cosine_similarity, len.
  destruct (Z.eqb_spec (Z.of_nat (length vec1)) (Z.of_nat (length vec2)));
    [lia|done].
Qed.

(** The function on vectors of one length, in an arithmetic where the root
    of a sum of squares is defined and a product of non-zero roots is not
    zero. *)
Section NoFault.
Context {F : Type} `{PyFloat F}.
Hypothesis sqrt_of_squares : ∀ vec : list F,
  math_sqrt (sum_of_squares vec) = Ok (fsqrt (sum_of_squares vec)).
Hypothesis product_of_roots : ∀ x y : F,
  feqb (fsqrt x) (of_int 0) = false → feqb (fsqrt y) (of_int 0) = false →
  feqb (fmul (fsqrt x) (fsqrt y)) (of_int 0) = false.

Lemma cosine_similarity_same_length (vec1 vec2 : list F) :
  length vec1 = length vec2 →
  cosine_similarity vec1 vec2
  = if feqb (fsqrt (sum_of_squares vec1)) (of_int 0)
       || feqb (fsqrt (sum_of_squares vec2)) (of_int 0)
    then Ok (of_int 0)
    else Ok (fdiv (dot_product vec1 vec2)
                  (fmul (fsqrt (sum_of_squares vec1))
                        (fsqrt (sum_of_squares vec2)))).
Proof.
  intros Hlen. unfold cosine_similarity, len. rewrite Hlen, Z.eqb_refl.
  cbn [negb]. rewrite !sqrt_of_squares. cbn [bind].
  destruct (feqb (fsqrt (sum_of_squares vec1)) (of_int 0)) eqn:E1; [done|].
  destruct (feqb (fsqrt (sum_of_squares vec2)) (of_int 0)) eqn:E2; [done|].
  cbn [orb]. unfold truediv. by rewrite product_of_roots.
Qed.

End NoFault.

(** *** Binary64 arithmetic *)

Lemma round_not_negative mx ex lx :
  not_negative
    (SpecFloat.binary_round_aux FloatOps.prec FloatOps.emax false mx ex lx)
  = true.
Proof.
  unfold SpecFloat.binary_round_aux.
  destruct (SpecFloat.shr_fexp _ _ _ _ _) as [mrs' e'].
  destruct (SpecFloat.shr_fexp _ _ _ _ _) as [mrs'' e''].
  destruct (SpecFloat.shr_m mrs''); [done| |done].
  by destruct (_ <=? _).
Qed.

Lemma square_not_negative x :
  not_negative (FloatAxioms.SF64mul x x) = true.
Proof.
  destruct x as [[]|[]| |[] m e]; try done; apply round_not_negative.
Qed.

Lemma add_not_negative x y :
  not_negative x = true → not_negative y = true →
  not_negative (FloatAxioms.SF64add x y) = true.
Proof.
  destruct x as [[]|[]| |[] mx ex], y as [[]|[]| |[] my ey]; try done.
  intros _ _. unfold FloatAxioms.SF64add, SpecFloat.SFadd.
  cbn [SpecFloat.cond_Zopp].
  set (a := fst (SpecFloat.shl_align mx ex _)).
  set (b := fst (SpecFloat.shl_align my ey _)).
  change (Z.pos a + Z.pos b) with (Z.pos (a + b)). clearbody a b.
  cbn [SpecFloat.binary_normalize]. unfold SpecFloat.binary_round.
  destruct (SpecFloat.shl_align _ _ _) as [mz ez].
  apply round_not_negative.
Qed.

Lemma fold_squares_not_negative (vec : list PrimFloat.float) : ∀ acc,
  not_negative (FloatOps.Prim2SF acc) = true →
  not_negative
    (FloatOps.Prim2SF
       (fold_left PrimFloat.add (map (fun a => PrimFloat.mul a a) vec) acc))
  = true.
Proof.
  induction vec as [|a vec IH]; intros acc Hacc; [done|].
  cbn [map fold_left]. apply IH.
  rewrite FloatAxioms.add_spec, FloatAxioms.mul_spec.
  apply add_not_negative; [done|apply square_not_negative].
Qed.

(** In binary64 the square root of a sum of squares is never refused. *)
Lemma math_sqrt_squares_double (vec : list PrimFloat.float) :
  math_sqrt (sum_of_squares vec) = Ok (double_magnitude vec).
Proof.
  unfold math_sqrt.
  assert (Hsign : not_negative (FloatOps.Prim2SF (sum_of_squares vec)) = true)
    by by apply fold_squares_not_negative.
  cbn [fltb binary64 of_int]. rewrite FloatAxioms.ltb_spec.
  change (FloatOps.Prim2SF (double_of_int 0)) with (SpecFloat.S754_zero false).
  by destruct (FloatOps.Prim2SF (sum_of_squares vec)) as [[]|[]| |[] m e].
Qed.

Lemma cosine_similarity_double (vec1 vec2 : list PrimFloat.float) :
  length vec1 = length vec2 →
  cosine_similarity vec1 vec2
  = if PrimFloat.eqb (double_magnitude vec1) 0
       || PrimFloat.eqb (double_magnitude vec2) 0
    then Ok 0%float
    else Ok (PrimFloat.div (dot_product vec1 vec2)
               (PrimFloat.mul (double_magnitude vec1) (double_magnitude vec2))).
Proof.
  apply (@cosine_similarity_same_length _ binary64 math_sqrt_squares_double).
  intros x y. apply sqrt_product_nonzero.
Qed.

(** *** Exact arithmetic *)

Lemma fsum_real (l : list R) : fsum l = fold_left Rplus l 0%R.
Proof. reflexivity. Qed.

Lemma fold_Rplus_from l a : fold_left Rplus l a = (a + fold_left Rplus l 0)%R.
Proof.
  revert a. induction l as [|x l IH]; intros a; simpl; [lra|].
  rewrite (IH (a + x)%R), (IH (0 + x)%R). lra.
Qed.

Lemma sum_of_squares_nonneg (vec : list R) : (0 <= sum_of_squares vec)%R.
Proof.
  unfold sum_of_squares. rewrite fsum_real.
  induction vec as [|a vec IH]; simpl; [lra|].
  rewrite fold_Rplus_from.
  pose proof (Rle_0_sqr a) as Ha. unfold Rsqr in Ha. simpl in IH. lra.
Qed.

Lemma math_sqrt_squares (vec : list R) :
  math_sqrt (sum_of_squares vec) = Ok (magnitude vec).
Proof.
  unfold math_sqrt. simpl. destruct (Rlt_dec _ _) as [Hneg|_]; [|done].
  pose proof (sum_of_squares_nonneg vec). lra.
Qed.

Lemma is_zero_true (x : R) : feqb x (of_int 0) = true ↔ x = 0%R.
Proof. simpl. by destruct (Req_dec_T x 0). Qed.

Lemma is_zero_false (x : R) : feqb x (of_int 0) = false ↔ x ≠ 0%R.
Proof. simpl. by destruct (Req_dec_T x 0). Qed.

Lemma cosine_similarity_real (vec1 vec2 : list R) :
  length vec1 = length vec2 →
  cosine_similarity vec1 vec2
  = if feqb (magnitude vec1) (of_int 0) || feqb (magnitude vec2) (of_int 0)
    then Ok 0%R
    else Ok (dot_product vec1 vec2 / (magnitude vec1 * magnitude vec2))%R.
Proof.
  apply (@cosine_similarity_same_length _ exact math_sqrt_squares).
  intros x y Hx%is_zero_false Hy%is_zero_false. apply is_zero_false.
  intros [?|?]%Rmult_integral; done.
Qed.

(** *** The computed sums and the dot product of the specification *)

Lemma fold_products_double (vec1 vec2 : list PrimFloat.float) : ∀ total,
  fold_left PrimFloat.add
    (map (fun '(a, b) => PrimFloat.mul a b) (zip vec1 vec2)) total
  = double_products total vec1 vec2.
Proof.
  revert vec2. induction vec1 as [|a vec1 IH]; intros [|b vec2] total;
    try reflexivity.
  cbn [zip zip_with map fold_left double_products]. apply IH.
Qed.

Lemma fold_squares_double (vec : list PrimFloat.float) : ∀ total,
  fold_left PrimFloat.add (map (fun a => PrimFloat.mul a a) vec) total
  = double_products total vec vec.
Proof.
  induction vec as [|a vec IH]; intros total; [reflexivity|].
  cbn [map fold_left double_products]. apply IH.
Qed.

Lemma dot_product_double (vec1 vec2 : list PrimFloat.float) :
  dot_product vec1 vec2 = double_inner_product vec1 vec2.
Proof. apply fold_products_double. Qed.

Lemma double_magnitude_norm (vec : list PrimFloat.float) :
  double_magnitude vec = double_euclidean_norm vec.
Proof.
  unfold double_magnitude, double_euclidean_norm. f_equal.
  apply fold_squares_double.
Qed.

Lemma dot_product_real (vec1 vec2 : list R) :
  dot_product vec1 vec2 = inner_product vec1 vec2.
Proof.
  unfold dot_product. rewrite fsum_real.
  revert vec2. induction vec1 as [|a vec1 IH]; intros [|b vec2];
    try reflexivity.
  cbn [zip zip_with map fold_left inner_product].
  rewrite fold_Rplus_from, (IH vec2). cbn [fmul exact]. lra.
Qed.

Lemma sum_of_squares_real (vec : list R) :
  sum_of_squares vec = inner_product vec vec.
Proof.
  unfold sum_of_squares. rewrite fsum_real.
  induction vec as [|a vec IH]; [reflexivity|].
  cbn [map fold_left inner_product].
  rewrite fold_Rplus_from, IH. cbn [fmul exact]. lra.
Qed.

Lemma magnitude_norm (vec : list R) : magnitude vec = euclidean_norm vec.
Proof. unfold magnitude, euclidean_norm. by rewrite sum_of_squares_real. Qed.

(** C8. [cosine_similarity] raises the length error, which carries the two
    lengths, exactly when the two vectors differ in length. For vectors of
    one length it raises nothing and returns a value: 0.0 when one of the
    magnitudes is equal to zero, and otherwise the dot product divided by
    the product of the magnitudes. The dot product is the sum of the
    products of the entries at the same positions and the magnitude of a
    vector is the root of its dot product with itself, both as
    [inner_product] and [euclidean_norm] spell them out and not as the code
    computes them. This holds in binary64 arithmetic, where each operation
    is rounded, and in exact arithmetic. *)
Theorem cosine_similarity_cases :
  (∀ vec1 vec2 : list PrimFloat.float,
     ((∃ n1 n2, cosine_similarity vec1 vec2 = Raise (DimensionMismatch n1 n2))
      ↔ length vec1 ≠ length vec2)
     ∧ (length vec1 ≠ length vec2 →
          cosine_similarity vec1 vec2
          = Raise (DimensionMismatch (len vec1) (len vec2)))
     ∧ (length vec1 = length vec2 →
          ∃ x, cosine_similarity vec1 vec2 = Ok x)
     ∧ (length vec1 = length vec2 →
          PrimFloat.eqb (double_euclidean_norm vec1) 0 = true
          ∨ PrimFloat.eqb (double_euclidean_norm vec2) 0 = true →
          cosine_similarity vec1 vec2 = Ok 0%float)
     ∧ (length vec1 = length vec2 →
          PrimFloat.eqb (double_euclidean_norm vec1) 0 = false →
          PrimFloat.eqb (double_euclidean_norm vec2) 0 = false →
          cosine_similarity vec1 vec2
          = Ok (PrimFloat.div (double_inner_product vec1 vec2)
                  (PrimFloat.mul (double_euclidean_norm vec1)
                                 (double_euclidean_norm vec2)))))
  ∧ (∀ vec1 vec2 : list R,
       ((∃ n1 n2, cosine_similarity vec1 vec2 = Raise (DimensionMismatch n1 n2))
        ↔ length vec1 ≠ length vec2)
       ∧ (length vec1 ≠ length vec2 →
            cosine_similarity vec1 vec2
            = Raise (DimensionMismatch (len vec1) (len vec2)))
       ∧ (length vec1 = length vec2 →
            ∃ x, cosine_similarity vec1 vec2 = Ok x)
       ∧ (length vec1 = length vec2 →
            euclidean_norm vec1 = 0%R ∨ euclidean_norm vec2 = 0%R →
            cosine_similarity vec1 vec2 = Ok 0%R)
       ∧ (length vec1 = length vec2 →
            euclidean_norm vec1 ≠ 0%R → euclidean_norm vec2 ≠ 0%R →
            cosine_similarity vec1 vec2
            = Ok (inner_product vec1 vec2
                  / (euclidean_norm vec1 * euclidean_norm vec2))%R)).
Proof.
  split; intros vec1 vec2;
    (split; [apply cosine_similarity_mismatch|]);
    (split; [apply cosine_similarity_lengths|]).
  - rewrite <- !double_magnitude_norm, <- dot_product_double.
    split; [|split].
    + intros Hlen. rewrite (cosine_similarity_double _ _ Hlen).
      destruct (_ || _); eauto.
    + intros Hlen Hz. rewrite (cosine_similarity_double _ _ Hlen).
      by destruct Hz as [-> | ->]; rewrite ?orb_true_r.
    + intros Hlen H1 H2. rewrite (cosine_similarity_double _ _ Hlen).
      by rewrite H1, H2.
  - rewrite <- !magnitude_norm, <- dot_product_real.
    split; [|split].
    + intros Hlen. rewrite (cosine_similarity_real _ _ Hlen).
      destruct (_ || _); eauto.
    + intros Hlen Hz. rewrite (cosine_similarity_real _ _ Hlen).
      destruct Hz as [Hz|Hz]; apply is_zero_true in Hz; rewrite Hz;
        by rewrite ?orb_true_r.
    + intros Hlen H1%is_zero_false H2%is_zero_false.
      rewrite (cosine_similarity_real _ _ Hlen). by rewrite H1, H2.
Qed.

Lemma norm_3_4 : euclidean_norm [3%R; 4%R] = 5%R.
Proof.
  unfold euclidean_norm. cbn [inner_product].
  replace (3 * 3 + (4 * 4 + 0))%R with (5 * 5)%R by lra.
  apply sqrt_square. lra.
Qed.

Lemma norm_4_3 : euclidean_norm [4%R; 3%R] = 5%R.
Proof.
  unfold euclidean_norm. cbn [inner_product].
  replace (4 * 4 + (3 * 3 + 0))%R with (5 * 5)%R by lra.
  apply sqrt_square. lra.
Qed.

Lemma norm_null : euclidean_norm [0%R; 0%R] = 0%R.
Proof.
  unfold euclidean_norm. cbn [inner_product].
  replace (0 * 0 + (0 * 0 + 0))%R with 0%R by lra. apply sqrt_0.
Qed.

Lemma cosine_similarity_cases_witness :
  cosine_similarity [3%R; 4%R] [4%R; 3%R] = Ok (24 / 25)%R
  ∧ cosine_similarity [0%R; 0%R] [0%R; 1%R] = Ok 0%R
  ∧ cosine_similarity [1%R] [0%R; 1%R] = Raise (DimensionMismatch 1 2)
  ∧ cosine_similarity [0%float; 0%float] [3%float; 4%float] = Ok 0%float
  ∧ cosine_similarity [3%float; 0%float] [3%float; 4%float]
    = Ok 0x1.3333333333333p-1%float
  ∧ cosine_similarity [1%float; 2%float; 3%float] [4%float; 5%float; 6%float]
    = Ok 0x1.f302f2021cf36p-1%float
  ∧ cosine_similarity [1%float; 2%float] [1%float] = Raise (DimensionMismatch 2 1).
Proof.
  destruct cosine_similarity_cases as [Hdouble Hreal].
  split; [|split; [|split; [|split; [|split; [|split]]]]].
  - destruct (Hreal [3%R; 4%R] [4%R; 3%R]) as (_ & _ & _ & _ & Hvalue).
    rewrite Hvalue; [|done|rewrite norm_3_4; lra|rewrite norm_4_3; lra].
    rewrite norm_3_4, norm_4_3. f_equal. cbn [inner_product]. lra.
  - destruct (Hreal [0%R; 0%R] [0%R; 1%R]) as (_ & _ & _ & Hzero & _).
    apply Hzero; [done|]. left. apply norm_null.
  - destruct (Hreal [1%R] [0%R; 1%R]) as (_ & Hraise & _).
    apply Hraise. simpl. lia.
  - destruct (Hdouble [0%float; 0%float] [3%float; 4%float])
      as (_ & _ & _ & Hzero & _).
    apply Hzero; [done|]. left. reflexivity.
  - destruct (Hdouble [3%float; 0%float] [3%float; 4%float])
      as (_ & _ & _ & _ & Hvalue).
    rewrite Hvalue; reflexivity.
  - destruct (Hdouble [1%float; 2%float; 3%float] [4%float; 5%float; 6%float])
      as (_ & _ & _ & _ & Hvalue).
    rewrite Hvalue; reflexivity.
  - destruct (Hdouble [1%float; 2%float] [1%float]) as (_ & Hraise & _).
    apply Hraise. simpl. lia.
Defined.

End SimilarityClaims.

(** ** The orchestrator without passages: theorems *)

Module AgentClaims.
Import Py Vocabulary RAGAgent.

(** C9. When retrieval gives no passage, the prompt is the question between
    two fixed texts. The text after the question says that the knowledge
    base has no relevant information and asks for an honest answer that the
    information is not available; neither fixed text has a source label or
    the context header. The answer is what the completion service returns
    for this prompt, its [sources] are empty and [has_sources] is false. *)
Theorem answer_without_passages (self : RAGAgent) (query : string) (top_k : Z) :
  retrieve_context self query top_k = [] →
  build_prompt_with_context query (retrieve_context self query top_k)
  = decline_head +:+ query +:+ decline_tail
  ∧ contains "You don't have any relevant information in your knowledge base"
             decline_tail = true
  ∧ contains "Please respond honestly that you don't have this information available"
             decline_tail = true
  ∧ contains "[Source " decline_head = false
  ∧ contains "[Source " decline_tail = false
  ∧ contains "=== KNOWLEDGE BASE CONTEXT ===" decline_head = false
  ∧ contains "=== KNOWLEDGE BASE CONTEXT ===" decline_tail = false
  ∧ answer self query top_k
    = {| r_query := query;
         r_answer := llm_generate self (decline_head +:+ query +:+ decline_tail);
         r_sources := [];
         num_sources := 0;
         has_sources := false |}.
Proof.
  intros Hempty. unfold answer. rewrite Hempty.
  repeat (split; [by vm_compute|]). done.
Qed.

Lemma answer_without_passages_witness :
  has_sources (answer echo_agent "What is the fee?" 3) = false
  ∧ r_sources (answer echo_agent "What is the fee?" 3) = [].
Proof.
  destruct (answer_without_passages echo_agent "What is the fee?" 3 eq_refl)
    as (_ & _ & _ & _ & _ & _ & _ & ->).
  split; reflexivity.
Defined.

End AgentClaims.

(** ** Whitespace: stripping and splitting *)

Module StringFacts.
Import Py Vocabulary Notions PyFacts.

Lemma split_pushed s : split s = pushed (split_from s (EmptyString, [])).
Proof. unfold split, pushed. by destruct (split_from s _). Qed.

Lemma split_space c s : isspace c = true → split (String c s) = split s.
Proof.
  intros Hc. unfold split. simpl.
  destruct (split_from s (EmptyString, [])) as [w ws]. by rewrite Hc.
Qed.

Lemma split_lstrip s : split (lstrip s) = split s.
Proof.
  induction s as [|c s IH]; [done|]. simpl.
  destruct (isspace c) eqn:Hc; [|done]. by rewrite (split_space _ _ Hc).
Qed.

Lemma split_from_rstrip s :
  split_from (rstrip s) (EmptyString, []) = split_from s (EmptyString, []).
Proof.
  induction s as [|c s IH]; [done|].
  cbn [rstrip]. destruct (rstrip s) as [|d r] eqn:Hr.
  - cbn [split_from]. rewrite <- IH. simpl.
    by destruct (isspace c) eqn:Hc; simpl; rewrite ?Hc.
  - cbn [split_from] in *. by rewrite IH.
Qed.

(** [s.strip().split() == s.split()] *)
Lemma split_strip s : split (strip s) = split s.
Proof.
  unfold strip. rewrite split_lstrip. unfold split. by rewrite split_from_rstrip.
Qed.

Lemma split_empty_strip s : strip s = EmptyString → split s = [].
Proof. intros H. by rewrite <- split_strip, H. Qed.

Lemma last_char_cons c s :
  last_char (String c s) = Some (default c (last_char s)).
Proof. simpl. by destruct (last_char s). Qed.

Lemma trailing_space_rstrip s : trailing_space (rstrip s) = false.
Proof.
  induction s as [|c s IH]; [done|].
  cbn [rstrip]. destruct (rstrip s) as [|d r] eqn:Hr.
  - destruct (isspace c) eqn:Hc; [done|].
    unfold trailing_space. simpl. by rewrite Hc.
  - unfold trailing_space in *. rewrite last_char_cons.
    destruct (last_char (String d r)) eqn:E; [done|].
    by rewrite last_char_cons in E.
Qed.

Lemma leading_space_lstrip s : leading_space (lstrip s) = false.
Proof.
  induction s as [|c s IH]; [done|]. simpl.
  destruct (isspace c) eqn:Hc; [done|].
  unfold leading_space. simpl. by rewrite Hc.
Qed.

Lemma trailing_space_lstrip s :
  trailing_space s = false → trailing_space (lstrip s) = false.
Proof.
  induction s as [|c s IH]; [done|]. simpl. intros H.
  destruct (isspace c) eqn:Hc; [|done]. apply IH.
  unfold trailing_space in *. rewrite last_char_cons in H.
  by destruct (last_char s).
Qed.

Lemma strip_edges s :
  leading_space (strip s) = false ∧ trailing_space (strip s) = false.
Proof.
  unfold strip. split; [apply leading_space_lstrip|].
  apply trailing_space_lstrip, trailing_space_rstrip.
Qed.

Lemma split_starts_word c s : isspace c = false → split (String c s) ≠ [].
Proof.
  intros Hc. unfold split. simpl.
  destruct (split_from s (EmptyString, [])) as [w ws]. by rewrite Hc.
Qed.

End StringFacts.

(** ** The sentence splitter: theorems *)

Module SentenceSplit.
Import Py Vocabulary Notions PyFacts TextChunker StringFacts.

(** The words of a text are the words of its pieces. The second part is
    the same for the scan states, when the scan is not inside a separator:
    the word that is open at the start of the text is the word that is open
    at the start of the first piece. *)
Lemma sentence_pieces_words s : ∀ st,
  (st ≠ InSeparator →
   split_from s (EmptyString, [])
   = (fst (split_from (fst (sentence_pieces st s)) (EmptyString, [])),
      snd (split_from (fst (sentence_pieces st s)) (EmptyString, []))
      ++ concat (map split (snd (sentence_pieces st s)))))
  ∧ split s
    = split (fst (sentence_pieces st s))
      ++ concat (map split (snd (sentence_pieces st s))).
Proof.
  induction s as [|c s IH]; intros st; [done|].
  assert (Hkeep : ∀ st',
    st' ≠ InSeparator →
    sentence_pieces st (String c s)
    = (String c (fst (sentence_pieces st' s)), snd (sentence_pieces st' s)) →
    split_from (String c s) (EmptyString, [])
    = (fst (split_from (fst (sentence_pieces st (String c s))) (EmptyString, [])),
       snd (split_from (fst (sentence_pieces st (String c s))) (EmptyString, []))
       ++ concat (map split (snd (sentence_pieces st (String c s)))))).
  { intros st' Hst' ->. destruct (IH st') as [IHs _]. specialize (IHs Hst').
    cbn [fst snd split_from]. rewrite IHs.
    destruct (split_from (fst (sentence_pieces st' s)) _) as [w ws].
    cbn [fst snd]. destruct (isspace c); cbn [fst snd]; [|done].
    by rewrite push_app. }
  assert (Hweak : ∀ x : string * list string, ∀ C,
    split_from (String c s) (EmptyString, []) = (fst x, snd x ++ C) →
    split (String c s) = pushed x ++ C).
  { intros x C Hx. rewrite split_pushed, Hx. unfold pushed. simpl.
    by rewrite push_app. }
  cbn [sentence_pieces].
  destruct st, (isspace c) eqn:Hc.
  all: try (
    match goal with
    | |- context [sentence_pieces ?st' ?s0] =>
        assert (Hst' : st' ≠ InSeparator) by (by destruct (is_terminal c));
        specialize (Hkeep st' Hst');
        cbn [sentence_pieces] in Hkeep; rewrite ?Hc in Hkeep;
        destruct (sentence_pieces st' s) as [p ps] eqn:Hp;
        specialize (Hkeep eq_refl);
        split; [done|]; rewrite (split_pushed (fst _)); by apply Hweak
    end).
  - (* a separator begins *)
    destruct (IH InSeparator) as [_ IHw].
    destruct (sentence_pieces InSeparator s) as [p ps]. cbn [fst snd] in *.
    rewrite (split_space _ _ Hc), IHw. split; [|done]. intros _.
    cbn [split_from]. rewrite Hc.
    change (concat (map split (p :: ps))) with (split p ++ concat (map split ps)).
    rewrite <- IHw, split_pushed. unfold pushed.
    by destruct (split_from s _).
  - (* a separator goes on *)
    destruct (IH InSeparator) as [_ IHw]. split; [done|].
    by rewrite (split_space _ _ Hc).
Qed.

Lemma re_split_sentences_words s :
  concat (map split (re_split_sentences s)) = split s.
Proof.
  unfold re_split_sentences.
  destruct (sentence_pieces_words s Plain) as [_ H].
  destruct (sentence_pieces Plain s) as [p ps]. by rewrite H.
Qed.

Lemma stripped_pieces_words (pieces : list string) :
  concat (map split
    (omap (fun s => if nonempty_str (strip s) then Some (strip s) else None)
          pieces))
  = concat (map split pieces).
Proof.
  induction pieces as [|p pieces IH]; [done|].
  cbn [omap list_omap map concat].
  destruct (strip p) as [|a r] eqn:Hp; cbn [nonempty_str map concat].
  - by rewrite (split_empty_strip _ Hp), IH.
  - by rewrite <- Hp, split_strip, IH.
Qed.

Lemma sum_count_words (l : list string) :
  sum (map count_words l) = len (concat (map split l)).
Proof.
  induction l as [|s l IH]; [done|].
  cbn [map concat]. by rewrite sum_cons, len_app, IH.
Qed.

Lemma sentences_words (document : string) :
  concat (map split (split_into_sentences document)) = split document.
Proof.
  unfold split_into_sentences.
  by rewrite stripped_pieces_words, re_split_sentences_words.
Qed.

Lemma sentences_word_counts (document : string) :
  sum (map count_words (split_into_sentences document)) = count_words document.
Proof. by rewrite sum_count_words, sentences_words. Qed.

(** X1. Splitting a text into sentences loses no word and adds none: the
    words of the sentences, in order, are the words of the text, and the
    word counts of the sentences add up to the word count of the text. *)
Theorem split_into_sentences_words (document : string) :
  concat (map split (split_into_sentences document)) = split document
  ∧ sum (map count_words (split_into_sentences document))
    = count_words document.
Proof.
  split; [apply sentences_words|apply sentences_word_counts].
Qed.

(** A stripped piece that is not empty has a word. *)
Lemma stripped_piece_words p :
  nonempty_str (strip p) = true → 1 ≤ count_words (strip p).
Proof.
  intros Hne. destruct (strip_edges p) as [Hl _].
  destruct (strip p) as [|c r]; [done|].
  unfold leading_space in Hl. simpl in Hl.
  pose proof (split_starts_word c r Hl) as Hw.
  unfold count_words, len. destruct (split (String c r)); [done|]. simpl. lia.
Qed.

Lemma sentences_have_words (document : string) :
  Forall (fun s => 1 ≤ count_words s) (split_into_sentences document).
Proof.
  apply Forall_forall. intros s.
  unfold split_into_sentences. intros (p & _ & Hp)%list_elem_of_omap.
  destruct (nonempty_str (strip p)) eqn:Hne; [|done].
  injection Hp as <-. by apply stripped_piece_words.
Qed.

(** X2. Every sentence that [split_into_sentences] returns is not empty,
    neither begins nor ends with whitespace, and has at least one word. *)
Theorem split_into_sentences_stripped (document : string) :
  Forall (fun s => s ≠ EmptyString
                   ∧ leading_space s = false ∧ trailing_space s = false
                   ∧ 1 ≤ count_words s)
         (split_into_sentences document).
Proof.
  apply Forall_forall. intros s.
  unfold split_into_sentences. intros (p & _ & Hp)%list_elem_of_omap.
  destruct (nonempty_str (strip p)) eqn:Hne; [|done].
  injection Hp as <-. destruct (strip_edges p) as [Hl Ht].
  pose proof (stripped_piece_words p Hne) as Hw.
  repeat split; [|done..]. by destruct (strip p).
Qed.

End SentenceSplit.

(** ** The tokenizer: theorems *)

Module TokenFacts.
Import Py Vocabulary Notions PyFacts TextCleaner StringFacts CleanerClaims.

Lemma lower_char_space c : isspace (lower_char c) = isspace c.
Proof. by destruct c as [[] [] [] [] [] [] [] []]. Qed.

Lemma lower_char_alnum c : is_lower_alnum c = true → lower_char c = c.
Proof. by destruct c as [[] [] [] [] [] [] [] []]. Qed.

Lemma collapse_split_from s : ∀ b st,
  (b = false → split_from (collapse_from b s) st = split_from s st)
  ∧ pushed (split_from (collapse_from b s) st) = pushed (split_from s st).
Proof.
  induction s as [|c s IH]; intros b st; [done|].
  cbn [collapse_from split_from].
  destruct (isspace c) eqn:Hc.
  - destruct (IH true st) as [_ IHw]. destruct b.
    + split; [done|]. rewrite IHw.
      destruct (split_from s st) as [w ws]. by destruct w.
    + cbn [split_from]. change (isspace " ") with true. cbv iota.
      assert (E : ∀ x : string * list string,
                (let '(w, ws) := x in (EmptyString, push w ws))
                = (EmptyString, pushed x)) by (by intros []).
      rewrite !E, IHw. done.
  - destruct (IH false st) as [IHs _]. specialize (IHs eq_refl).
    cbn [split_from]. rewrite Hc, IHs. done.
Qed.

Lemma split_collapse s : split (collapse_whitespace s) = split s.
Proof.
  rewrite !split_pushed. unfold collapse_whitespace.
  by destruct (collapse_split_from s false (EmptyString, [])) as [_ ->].
Qed.

Lemma nonempty_strings_push w ws f :
  f EmptyString = EmptyString →
  nonempty_strings (map f (push w ws)) = push (f w) (nonempty_strings (map f ws)).
Proof.
  intros Hf. destruct w as [|a w]; [by rewrite Hf|].
  cbn [push map]. unfold nonempty_strings. rewrite filter_cons.
  destruct (f (String a w)); by case_decide.
Qed.

Lemma remove_special_split_from s w0 ws0 :
  split_from (remove_special s)
    (remove_special w0, nonempty_strings (map remove_special ws0))
  = (remove_special (fst (split_from s (w0, ws0))),
     nonempty_strings (map remove_special (snd (split_from s (w0, ws0))))).
Proof.
  induction s as [|c s IH]; [done|].
  cbn [remove_special split_from].
  destruct (split_from s (w0, ws0)) as [w ws]. cbn [fst snd] in IH.
  destruct (is_lower_alnum c) eqn:Ha.
  - pose proof (alnum_not_space _ Ha) as Hc. cbn [orb split_from].
    rewrite IH, Hc. cbn [fst snd remove_special]. by rewrite Ha.
  - destruct (isspace c) eqn:Hc; cbn [orb split_from].
    + rewrite IH, Hc. cbn [fst snd]. by rewrite nonempty_strings_push.
    + rewrite IH. cbn [fst snd remove_special]. by rewrite Ha, Hc.
Qed.

(** Removing the special characters of a text removes them from its words,
    and drops the words that had no other characters. *)
Lemma split_remove_special s :
  split (remove_special s) = nonempty_strings (map remove_special (split s)).
Proof.
  rewrite !split_pushed.
  pose proof (remove_special_split_from s EmptyString []) as H.
  change (remove_special EmptyString) with EmptyString in H.
  change (nonempty_strings (map remove_special [])) with (@nil string) in H.
  rewrite H. unfold pushed. cbn [fst snd].
  by rewrite nonempty_strings_push.
Qed.

Lemma lower_split_from s w0 ws0 :
  split_from (lower s) (lower w0, map lower ws0)
  = (lower (fst (split_from s (w0, ws0))),
     map lower (snd (split_from s (w0, ws0)))).
Proof.
  induction s as [|c s IH]; [done|].
  cbn [lower split_from]. rewrite IH.
  destruct (split_from s (w0, ws0)) as [w ws]. cbn [fst snd].
  rewrite lower_char_space. destruct (isspace c); [|done].
  cbn [fst snd]. by destruct w.
Qed.

Lemma split_lower s : split (lower s) = map lower (split s).
Proof.
  rewrite !split_pushed.
  pose proof (lower_split_from s EmptyString []) as H.
  change (lower EmptyString) with EmptyString in H.
  change (map lower []) with (@nil string) in H.
  rewrite H. unfold pushed. cbn [fst snd].
  destruct (split_from s _) as [w ws]. by destruct w.
Qed.

Lemma tokens_of_words (document : string) :
  tokenize document = nonempty_strings (map clean_word (split document)).
Proof.
  unfold tokenize, clean_text.
  rewrite split_collapse, split_remove_special, split_strip, split_lower.
  by rewrite map_map.
Qed.

(** X3. The tokens of a text are its words, each in lower case and without
    its characters outside [a-z0-9], those words left out of which nothing
    remains. So cleaning never joins two words, never splits one, and
    [get_word_count] is at most the number of words of the text. *)
Theorem tokenize_words (document : string) :
  tokenize document = nonempty_strings (map clean_word (split document))
  ∧ get_word_count document ≤ TextChunker.count_words document.
Proof.
  pose proof (tokens_of_words document) as H.
  split; [done|].
  unfold get_word_count, TextChunker.count_words, len. rewrite H.
  unfold nonempty_strings.
  pose proof (length_filter (fun w => nonempty_str w = true)
                (map clean_word (split document))) as Hl.
  rewrite length_map in Hl. lia.
Qed.

Lemma remove_special_alnum s :
  no_space s = true → all_chars is_lower_alnum (remove_special s) = true.
Proof.
  induction s as [|c s IH]; [done|].
  cbn [no_space remove_special]. intros [Hc Hs]%andb_prop.
  apply negb_true_iff in Hc. rewrite Hc, orb_false_r.
  destruct (is_lower_alnum c) eqn:Ha; [|by apply IH].
  cbn [all_chars]. by rewrite Ha, IH.
Qed.

Lemma lower_no_space s : no_space (lower s) = no_space s.
Proof.
  induction s as [|c s IH]; [done|].
  cbn [lower no_space]. by rewrite lower_char_space, IH.
Qed.

Lemma clean_word_alnum w :
  is_word w = true → all_chars is_lower_alnum (clean_word w) = true.
Proof.
  intros [_ Hs]%andb_prop. apply remove_special_alnum.
  by rewrite lower_no_space.
Qed.

(** X4. Every token is a non-empty string of characters of [a-z0-9]. *)
Theorem tokenize_alnum (document : string) :
  Forall (fun w => w ≠ EmptyString ∧ all_chars is_lower_alnum w = true)
         (tokenize document).
Proof.
  rewrite tokens_of_words.
  apply Forall_forall. intros w [Hne Hw]%list_elem_of_filter.
  apply list_elem_of_fmap in Hw as (w0 & -> & Hw0).
  split; [by destruct (clean_word w0)|].
  apply clean_word_alnum.
  by apply (proj1 (Forall_forall _ _) (split_words document)).
Qed.

Lemma clean_word_fixed w :
  all_chars is_lower_alnum w = true → clean_word w = w.
Proof.
  unfold clean_word. induction w as [|c w IH]; [done|].
  cbn [all_chars lower remove_special]. intros [Hc Hw]%andb_prop.
  by rewrite (lower_char_alnum _ Hc), Hc, (IH Hw).
Qed.

(** X5. Cleaning a text that is already clean changes none of its tokens:
    the tokens of [clean_text document] are the tokens of [document]. *)
Theorem tokenize_clean_text (document : string) :
  tokenize (clean_text document) = tokenize document.
Proof.
  rewrite (tokens_of_words (clean_text document)).
  change (split (clean_text document)) with (tokenize document).
  rewrite (tokens_of_words document).
  pose proof (split_words document) as H.
  induction H as [|w l Hw Hl IH]; [done|].
  cbn [map]. unfold nonempty_strings in *. rewrite filter_cons.
  destruct (clean_word w) as [|c w'] eqn:E.
  - by rewrite decide_False by done.
  - rewrite decide_True by done. cbn [map]. rewrite filter_cons, IH.
    rewrite <- E, (clean_word_fixed _ (clean_word_alnum _ Hw)), E.
    by rewrite decide_True by done.
Qed.

End TokenFacts.

(** ** The statistics of a list of chunks: theorems *)

Module StatsFacts.
Import Py Vocabulary Notions PyFacts TextChunker Chunking.

Lemma min_of_spec rest : ∀ x,
  (∀ y, y ∈ x :: rest → min_of x rest ≤ y) ∧ min_of x rest ∈ x :: rest.
Proof.
  unfold min_of. induction rest as [|a rest IH]; intros x.
  - simpl. split; [|by left]. intros y ->%list_elem_of_singleton. lia.
  - cbn [fold_left]. destruct (IH (Z.min x a)) as [Hle Hin]. split.
    + intros y Hy.
      assert (Hm : fold_left Z.min rest (Z.min x a) ≤ Z.min x a)
        by (apply Hle; by left).
      apply elem_of_cons in Hy as [->|Hy]; [lia|].
      apply elem_of_cons in Hy as [->|Hy]; [lia|].
      apply Hle. by right.
    + apply elem_of_cons in Hin as [->|Hin].
      * destruct (Z.min_spec x a) as [[_ ->]|[_ ->]]; [by left|by right; left].
      * by right; right.
Qed.

Lemma max_of_spec rest : ∀ x,
  (∀ y, y ∈ x :: rest → y ≤ max_of x rest) ∧ max_of x rest ∈ x :: rest.
Proof.
  unfold max_of. induction rest as [|a rest IH]; intros x.
  - simpl. split; [|by left]. intros y ->%list_elem_of_singleton. lia.
  - cbn [fold_left]. destruct (IH (Z.max x a)) as [Hle Hin]. split.
    + intros y Hy.
      assert (Hm : Z.max x a ≤ fold_left Z.max rest (Z.max x a))
        by (apply Hle; by left).
      apply elem_of_cons in Hy as [->|Hy]; [lia|].
      apply elem_of_cons in Hy as [->|Hy]; [lia|].
      apply Hle. by right.
    + apply elem_of_cons in Hin as [->|Hin].
      * destruct (Z.max_spec x a) as [[_ ->]|[_ ->]]; [by right; left|by left].
      * by right; right.
Qed.

Lemma sum_bounds (l : list Z) lo hi :
  (∀ y, y ∈ l → lo ≤ y ≤ hi) → len l * lo ≤ sum l ≤ len l * hi.
Proof.
  induction l as [|a l IH]; intros H.
  - unfold len, sum. simpl. lia.
  - rewrite sum_cons. unfold len in *. cbn [length].
    assert (lo ≤ a ≤ hi) by (apply H; by left).
    assert (Z.of_nat (length l) * lo ≤ sum l ≤ Z.of_nat (length l) * hi)
      by (apply IH; intros y Hy; apply H; by right).
    lia.
Qed.

Lemma stats_defined {F : Type} `{PyFloat F} (chunks : list Chunk) :
  chunks ≠ [] → ∃ stats : ChunkStats F, get_chunk_stats chunks = StatsOf stats.
Proof. destruct chunks; [done|]. by eexists. Qed.

Lemma stats_totals {F : Type} `{PyFloat F} (chunks : list Chunk)
    (stats : ChunkStats F) :
  get_chunk_stats chunks = StatsOf stats →
  total_chunks stats = len chunks
  ∧ total_words stats = sum (map word_count chunks).
Proof.
  intros Hs. destruct chunks as [|first others]; [done|]. by injection Hs as <-.
Qed.

(** The minimum and the maximum are word counts of chunks of the list and
    bound all of them. *)
Lemma stats_extremes {F : Type} `{PyFloat F} (chunks : list Chunk)
    (stats : ChunkStats F) :
  get_chunk_stats chunks = StatsOf stats →
  (∀ c, c ∈ chunks → min_words stats ≤ word_count c ≤ max_words stats)
  ∧ (∃ c, c ∈ chunks ∧ word_count c = min_words stats)
  ∧ (∃ c, c ∈ chunks ∧ word_count c = max_words stats).
Proof.
  destruct chunks as [|first others]; [done|]. intros [= <-].
  cbn [min_words max_words].
  destruct (min_of_spec (map word_count others) (word_count first))
    as [Hmin Hmin_in].
  destruct (max_of_spec (map word_count others) (word_count first))
    as [Hmax Hmax_in].
  change (word_count first :: map word_count others)
    with (map word_count (first :: others)) in *.
  split; [|split].
  - intros c Hc. split; [apply Hmin|apply Hmax]; by apply list_elem_of_fmap_2.
  - apply list_elem_of_fmap in Hmin_in as (c & -> & Hc). eauto.
  - apply list_elem_of_fmap in Hmax_in as (c & -> & Hc). eauto.
Qed.

Lemma stats_sum_between {F : Type} `{PyFloat F} (chunks : list Chunk)
    (stats : ChunkStats F) :
  get_chunk_stats chunks = StatsOf stats →
  total_chunks stats * min_words stats ≤ total_words stats
  ≤ total_chunks stats * max_words stats.
Proof.
  intros Hs. destruct (stats_totals chunks stats Hs) as [-> ->].
  destruct (stats_extremes chunks stats Hs) as (Hb & _).
  replace (len chunks) with (len (map word_count chunks))
    by (unfold len; by rewrite length_map).
  apply sum_bounds. intros y (c & -> & Hc)%list_elem_of_fmap. by apply Hb.
Qed.

(** X6. For a list of chunks that is not empty [get_chunk_stats] returns
    the statistics, not the error: the number of chunks, the sum of their
    word counts, a minimum and a maximum that are word counts of chunks of
    the list and bound all of them, so that the sum lies between the number
    of chunks times the minimum and times the maximum, and the method of
    the first chunk. *)
Theorem get_chunk_stats_bounds {F : Type} `{PyFloat F} (chunks : list Chunk) :
  chunks ≠ [] →
  ∃ stats : ChunkStats F,
    get_chunk_stats chunks = StatsOf stats
    ∧ total_chunks stats = len chunks
    ∧ total_words stats = sum (map word_count chunks)
    ∧ (∀ c, c ∈ chunks → min_words stats ≤ word_count c ≤ max_words stats)
    ∧ (∃ c, c ∈ chunks ∧ word_count c = min_words stats)
    ∧ (∃ c, c ∈ chunks ∧ word_count c = max_words stats)
    ∧ total_chunks stats * min_words stats ≤ total_words stats
      ≤ total_chunks stats * max_words stats
    ∧ head (map method chunks) = Some (stats_method stats).
Proof.
  intros Hne. destruct (stats_defined (F := F) chunks Hne) as [stats Hs].
  exists stats.
  destruct (stats_totals chunks stats Hs) as [Hn Ht].
  destruct (stats_extremes chunks stats Hs) as (Hb & Hmin & Hmax).
  pose proof (stats_sum_between chunks stats Hs) as Hsum.
  repeat (split; [done|]).
  destruct chunks as [|first others]; [done|]. by injection Hs as <-.
Qed.

Lemma get_chunk_stats_bounds_witness :
  ∃ stats : ChunkStats PrimFloat.float,
    get_chunk_stats (chunk_by_sentences (mkTextChunker 3 0) "A. B b b b b. C.")
    = StatsOf stats
    ∧ total_chunks stats = 3 ∧ min_words stats = 1 ∧ max_words stats = 7
    ∧ total_words stats = 14.
Proof.
  destruct (get_chunk_stats_bounds (F := PrimFloat.float)
              (chunk_by_sentences (mkTextChunker 3 0) "A. B b b b b. C."))
    as (stats & Hs & _); [done|].
  exists stats. split; [done|].
  vm_compute in Hs. injection Hs as <-. done.
Defined.

Lemma stats_min_bound {F : Type} `{PyFloat F} (chunks : list Chunk) lo
    (stats : ChunkStats F) :
  get_chunk_stats chunks = StatsOf stats →
  Forall (fun c => lo ≤ word_count c) chunks →
  lo ≤ min_words stats.
Proof.
  intros Hs Hall. destruct (stats_extremes chunks stats Hs) as (_ & Hmin & _).
  destruct Hmin as (c & Hc & <-). rewrite Forall_forall in Hall. by apply Hall.
Qed.

Lemma stats_max_bound {F : Type} `{PyFloat F} (chunks : list Chunk) hi
    (stats : ChunkStats F) :
  get_chunk_stats chunks = StatsOf stats →
  Forall (fun c => word_count c ≤ hi) chunks →
  max_words stats ≤ hi.
Proof.
  intros Hs Hall. destruct (stats_extremes chunks stats Hs) as (_ & _ & Hmax).
  destruct Hmax as (c & Hc & <-). rewrite Forall_forall in Hall. by apply Hall.
Qed.

Lemma stats_method_of {F : Type} `{PyFloat F} (chunks : list Chunk) m
    (stats : ChunkStats F) :
  get_chunk_stats chunks = StatsOf stats →
  Forall (fun c => method c = m) chunks →
  stats_method stats = m.
Proof.
  intros Hs Hall. destruct chunks as [|first others]; [done|].
  injection Hs as <-. by apply Forall_cons in Hall as [-> _].
Qed.

End StatsFacts.

(** ** The dispatcher and the statistics of what it returns: theorems *)

Module ChunkingFacts.
Import Py Vocabulary Notions PyFacts TextChunker WordsFacts SentencesFacts.
Import StringFacts SentenceSplit Chunking StatsFacts.

Section Windows.
Variable self : TextChunker.
Variable words : list string.

Lemma windows_methods start id rest :
  windows self words start id rest →
  Forall (fun c => method c = WordBased) rest.
Proof. induction 1; repeat constructor; done. Qed.

Lemma windows_empty start id :
  windows self words start id [] → len words ≤ start.
Proof. by inversion 1. Qed.

Lemma word_chunk_count id start :
  0 ≤ start < len words → 0 ≤ chunk_size self →
  word_count (word_chunk self words id start)
  = Z.min (chunk_size self) (len words - start).
Proof.
  intros Hs Hsize. cbn [word_chunk word_count]. unfold next_end.
  rewrite len_slice. unfold clamp_index.
  destruct (Z.ltb_spec (Z.min (start + chunk_size self) (len words)) 0),
           (Z.ltb_spec start 0); lia.
Qed.

(** With an overlap below the size every window has between one and
    [chunk_size] words, and the windows from [start] on hold at least the
    words from [start] on. *)
Lemma windows_counts start id rest :
  0 ≤ overlap self < chunk_size self →
  windows self words start id rest → 0 ≤ start →
  Forall (fun c => 1 ≤ word_count c ≤ chunk_size self) rest
  ∧ len words - start ≤ sum (map word_count rest).
Proof.
  intros Hov. induction 1 as [start id Hend|start id Hlt Hhalt
                             |start id rest Hlt Hadv Hrest IH]; intros Hs.
  - split; [constructor|]. unfold sum. simpl. lia.
  - rewrite Forall_singleton. cbn [map]. rewrite sum_cons.
    change (sum []) with 0.
    rewrite word_chunk_count by lia. unfold next_end in Hhalt. lia.
  - unfold next_end in *. destruct IH as [IHc IHs]; [lia|].
    rewrite Forall_cons. cbn [map]. rewrite sum_cons.
    rewrite word_chunk_count by lia. repeat split; [lia..|done|lia].
Qed.

End Windows.

Lemma number_chunks_methods groups : ∀ id,
  Forall (fun c => method c = SentenceBased) (number_chunks id groups).
Proof. induction groups; intros id; constructor; [done|]. apply IHgroups. Qed.

Lemma number_chunks_counts groups : ∀ id,
  map word_count (number_chunks id groups)
  = map (fun g => sum (map count_words g)) groups.
Proof.
  induction groups as [|g gs IH]; intros id; [done|].
  cbn [number_chunks map]. by rewrite IH.
Qed.

Lemma number_chunks_length groups id :
  length (number_chunks id groups) = length groups.
Proof.
  rewrite <- (length_map word_count), number_chunks_counts.
  by rewrite length_map.
Qed.

Lemma sum_map_nonneg (l : list string) : 0 ≤ sum (map count_words l).
Proof.
  induction l as [|s l IH]; [done|]. cbn [map]. rewrite sum_cons.
  pose proof (count_words_nonneg s). lia.
Qed.

(** The groups hold at least the words of the sentences. *)
Lemma groups_loop_words self sentences : ∀ current_chunk,
  sum (map count_words current_chunk) + sum (map count_words sentences)
  ≤ sum (map (fun g => sum (map count_words g))
             (groups_loop self sentences current_chunk)).
Proof.
  induction sentences as [|s rest IH]; intros cur.
  - cbn [groups_loop]. destruct cur as [|a cur]; [done|].
    cbn [nonempty map]. rewrite !sum_cons. change (sum []) with 0. lia.
  - cbn [groups_loop map]. rewrite sum_cons.
    destruct (_ && _).
    + cbn [map]. rewrite sum_cons.
      specialize (IH (overlap_sentences cur ++ [s])).
      rewrite sum_map_snoc in IH.
      pose proof (sum_map_nonneg (overlap_sentences cur)). lia.
    + specialize (IH (cur ++ [s])). rewrite sum_map_snoc in IH. lia.
Qed.

(** Every group but the one that is open takes a sentence of its own. *)
Lemma groups_loop_length self sentences : ∀ current_chunk,
  (length (groups_loop self sentences current_chunk)
   ≤ length sentences + if nonempty current_chunk then 1 else 0)%nat.
Proof.
  induction sentences as [|s rest IH]; intros cur.
  - cbn [groups_loop]. by destruct (nonempty cur).
  - cbn [groups_loop length].
    destruct (nonempty cur) eqn:Hcur.
    + destruct (_ >? _); cbn [andb length].
      * specialize (IH (overlap_sentences cur ++ [s])).
        rewrite nonempty_true in IH; [lia|]. by destruct (overlap_sentences cur).
      * specialize (IH (cur ++ [s])).
        rewrite nonempty_true in IH; [lia|]. by destruct cur.
    + rewrite andb_false_r. specialize (IH (cur ++ [s])).
      rewrite nonempty_true in IH; [lia|]. by destruct cur.
Qed.

Lemma no_sentences_no_words document :
  split_into_sentences document = [] ↔ split document = [].
Proof.
  split.
  - intros H. rewrite <- (sentences_words document). by rewrite H.
  - intros H. destruct (split_into_sentences document) as [|s l] eqn:E; [done|].
    exfalso.
    pose proof (sentences_have_words document) as Hs.
    rewrite E in Hs. apply Forall_cons in Hs as [Hs _].
    pose proof (sentences_word_counts document) as Hsum.
    rewrite E in Hsum. cbn [map] in Hsum. rewrite sum_cons in Hsum.
    pose proof (sum_map_nonneg l). unfold count_words at 3 in Hsum.
    rewrite H in Hsum. unfold len in Hsum. simpl in Hsum. lia.
Qed.

(** The chunks that [chunk_text] returns are those of one of the two
    chunkers, by the name of the method. *)
Lemma chunk_text_chunks self document name chunks :
  chunk_text self document name = Some (Chunks chunks) →
  (name = "words" ∧ chunk_by_words self document = Some chunks)
  ∨ (name = "sentences" ∧ chunks = chunk_by_sentences self document).
Proof.
  unfold chunk_text. destruct (decide (name = "words")) as [->|Hw].
  - destruct (chunk_by_words self document); [|done]. intros [= <-]. by left.
  - destruct (decide (name = "sentences")) as [->|Hs]; [|done].
    intros [= <-]. by right.
Qed.

(** X8. [chunk_text] always ends. For the method ['words'] it returns the
    chunks of [chunk_by_words], all marked word-based; for ['sentences']
    those of [chunk_by_sentences], all marked sentence-based; for any other
    name it raises the error that names it. *)
Theorem chunk_text_outcome (self : TextChunker) (document name : string) :
  ∃ r, chunk_text self document name = Some r
    ∧ match r with
      | Chunks chunks =>
          (name = "words"
           ∧ chunk_by_words self document = Some chunks
           ∧ Forall (fun c => method c = WordBased) chunks)
          ∨ (name = "sentences"
             ∧ chunks = chunk_by_sentences self document
             ∧ Forall (fun c => method c = SentenceBased) chunks)
      | UnknownMethod m =>
          m = name ∧ name ≠ "words" ∧ name ≠ "sentences"
      end.
Proof.
  unfold chunk_text. destruct (decide (name = "words")) as [->|Hw].
  - destruct (chunk_by_words_windows self document) as (chunks & -> & Hc).
    exists (Chunks chunks). split; [done|]. left.
    eauto using windows_methods.
  - destruct (decide (name = "sentences")) as [->|Hs].
    + eexists. split; [done|]. right. repeat split.
      rewrite chunk_by_sentences_groups. apply number_chunks_methods.
    + by eexists.
Qed.

Lemma no_word_chunks self document chunks :
  chunk_by_words self document = Some chunks →
  chunks = [] ↔ split document = [].
Proof.
  intros Hc. destruct (chunk_by_words_windows self document) as (c' & Hc' & Hw).
  rewrite Hc in Hc'. injection Hc' as <-. split.
  - intros ->. apply windows_empty in Hw. unfold len in Hw.
    destruct (split document); [done|]. simpl in Hw. lia.
  - intros E. rewrite E in Hw. inversion Hw as [| |]; [done|..];
      unfold len in *; simpl in *; lia.
Qed.

Lemma no_sentence_chunks self document :
  chunk_by_sentences self document = [] ↔ split document = [].
Proof.
  rewrite <- no_sentences_no_words, chunk_by_sentences_groups. split.
  - intros H. destruct (groups_of_document self (split_into_sentences document))
      as [[E _]|(g & gs & E & _)]; [done|]. by rewrite E in H.
  - by intros ->.
Qed.

(** X9. With either method, and whatever the size and the overlap,
    [chunk_text] returns no chunk exactly when the text has no word, and
    then [get_chunk_stats] returns its error dictionary instead of
    dividing by zero. *)
Theorem no_chunks_iff_no_words {F : Type} `{PyFloat F}
    (self : TextChunker) (document name : string) (chunks : list Chunk) :
  chunk_text self document name = Some (Chunks chunks) →
  (chunks = [] ↔ split document = [])
  ∧ (get_chunk_stats (F := F) chunks = NoChunksProvided ↔ split document = []).
Proof.
  intros Hc.
  assert (Hn : chunks = [] ↔ split document = []).
  { destruct (chunk_text_chunks _ _ _ _ Hc) as [[_ Hw]|[_ ->]].
    - by apply (no_word_chunks self).
    - apply no_sentence_chunks. }
  split; [done|]. rewrite <- Hn. by destruct chunks.
Qed.

Lemma no_chunks_iff_no_words_witness :
  (@nil Chunk = [] ↔ split "  " = [])
  ∧ (get_chunk_stats (F := PrimFloat.float) [] = NoChunksProvided
     ↔ split "  " = []).
Proof.
  apply (no_chunks_iff_no_words (mkTextChunker 500 50) "  " "sentences" []).
  reflexivity.
Defined.

End ChunkingFacts.

(** ** The statistics of the chunks of a document: theorems *)

Module DocumentStats.
Import Py Vocabulary Notions PyFacts TextChunker WordsFacts SentencesFacts.
Import StringFacts SentenceSplit Chunking StatsFacts ChunkingFacts.

(** X10. For a text with at least one word and an overlap that is not
    negative and below the size, the statistics of the word-based chunks
    are defined; every chunk has at least one word and at most
    [chunk_size]; the word counts add up to at least the word count of the
    text; and there are at most as many chunks as words. *)
Theorem stats_of_word_chunks {F : Type} `{PyFloat F}
    (self : TextChunker) (document : string) :
  0 ≤ overlap self < chunk_size self →
  split document ≠ [] →
  ∃ chunks (stats : ChunkStats F),
    chunk_text self document "words" = Some (Chunks chunks)
    ∧ get_chunk_stats chunks = StatsOf stats
    ∧ stats_method stats = WordBased
    ∧ 1 ≤ min_words stats
    ∧ max_words stats ≤ chunk_size self
    ∧ count_words document ≤ total_words stats
    ∧ total_chunks stats ≤ count_words document.
Proof.
  intros Hov Hne.
  destruct (chunk_by_words_windows self document) as (chunks & Hc & Hw).
  assert (chunks ≠ []) as Hchunks
    by (intros E; by apply (no_word_chunks self document chunks Hc) in E).
  destruct (stats_defined (F := F) chunks Hchunks) as [stats Hs].
  exists chunks, stats.
  destruct (windows_counts self (split document) 0 0 chunks Hov Hw)
    as [Hcounts Hsum]; [done|].
  pose proof (stats_min_bound chunks 1 stats Hs
                (Forall_impl _ _ _ Hcounts (fun c Hc => proj1 Hc))).
  pose proof (stats_max_bound chunks (chunk_size self) stats Hs
                (Forall_impl _ _ _ Hcounts (fun c Hc => proj2 Hc))).
  destruct (stats_totals chunks stats Hs) as [-> ->].
  pose proof (windows_length self (split document) 0 0 chunks Hw) as Hlen.
  unfold chunk_text. cbn [decide]. rewrite Hc.
  repeat split; [done|..|done|done| |].
  - apply (stats_method_of chunks); [done|].
    by apply (windows_methods self (split document) 0 0).
  - unfold count_words. lia.
  - unfold count_words, len in *. lia.
Qed.

Lemma stats_of_word_chunks_witness :
  ∃ chunks (stats : ChunkStats PrimFloat.float),
    chunk_text (mkTextChunker 3 1) "a b c d e f g" "words" = Some (Chunks chunks)
    ∧ get_chunk_stats chunks = StatsOf stats
    ∧ stats_method stats = WordBased
    ∧ 1 ≤ min_words stats
    ∧ max_words stats ≤ 3
    ∧ count_words "a b c d e f g" ≤ total_words stats
    ∧ total_chunks stats ≤ count_words "a b c d e f g".
Proof.
  apply (stats_of_word_chunks (F := PrimFloat.float) (mkTextChunker 3 1)
           "a b c d e f g"); [simpl; lia|done].
Defined.

Lemma group_words (l : list string) :
  l ≠ [] → Forall (fun s => 1 ≤ count_words s) l → 1 ≤ sum (map count_words l).
Proof.
  destruct l as [|s l]; [done|]. intros _ [Hs _]%Forall_cons.
  cbn [map]. rewrite sum_cons. pose proof (sum_map_nonneg l). lia.
Qed.

(** X11. For a text with at least one word, whatever the size, the
    statistics of the sentence-based chunks are defined; every chunk has at
    least one word; the word counts add up to at least the word count of
    the text; and there are at most as many chunks as sentences. *)
Theorem stats_of_sentence_chunks {F : Type} `{PyFloat F}
    (self : TextChunker) (document : string) :
  split document ≠ [] →
  ∃ stats : ChunkStats F,
    chunk_text self document "sentences"
    = Some (Chunks (chunk_by_sentences self document))
    ∧ get_chunk_stats (chunk_by_sentences self document) = StatsOf stats
    ∧ stats_method stats = SentenceBased
    ∧ 1 ≤ min_words stats
    ∧ count_words document ≤ total_words stats
    ∧ total_chunks stats ≤ len (split_into_sentences document).
Proof.
  intros Hne.
  assert (chunk_by_sentences self document ≠ []) as Hchunks
    by (intros E; by apply no_sentence_chunks in E).
  destruct (stats_defined (F := F) _ Hchunks) as [stats Hs].
  exists stats.
  destruct (stats_totals _ stats Hs) as [Hn Ht].
  pose proof (sentences_have_words document) as Hsent.
  pose proof (stats_method_of _ SentenceBased stats Hs) as Hm.
  pose proof (stats_min_bound (chunk_by_sentences self document) 1
                stats Hs) as Hb.
  rewrite chunk_by_sentences_groups in Hn, Ht, Hm, Hb.
  rewrite number_chunks_counts in Ht.
  pose proof (groups_loop_words self (split_into_sentences document) []) as Hw.
  pose proof (groups_loop_length self (split_into_sentences document) []) as Hl.
  pose proof (sentences_word_counts document) as Hsum.
  rewrite Hsum in Hw. change (sum (map count_words [])) with 0 in Hw.
  cbn [nonempty] in Hl. unfold len in Hn. rewrite number_chunks_length in Hn.
  split; [done|]. split; [done|].
  split; [apply Hm, number_chunks_methods|].
  split; [|unfold len; lia].
  apply Hb. apply Forall_forall. intros c Hc.
  apply list_elem_of_lookup in Hc as [i Hc].
  apply number_chunks_lookup in Hc as (g & Hg & ->).
  cbn [word_count].
  assert (Hin : g ∈ groups_loop self (split_into_sentences document) [])
    by (by apply list_elem_of_lookup_2 in Hg).
  destruct (groups_of_document self (split_into_sentences document))
    as [[_ E]|(g0 & gs & E & Hg0 & Hchain)];
    [rewrite E in Hin; by apply elem_of_nil in Hin|].
  rewrite E in Hin.
  destruct (seg_chain_segments _ _ _ _ _ _ Hchain Hg0 g Hin)
    as (Hgne & before & after & Hdoc).
  apply group_words; [done|].
  rewrite Hdoc in Hsent. by apply Forall_app in Hsent as [_ [Hg' _]%Forall_app].
Qed.

Lemma stats_of_sentence_chunks_witness :
  ∃ stats : ChunkStats PrimFloat.float,
    get_chunk_stats (chunk_by_sentences (mkTextChunker 3 0) "A. B b b b b. C.")
    = StatsOf stats
    ∧ stats_method stats = SentenceBased
    ∧ 1 ≤ min_words stats
    ∧ count_words "A. B b b b b. C." ≤ total_words stats
    ∧ total_chunks stats ≤ len (split_into_sentences "A. B b b b b. C.").
Proof.
  destruct (stats_of_sentence_chunks (F := PrimFloat.float)
              (mkTextChunker 3 0) "A. B b b b b. C.")
    as (stats & _ & Hs); [done|].
  by exists stats.
Defined.

(** X12. With an overlap that is not below the size the word-based loop
    stops after its first chunk, for every text with at least one word:
    the result is one chunk, and with a positive size it holds the first
    [chunk_size] words of the text and no other. *)
Theorem chunk_by_words_one_chunk (self : TextChunker) (document : string) :
  chunk_size self ≤ overlap self →
  split document ≠ [] →
  ∃ c, chunk_by_words self document = Some [c]
       ∧ chunk_id c = 0
       ∧ span c = WordSpan 0 (Z.min (chunk_size self) (len (split document)))
       ∧ (0 < chunk_size self →
            text c = join " " (take (Z.to_nat (chunk_size self)) (split document))
            ∧ word_count c = Z.min (chunk_size self) (len (split document))).
Proof.
  intros Hov Hne.
  assert (Hlen : 0 < len (split document)).
  { unfold len. destruct (split document); [done|]. simpl. lia. }
  exists (word_chunk self (split document) 0 0).
  unfold chunk_by_words, chunk_by_words_fuel.
  rewrite words_loop_iter by done.
  unfold next_end. cbn [word_chunk chunk_id span text word_count].
  unfold next_end. rewrite Z.add_0_l.
  destruct (Z.leb_spec (Z.min (chunk_size self) (len (split document))
                        - overlap self) 0); [|lia].
  split; [done|]. split; [done|]. split; [done|]. intros Hpos.
  assert (Hslice : slice (split document) 0
                     (Z.min (chunk_size self) (len (split document)))
                   = take (Z.to_nat (chunk_size self)) (split document)).
  { unfold slice, clamp_index.
    destruct (Z.ltb_spec (Z.min (chunk_size self) (len (split document))) 0);
      [lia|].
    change (0 <? 0) with false. cbv iota.
    replace (0 `min` len (split document)) with 0 by lia.
    rewrite Z.sub_0_r. change (Z.to_nat 0) with 0%nat. rewrite drop_0.
    destruct (Z.le_ge_cases (chunk_size self) (len (split document))).
    - by replace ((chunk_size self `min` len (split document))
                  `min` len (split document)) with (chunk_size self) by lia.
    - replace ((chunk_size self `min` len (split document))
               `min` len (split document)) with (len (split document)) by lia.
      unfold len in *. rewrite Nat2Z.id. rewrite !take_ge; [done|lia|lia]. }
  rewrite Hslice. split; [done|].
  unfold len. rewrite length_take. unfold len in *. lia.
Qed.

Lemma chunk_by_words_one_chunk_witness :
  ∃ c, chunk_by_words (mkTextChunker 2 2) "a b c d e" = Some [c]
       ∧ text c = "a b" ∧ span c = WordSpan 0 2.
Proof.
  destruct (chunk_by_words_one_chunk (mkTextChunker 2 2) "a b c d e")
    as (c & Hc & _ & Hspan & Htext); [simpl; lia|done|].
  exists c. split; [done|]. destruct Htext as [-> _]; [simpl; lia|].
  split; [reflexivity|]. by rewrite Hspan.
Defined.

End DocumentStats.

(** ** The order of the doubles *)

Module OrderFacts.
Import SpecFloat Notions.

Ltac compare_cases :=
  repeat match goal with
  | H : context [(?x ?= ?y)%Z] |- _ =>
      destruct (Z.compare_spec x y); try subst; try discriminate
  | |- context [(?x ?= ?y)%Z] =>
      destruct (Z.compare_spec x y); try subst
  | H : context [PosDef.Pos.compare_cont Eq ?x ?y] |- _ =>
      change (PosDef.Pos.compare_cont Eq x y) with (Pos.compare x y) in H;
      destruct (Pos.compare_spec x y); try subst; try discriminate
  | |- context [PosDef.Pos.compare_cont Eq ?x ?y] =>
      change (PosDef.Pos.compare_cont Eq x y) with (Pos.compare x y);
      destruct (Pos.compare_spec x y); try subst
  end.

(** From [s <= a] and [a < b], not [b < s]. *)
Lemma SFltb_chain a b s :
  SFltb a s = false → SFltb a b = true → SFltb b s = false.
Proof.
  unfold SFltb.
  destruct a as [[]| []| |[] ma ea], b as [[]| []| |[] mb eb],
           s as [[]| []| |[] ms es]; cbn; try done;
    intros H1 H2; compare_cases; simpl in *; try done; try lia.
Qed.

Lemma SFltb_irrefl a : SFltb a a = false.
Proof.
  unfold SFltb. destruct a as [[]| []| |[] m e]; cbn; try done.
  all: rewrite Z.compare_refl;
       change (PosDef.Pos.compare_cont Eq m m) with (Pos.compare m m);
       by rewrite Pos.compare_refl.
Qed.

Lemma SFltb_asym x y : SFltb x y = true → SFltb y x = false.
Proof.
  intros H. apply (SFltb_chain x y x); [apply SFltb_irrefl|done].
Qed.

(** From [y <= x] and [z <= y] for a number [y], [z <= x]. *)
Lemma SFltb_neg_trans x y z :
  SFeqb y y = true →
  SFltb x y = false → SFltb y z = false → SFltb x z = false.
Proof.
  unfold SFltb, SFeqb.
  destruct x as [[]| []| |[] mx ex], y as [[]| []| |[] my ey],
           z as [[]| []| |[] mz ez]; cbn; try done;
    intros _ H1 H2; compare_cases; simpl in *; try done; try lia.
Qed.

(** From [c <= a] and [a <= b], [c <= b]. *)
Lemma SFleb_trans c a b :
  SFleb c a = true → SFleb a b = true → SFleb c b = true.
Proof.
  unfold SFleb.
  destruct a as [[]| []| |[] ma ea], b as [[]| []| |[] mb eb],
           c as [[]| []| |[] mc ec]; cbn; try done;
    intros H1 H2; compare_cases; simpl in *; try done; try lia.
Qed.

Lemma ltb_chain (a b s : PrimFloat.float) :
  PrimFloat.ltb a s = false → PrimFloat.ltb a b = true →
  PrimFloat.ltb b s = false.
Proof. rewrite !FloatAxioms.ltb_spec. apply SFltb_chain. Qed.

Lemma ltb_irrefl (a : PrimFloat.float) : PrimFloat.ltb a a = false.
Proof. rewrite FloatAxioms.ltb_spec. apply SFltb_irrefl. Qed.

Lemma ltb_asym (x y : PrimFloat.float) :
  PrimFloat.ltb x y = true → PrimFloat.ltb y x = false.
Proof. rewrite !FloatAxioms.ltb_spec. apply SFltb_asym. Qed.

Lemma ltb_neg_trans (x y z : PrimFloat.float) :
  is_number y →
  PrimFloat.ltb x y = false → PrimFloat.ltb y z = false →
  PrimFloat.ltb x z = false.
Proof.
  unfold is_number. rewrite !FloatAxioms.ltb_spec, FloatAxioms.eqb_spec.
  apply SFltb_neg_trans.
Qed.

Lemma leb_trans (c a b : PrimFloat.float) :
  PrimFloat.leb c a = true → PrimFloat.leb a b = true →
  PrimFloat.leb c b = true.
Proof. rewrite !FloatAxioms.leb_spec. apply SFleb_trans. Qed.

Lemma Rltb_false (x y : R) : fltb x y = false ↔ (y <= x)%R.
Proof. simpl. destruct (Rlt_dec x y); split; try done; lra. Qed.

Lemma Rltb_true (x y : R) : fltb x y = true ↔ (x < y)%R.
Proof. simpl. destruct (Rlt_dec x y); split; try done; lra. Qed.

Lemma Rltb_chain (a b s : R) :
  fltb a s = false → fltb a b = true → fltb b s = false.
Proof. rewrite !Rltb_false, Rltb_true. lra. Qed.

Lemma Rltb_irrefl (a : R) : fltb a a = false.
Proof. rewrite Rltb_false. lra. Qed.

End OrderFacts.

(** ** Matching a question: theorems *)

Module FAQFacts.
Import Py Vocabulary Notions TextCleaner FAQFinder OrderFacts.

(** The loop of [expand_with_synonyms] after the words [X]: the set holds
    the words it began with and the synonyms listed for the words of [X]. *)
Lemma expand_loop (words : gset string) (x : string) (X : gset string) :
  x ∈ set_fold (fun word expanded =>
                  match synonyms !! word with
                  | Some l => expanded ∪ list_to_set l
                  | None => expanded
                  end) words X
  ↔ x ∈ words
    ∨ ∃ word l, word ∈ X ∧ synonyms !! word = Some l ∧ x ∈ l.
Proof.
  revert X.
  apply (set_fold_ind_L
    (fun (r : gset string) (X : gset string) =>
       x ∈ r ↔ x ∈ words
               ∨ ∃ word l, word ∈ X ∧ synonyms !! word = Some l ∧ x ∈ l)).
  - split; [by left|]. intros [?|(w & l & Hw & _)]; [done|].
    by apply elem_of_empty in Hw.
  - intros w X r Hw IH. destruct (synonyms !! w) as [l|] eqn:E.
    + rewrite elem_of_union, IH, elem_of_list_to_set. split.
      * intros [[?|(w' & l' & Hw' & Hl' & Hx)]|Hx]; [by left|right..].
        -- exists w', l'. split; [|done]. apply elem_of_union. by right.
        -- exists w, l. split; [|done]. apply elem_of_union. left.
           by apply elem_of_singleton.
      * intros [?|(w' & l' & [Hw'%elem_of_singleton|Hw']%elem_of_union
                   & Hl' & Hx)].
        -- by left; left.
        -- subst w'. rewrite E in Hl'. injection Hl' as <-. by right.
        -- left; right. eauto.
    + rewrite IH. split.
      * intros [?|(w' & l' & Hw' & Hl' & Hx)]; [by left|right].
        exists w', l'. split; [|done]. apply elem_of_union. by right.
      * intros [?|(w' & l' & [Hw'%elem_of_singleton|Hw']%elem_of_union
                   & Hl' & Hx)].
        -- by left.
        -- subst w'. by rewrite E in Hl'.
        -- right. eauto.
Qed.

(** X13. The expansion of a set of words holds these words and, for every
    one of them that is a key of the synonym table, the synonyms listed
    for it; it holds nothing else. Synonyms of synonyms are not added. *)
Theorem expand_with_synonyms_members (words : gset string) (x : string) :
  x ∈ expand_with_synonyms words
  ↔ x ∈ words
    ∨ ∃ word l, word ∈ words ∧ synonyms !! word = Some l ∧ x ∈ l.
Proof. unfold expand_with_synonyms. apply expand_loop. Qed.

Lemma expand_superset (words : gset string) : words ⊆ expand_with_synonyms words.
Proof. intros x Hx. apply expand_loop. by left. Qed.

Lemma expand_empty (words : gset string) :
  expand_with_synonyms words = ∅ ↔ words = ∅.
Proof.
  split.
  - intros H. pose proof (expand_superset words) as Hs. rewrite H in Hs.
    apply set_eq. intros x. split; [apply Hs|]. intros Hx.
    by apply elem_of_empty in Hx.
  - by intros ->.
Qed.

(** X14. The words that [find_answer] compares for a cleaned text: every
    word of the text that is not a stop word is among them; each of them
    is a word of the text or a listed synonym of a word of the text that
    is not a stop word; when all words of the text are stop words they are
    the words of the text; and they are no words at all only for a text
    without words. *)
Theorem token_set_members (clean : string) :
  (token_set clean = ∅ ↔ split clean = [])
  ∧ (∀ w, w ∈ split clean → w ∉ stop_words → w ∈ token_set clean)
  ∧ (∀ x, x ∈ token_set clean →
       x ∈ split clean
       ∨ ∃ w l, w ∈ split clean ∧ (w ∉ stop_words)
                ∧ synonyms !! w = Some l ∧ x ∈ l)
  ∧ ((∀ w, w ∈ split clean → w ∈ stop_words) →
     token_set clean = list_to_set (split clean)).
Proof.
  unfold token_set. cbn zeta.
  set (raw := (list_to_set (split clean) ∖ stop_words : gset string)).
  assert (Hraw : ∀ w, w ∈ raw ↔ w ∈ split clean ∧ w ∉ stop_words).
  { intros w. unfold raw. by rewrite elem_of_difference, elem_of_list_to_set. }
  assert (Hnil : (list_to_set (split clean) : gset string) = ∅
                 ↔ split clean = []).
  { split; [|by intros ->]. destruct (split clean) as [|w l]; [done|].
    intros H.
    assert (w ∈ (∅ : gset string)) as Hw; [|by apply elem_of_empty in Hw].
    rewrite <- H. apply elem_of_list_to_set. by left. }
  destruct (decide (expand_with_synonyms raw = ∅)) as [He|He].
  - pose proof (proj1 (expand_empty _) He) as He'.
    split; [done|]. split; [|split; [|done]].
    + intros w Hw Hns. exfalso.
      assert (w ∈ raw) as Hin by (by apply Hraw). rewrite He' in Hin.
      by apply elem_of_empty in Hin.
    + intros x Hx. left. by apply elem_of_list_to_set in Hx.
  - split; [|split; [|split]].
    + split; [done|]. intros Hs. exfalso. apply He, expand_empty.
      apply set_eq. intros x. rewrite Hraw, Hs.
      split; [by intros [H%elem_of_nil _]|].
      intros Hx. by apply elem_of_empty in Hx.
    + intros w Hw Hns. apply expand_superset. by apply Hraw.
    + intros x [Hx|(w & l & Hw & Hl & Hx)]%expand_loop.
      * left. by apply Hraw in Hx as [? _].
      * right. apply Hraw in Hw as [? ?]. by exists w, l.
    + intros Hall. exfalso. apply He, expand_empty.
      apply set_eq. intros x. rewrite Hraw. split.
      * intros [Hx Hns]. by apply Hall in Hx.
      * intros Hx. by apply elem_of_empty in Hx.
Qed.

Lemma token_set_members_witness :
  token_set "what is it" = list_to_set (split "what is it").
Proof.
  destruct (token_set_members "what is it") as (_ & _ & _ & H).
  apply H. intros w Hw. vm_compute in Hw.
  repeat (apply elem_of_cons in Hw as [->|Hw]; [by vm_compute|]).
  by apply elem_of_nil in Hw.
Defined.

Section Scan.
Context {F : Type} `{PyFloat F}.

Lemma scan_fold user_words entries :
  scan user_words entries = fold_left (step user_words) entries (None, of_int 0).
Proof.
  unfold scan. generalize (@None FAQ, of_int 0 : F).
  induction entries as [|faq entries IH]; intros st; [done|].
  cbn [fold_left]. rewrite IH. by destruct st.
Qed.

Lemma scan_snoc user_words entries faq :
  scan user_words (entries ++ [faq])
  = step user_words (scan user_words entries) faq.
Proof. by rewrite !scan_fold, fold_left_app. Qed.

(** A best match is an entry of the list and the best score is its score;
    without a best match the best score is still 0.0. *)
Lemma scan_match user_words entries : ∀ st,
  match fold_left (step user_words) entries st with
  | (Some m, s) =>
      (m ∈ entries
       ∧ s = score user_words (token_set (question_clean m)))
      ∨ (Some m, s) = st
  | (None, s) => fst st = None ∧ s = snd st
  end.
Proof.
  induction entries as [|faq entries IH]; intros st.
  - cbn [fold_left]. destruct st as [[m|] s]; [by right|done].
  - cbn [fold_left]. specialize (IH (step user_words st faq)).
    destruct (fold_left _ entries _) as [[m|] s].
    + destruct IH as [[Hm Hs]|Hst]; [left; split; [by right|done]|].
      unfold step in Hst. destruct (fltb _ _).
      * injection Hst as -> ->. left. split; [by left|done].
      * by right.
    + destruct IH as [Hm Hs]. unfold step in Hm, Hs.
      by destruct (fltb _ _).
Qed.

Lemma find_answer_cases (self : FAQFinder) (user_question : string)
    (threshold : F) :
  faqs self ≠ [] →
  find_answer self user_question threshold
  = let '(best_match, best_score) :=
      scan (token_set (clean_text user_question)) (faqs self) in
    if fltb best_score threshold then
      Ok {| ans_answer := "I couldn't find a good answer found.";
            confidence := best_score;
            matched_question := None |}
    else
      match best_match with
      | Some m => Ok {| ans_answer := answer m;
                        confidence := best_score;
                        matched_question := Some (question m) |}
      | None => Raise NoneNotSubscriptable
      end.
Proof. unfold find_answer. by destruct (faqs self). Qed.

(** X15. What [find_answer] returns, in any arithmetic. With a matched
    question: the question and the answer are those of one loaded entry,
    the confidence is the score of this entry, and it is not below the
    threshold. Without one: no entry is loaded, with the fixed answer for
    that and confidence 0.0, or entries are loaded, with the other fixed
    answer and a confidence below the threshold. *)
Theorem find_answer_from_entries (self : FAQFinder) (user_question : string)
    (threshold : F) (r : Answer F) :
  find_answer self user_question threshold = Ok r →
  match matched_question r with
  | Some q =>
      ∃ faq, faq ∈ faqs self
             ∧ q = question faq ∧ ans_answer r = answer faq
             ∧ confidence r = entry_score user_question faq
             ∧ fltb (confidence r) threshold = false
  | None =>
      (faqs self = [] ∧ ans_answer r = "No FAQs loaded."
       ∧ confidence r = of_int 0)
      ∨ (faqs self ≠ [] ∧ ans_answer r = "I couldn't find a good answer found."
         ∧ fltb (confidence r) threshold = true)
  end.
Proof.
  destruct (decide (faqs self = [])) as [E|E].
  - unfold find_answer. rewrite E. intros [= <-]. by left.
  - rewrite (find_answer_cases _ _ _ E), scan_fold.
    pose proof (scan_match (token_set (clean_text user_question)) (faqs self)
                  (None, of_int 0)) as Hm.
    destruct (fold_left _ _ _) as [bm bs].
    destruct (fltb bs threshold) eqn:Hlt.
    + intros [= <-]. by right.
    + destruct bm as [m|]; [|done]. intros [= <-]. cbn.
      destruct Hm as [[Hm Hs]|?]; [|done]. by exists m.
Qed.

(** X16. With a threshold above 0.0, as the default 0.15 is, [find_answer]
    returns for every list of entries and every question; it raises
    nothing. *)
Theorem find_answer_returns (self : FAQFinder) (user_question : string)
    (threshold : F) :
  fltb (of_int 0) threshold = true →
  ∃ r, find_answer self user_question threshold = Ok r.
Proof.
  intros Hpos. destruct (decide (faqs self = [])) as [E|E].
  - unfold find_answer. rewrite E. by eexists.
  - rewrite (find_answer_cases _ _ _ E), scan_fold.
    pose proof (scan_match (token_set (clean_text user_question)) (faqs self)
                  (None, of_int 0)) as Hm.
    destruct (fold_left _ _ _) as [bm bs].
    destruct (fltb bs threshold) eqn:Hlt; [by eexists|].
    destruct bm as [m|]; [by eexists|].
    destruct Hm as [_ Hs]. cbn in Hs. subst bs. congruence.
Qed.

Hypothesis lt_irrefl : ∀ x : F, fltb x x = false.
Hypothesis lt_chain : ∀ a b s : F,
  fltb a s = false → fltb a b = true → fltb b s = false.

(** After the loop no entry scores above the best score, and the best match
    is the first entry that has it. *)
Lemma scan_best user_words entries :
  let '(best_match, best_score) := scan user_words entries in
  (∀ faq, faq ∈ entries →
     fltb best_score (score user_words (token_set (question_clean faq))) = false)
  ∧ match best_match with
    | Some m =>
        ∃ i : nat, entries !! i = Some m
          ∧ best_score = score user_words (token_set (question_clean m))
          ∧ ∀ (j : nat) faq, (j < i)%nat → entries !! j = Some faq →
              score user_words (token_set (question_clean faq)) ≠ best_score
    | None => best_score = of_int 0
    end.
Proof.
  induction entries as [|faq entries IH] using rev_ind.
  - cbn. split; [|done]. intros faq Hin. by apply elem_of_nil in Hin.
  - rewrite scan_snoc. destruct (scan user_words entries) as [bm bs].
    destruct IH as [Hmax Hfirst]. unfold step. cbn [snd].
    destruct (fltb bs _) eqn:Hlt.
    + split.
      * intros faq' [Hin| ->%list_elem_of_singleton]%elem_of_app;
          [|apply lt_irrefl].
        apply (lt_chain bs); [by apply Hmax|done].
      * exists (length entries). split; [by apply list_lookup_middle|].
        split; [done|]. intros j faq' Hj Hfaq' Heq.
        rewrite lookup_app_l in Hfaq' by done.
        apply list_elem_of_lookup_2, Hmax in Hfaq'. congruence.
    + split.
      * intros faq' [Hin| ->%list_elem_of_singleton]%elem_of_app;
          [by apply Hmax|done].
      * destruct bm as [m|]; [|done].
        destruct Hfirst as (i & Hi & Hs & Hbefore). exists i.
        pose proof (lookup_lt_Some _ _ _ Hi) as Hlen.
        split; [by rewrite lookup_app_l|]. split; [done|].
        intros j faq' Hj Hfaq'. rewrite lookup_app_l in Hfaq' by lia. eauto.
Qed.

Lemma find_answer_best_any (self : FAQFinder) (user_question : string)
    (threshold : F) (r : Answer F) :
  find_answer self user_question threshold = Ok r →
  (∀ faq, faq ∈ faqs self →
     fltb (confidence r) (entry_score user_question faq) = false)
  ∧ ∀ q, matched_question r = Some q →
      ∃ (i : nat) m, faqs self !! i = Some m ∧ q = question m
        ∧ confidence r = entry_score user_question m
        ∧ ∀ (j : nat) faq, (j < i)%nat → faqs self !! j = Some faq →
            entry_score user_question faq ≠ confidence r.
Proof.
  destruct (decide (faqs self = [])) as [E|E].
  { unfold find_answer. rewrite E. intros [= <-]. split; [|done].
    intros faq Hin. by apply elem_of_nil in Hin. }
  intros Hr. rewrite (find_answer_cases _ _ _ E) in Hr.
  pose proof (scan_best (token_set (clean_text user_question)) (faqs self)) as Hb.
  destruct (scan _ _) as [bm bs]. destruct Hb as [Hmax Hfirst].
  destruct (fltb bs threshold).
  - injection Hr as <-. split; [done|]. by intros q.
  - destruct bm as [m|]; [|done]. injection Hr as <-.
    split; [done|]. cbn. intros q [= <-].
    destruct Hfirst as (i & Hi & Hs & Hbefore). by exists i, m.
Qed.

End Scan.

End FAQFacts.

(** ** The best match in both arithmetics: theorems *)

Module FAQBest.
Import Py Vocabulary Notions TextCleaner FAQFinder OrderFacts FAQFacts.

Lemma find_answer_from_entries_witness :
  ∃ faq, faq ∈ faqs register_finder
         ∧ "How do I register?" = question faq
         ∧ "Click the register button." = answer faq.
Proof.
  assert (Hr : find_answer register_finder "How can I sign up?" double_0_15
               = Ok {| ans_answer := "Click the register button.";
                       confidence :=
                         PrimFloat.div (double_of_int 5) (double_of_int 6);
                       matched_question := Some "How do I register?" |})
    by (by vm_compute).
  pose proof (find_answer_from_entries _ _ _ _ Hr) as Hw.
  cbn [matched_question ans_answer] in Hw.
  destruct Hw as (faq & Hin & Hq & Ha & _).
  exists faq. split; [exact Hin|]. split; [exact Hq|exact Ha].
Defined.

Lemma find_answer_returns_witness :
  ∃ r, find_answer register_finder "pizza" double_0_15 = Ok r.
Proof. apply find_answer_returns. reflexivity. Defined.

(** X17. The match is the best and the earliest, in binary64 and in exact
    arithmetic: no loaded entry scores above the confidence that
    [find_answer] returns, and when a question is matched it is the
    question of the first entry whose score is the confidence; the
    entries before it score otherwise, so on the reals lower. *)
Theorem find_answer_best (self : FAQFinder) (user_question : string) :
  (∀ (threshold : PrimFloat.float) r,
     find_answer self user_question threshold = Ok r →
     (∀ faq, faq ∈ faqs self →
        PrimFloat.ltb (confidence r) (entry_score user_question faq) = false)
     ∧ ∀ q, matched_question r = Some q →
         ∃ (i : nat) m, faqs self !! i = Some m ∧ q = question m
           ∧ confidence r = entry_score user_question m
           ∧ ∀ (j : nat) faq, (j < i)%nat → faqs self !! j = Some faq →
               entry_score user_question faq ≠ confidence r)
  ∧ (∀ (threshold : R) r,
       find_answer self user_question threshold = Ok r →
       (∀ faq, faq ∈ faqs self →
          (entry_score user_question faq <= confidence r)%R)
       ∧ ∀ q, matched_question r = Some q →
           ∃ (i : nat) m, faqs self !! i = Some m ∧ q = question m
             ∧ confidence r = entry_score user_question m
             ∧ ∀ (j : nat) faq, (j < i)%nat → faqs self !! j = Some faq →
                 (entry_score user_question faq < confidence r)%R).
Proof.
  split.
  - intros threshold r Hr.
    by apply (@find_answer_best_any _ binary64 ltb_irrefl ltb_chain self
                user_question threshold).
  - intros threshold r Hr.
    destruct (@find_answer_best_any _ exact Rltb_irrefl Rltb_chain self
                user_question threshold r Hr) as [Hmax Hfirst].
    assert (Hle : ∀ faq, faq ∈ faqs self →
              (entry_score user_question faq <= confidence r)%R).
    { intros faq Hin. by apply Rltb_false, Hmax. }
    split; [done|]. intros q Hq.
    destruct (Hfirst q Hq) as (i & m & Hi & -> & Hc & Hbefore).
    exists i, m. repeat split; [done..|].
    intros j faq Hj Hfaq. specialize (Hbefore j faq Hj Hfaq).
    apply list_elem_of_lookup_2, Hle in Hfaq. lra.
Qed.

Lemma find_answer_best_witness :
  ∃ (i : nat) m, faqs register_finder !! i = Some m
                 ∧ "How do I register?" = question m.
Proof.
  assert (Hr : find_answer register_finder "How can I sign up?" double_0_15
               = Ok {| ans_answer := "Click the register button.";
                       confidence :=
                         PrimFloat.div (double_of_int 5) (double_of_int 6);
                       matched_question := Some "How do I register?" |})
    by (by vm_compute).
  destruct (find_answer_best register_finder "How can I sign up?") as [Hd _].
  destruct (Hd _ _ Hr) as [_ Hfirst].
  destruct (Hfirst _ eq_refl) as (i & m & Hi & Hq & _).
  exists i, m. split; [exact Hi|exact Hq].
Defined.

End FAQBest.

(** ** Loading entries from a file: theorems *)

Module FileFacts.
Import Py Vocabulary Notions PyFacts FAQFinder FAQFile.

Lemma partition_at_spec c s :
  has_char c s = true →
  ∃ p r, partition_at c s = (p, Some r)
         ∧ s = p +:+ String c r ∧ has_char c p = false.
Proof.
  induction s as [|a s IH]; [done|]. cbn [has_char partition_at].
  destruct (decide (a = c)) as [->|Hac].
  - intros _. by exists EmptyString, s.
  - intros (p & r & -> & -> & Hp)%IH. exists (String a p), r.
    repeat split. cbn [has_char]. by rewrite decide_False.
Qed.

Lemma has_char_lstrip c s :
  isspace c = false → has_char c (lstrip s) = has_char c s.
Proof.
  intros Hc. induction s as [|a s IH]; [done|]. cbn [lstrip has_char].
  destruct (isspace a) eqn:Ha; [|done].
  rewrite IH. destruct (decide (a = c)) as [->|]; [congruence|done].
Qed.

Lemma has_char_rstrip c s :
  isspace c = false → has_char c (rstrip s) = has_char c s.
Proof.
  intros Hc. induction s as [|a s IH]; [done|]. cbn [rstrip has_char].
  destruct (rstrip s) as [|d r] eqn:Hr.
  - rewrite <- IH. cbn [has_char].
    destruct (isspace a) eqn:Ha; cbn [has_char];
      destruct (decide (a = c)) as [->|]; congruence.
  - cbn [has_char] in *. by rewrite IH.
Qed.

Lemma has_char_strip c s :
  isspace c = false → has_char c (strip s) = has_char c s.
Proof.
  intros Hc. unfold strip. by rewrite has_char_lstrip, has_char_rstrip.
Qed.

Lemma load_line_bar self line :
  has_bar line = true →
  ∃ faq, load_line self line = Some {| faqs := faqs self ++ [faq] |}
         ∧ entry_of_line line faq.
Proof.
  unfold has_bar. intros Hbar. unfold load_line.
  rewrite <- (has_char_strip bar line) in Hbar by done.
  change "|"%char with bar. rewrite Hbar.
  destruct (partition_at_spec _ _ Hbar) as (q & a & Hp & Hline & Hq).
  unfold split_once. rewrite Hp.
  assert (nonempty_str (strip line) = true) as -> by (by destruct (strip line)).
  cbn [andb]. eexists. split; [reflexivity|].
  exists q, a. by repeat split.
Qed.

Lemma load_line_no_bar self line :
  has_bar line = false → load_line self line = Some self.
Proof.
  unfold has_bar. intros Hbar. unfold load_line.
  rewrite <- (has_char_strip bar line) in Hbar by done.
  change "|"%char with bar. by rewrite Hbar, andb_false_r.
Qed.

Lemma load_lines_entries lines : ∀ self,
  ∃ added,
    load_lines self lines = ({| faqs := faqs self ++ added |}, true)
    ∧ Forall2 entry_of_line (filter (fun line => has_bar line = true) lines)
              added.
Proof.
  induction lines as [|line lines IH]; intros self.
  - exists []. rewrite app_nil_r. by destruct self.
  - cbn [load_lines]. rewrite filter_cons.
    destruct (has_bar line) eqn:Hbar.
    + destruct (load_line_bar self line Hbar) as (faq & -> & Hfaq).
      destruct (IH {| faqs := faqs self ++ [faq] |}) as (added & -> & Hadded).
      exists (faq :: added). cbn [faqs]. rewrite <- app_assoc.
      split; [done|]. rewrite decide_True by done. by constructor.
    + rewrite (load_line_no_bar self line Hbar).
      destruct (IH self) as (added & -> & Hadded).
      exists added. split; [done|]. by rewrite decide_False by done.
Qed.

(** X18. Loading a file reads every line: the unpacking of the two fields
    never fails. The entries that were loaded before stay, in their
    order, and after them comes one entry for every line that has a bar,
    in the order of the lines: its question is the text before the first
    bar of the line and its answer the text after it, both without
    whitespace around, and the question is stored cleaned as well. Lines
    without a bar add nothing, and a file that cannot be opened leaves the
    entries as they are. *)
Theorem load_from_file_entries (self : FAQFinder) (lines : list string) :
  snd (load_lines self lines) = true
  ∧ (∃ added,
       faqs (load_from_file self (Some lines)) = faqs self ++ added
       ∧ Forall2 entry_of_line
                 (filter (fun line => has_bar line = true) lines) added)
  ∧ load_from_file self None = self.
Proof.
  destruct (load_lines_entries lines self) as (added & H & Hadded).
  unfold load_from_file. rewrite H. split; [done|].
  split; [by exists added|done].
Qed.

End FileFacts.

(** ** Labels and rankings: theorems *)

Module ComparisonFacts.
Import Py Vocabulary Notions SemanticSimilarity Comparison OrderFacts.
Import SimilarityClaims.
Import Stdlib.Sorting.Sorted.

(** X19. The label of a score never gets weaker when the score grows: for
    doubles [score1 <= score2] the label of [score1] is at most as strong
    as the label of [score2]. *)
Theorem interpret_similarity_monotone (score1 score2 : PrimFloat.float) :
  PrimFloat.leb score1 score2 = true →
  (label_rank (interpret_similarity score1)
   ≤ label_rank (interpret_similarity score2))%nat.
Proof.
  intros Hle.
  assert (Hup : ∀ c, PrimFloat.leb c score1 = true → PrimFloat.leb c score2 = true)
    by (intros c Hc; by apply (leb_trans c score1 score2)).
  pose proof (Hup double_0_9) as H9. pose proof (Hup double_0_7) as H7.
  pose proof (Hup double_0_5) as H5. pose proof (Hup double_0_3) as H3.
  unfold interpret_similarity.
  destruct (PrimFloat.leb double_0_9 score1);
    [rewrite H9 by done; vm_compute; lia|].
  destruct (PrimFloat.leb double_0_7 score1);
    [rewrite H7 by done; destruct (PrimFloat.leb double_0_9 score2);
     vm_compute; lia|].
  destruct (PrimFloat.leb double_0_5 score1);
    [rewrite H5 by done;
     destruct (PrimFloat.leb double_0_9 score2),
              (PrimFloat.leb double_0_7 score2);
     vm_compute; lia|].
  destruct (PrimFloat.leb double_0_3 score1);
    [rewrite H3 by done;
     destruct (PrimFloat.leb double_0_9 score2),
              (PrimFloat.leb double_0_7 score2),
              (PrimFloat.leb double_0_5 score2);
     vm_compute; lia|].
  change (label_rank "Quite different") with 0%nat. lia.
Qed.

Lemma interpret_similarity_monotone_witness :
  (label_rank (interpret_similarity double_0_5)
   ≤ label_rank (interpret_similarity double_0_9))%nat
  ∧ interpret_similarity double_0_5 = "Somewhat similar"
  ∧ interpret_similarity double_0_9 = "Nearly identical!".
Proof.
  split; [|split; reflexivity].
  apply interpret_similarity_monotone. reflexivity.
Defined.

Section Sorting.
Context {A K : Type} (lt : K → K → bool) (key : A → K).

Local Abbreviation falls := (falls lt key).

Lemma insert_desc_perm x l : insert_desc lt key x l ≡ₚ x :: l.
Proof.
  induction l as [|y l IH]; [done|]. cbn [insert_desc].
  destruct (lt (key x) (key y)); [|done].
  rewrite IH. apply Permutation_swap.
Qed.

Lemma sorted_desc_perm l : sorted_desc lt key l ≡ₚ l.
Proof.
  induction l as [|x l IH]; [done|].
  cbn [sorted_desc foldr]. fold (sorted_desc lt key l).
  by rewrite insert_desc_perm, IH.
Qed.

Lemma insert_desc_head x l :
  Forall (falls x) l → insert_desc lt key x l = x :: l.
Proof.
  destruct l as [|y l]; [done|]. intros [Hy _]%Forall_cons.
  cbn. unfold Notions.falls in Hy. by rewrite Hy.
Qed.

(** A list in falling order is not changed. *)
Lemma sorted_desc_fixed l :
  StronglySorted falls l → sorted_desc lt key l = l.
Proof.
  induction 1 as [|x l Hl IH Hx]; [done|].
  cbn [sorted_desc foldr]. fold (sorted_desc lt key l).
  rewrite IH. by apply insert_desc_head.
Qed.

Variable number : A → Prop.
Hypothesis lt_asym : ∀ x y, lt x y = true → lt y x = false.
Hypothesis lt_neg_trans : ∀ x y z, number y →
  lt (key x) (key y) = false → lt (key y) (key z) = false →
  lt (key x) (key z) = false.

Lemma insert_desc_sorted x l :
  Forall number l →
  StronglySorted falls l → StronglySorted falls (insert_desc lt key x l).
Proof.
  intros Hn. induction 1 as [|y l Hl IH Hy]; [by repeat constructor|].
  apply Forall_cons in Hn as [Hny Hn].
  cbn [insert_desc]. destruct (lt (key x) (key y)) eqn:Hxy.
  - constructor; [by apply IH|].
    rewrite insert_desc_perm. constructor; [|done]. by apply lt_asym.
  - constructor; [by constructor|]. constructor; [done|].
    apply (Forall_impl _ _ _ Hy). intros z Hz. by apply (lt_neg_trans x y z).
Qed.

Lemma sorted_desc_sorted l :
  Forall number l → StronglySorted falls (sorted_desc lt key l).
Proof.
  induction l as [|x l IH]; [constructor|]. intros [Hx Hl]%Forall_cons.
  cbn [sorted_desc foldr]. apply insert_desc_sorted; [|by apply IH].
  fold (sorted_desc lt key l). by rewrite sorted_desc_perm.
Qed.

End Sorting.

End ComparisonFacts.

(** ** Comparing one vector with many: theorems *)

Module RankingFacts.
Import Py Vocabulary Notions SemanticSimilarity Comparison OrderFacts.
Import SimilarityClaims ComparisonFacts.
Import Stdlib.Sorting.Sorted.
Import (notations) Stdlib.Floats.PrimFloat.

Section Each.
Context {F : Type} `{PyFloat F}.

Lemma compare_each_scores base_vec compare_vecs : ∀ scored,
  compare_each base_vec compare_vecs = Ok scored →
  scores_of base_vec compare_vecs scored.
Proof.
  induction compare_vecs as [|[name vec] rest IH]; intros scored.
  - intros [= <-]. constructor.
  - cbn [compare_each].
    destruct (cosine_similarity base_vec vec) as [s|e] eqn:Hs; [|done].
    cbn [bind].
    destruct (compare_each base_vec rest) as [results|e]; [|done].
    intros [= <-]. constructor; [done|]. by apply IH.
Qed.

Lemma compare_each_ok base_vec compare_vecs :
  Forall (fun item => ∃ s, cosine_similarity base_vec (snd item) = Ok s)
         compare_vecs →
  ∃ scored, compare_each base_vec compare_vecs = Ok scored.
Proof.
  induction 1 as [|[name vec] rest [s Hs] _ [scored IH]]; [by eexists|].
  cbn [compare_each]. cbn [snd] in Hs. rewrite Hs, IH. by eexists.
Qed.

Lemma compare_each_raise base_vec before name vec rest e :
  Forall (fun item => ∃ s, cosine_similarity base_vec (snd item) = Ok s) before →
  cosine_similarity base_vec vec = Raise e →
  compare_each base_vec (before ++ (name, vec) :: rest) = Raise e.
Proof.
  intros Hb He. induction Hb as [|[name' vec'] before [s Hs] _ IH].
  - cbn. by rewrite He.
  - cbn [app compare_each]. cbn [snd] in Hs. by rewrite Hs, IH.
Qed.

Lemma scores_of_unique base_vec compare_vecs scored : ∀ scored',
  scores_of base_vec compare_vecs scored →
  scores_of base_vec compare_vecs scored' → scored = scored'.
Proof.
  intros scored' Hs. revert scored'.
  induction Hs as [|item [n s] rest rest' [Hn Hc] _ IH];
    intros scored' Hs'; inversion Hs' as [|? [n' s'] ? rest'' [Hn' Hc'] Hrest];
    subst; [done|].
  cbn [fst snd] in *. f_equal; [|by apply IH]. congruence.
Qed.

(** X20. In any arithmetic, when [compare_multiple] returns, its result
    has one score for every name of the dictionary: the score is the
    cosine similarity of the base vector and the vector of this name, and
    the result is these pairs in another order. *)
Theorem compare_multiple_scores (base_vec : list F)
    (compare_vecs : list (string * list F)) (results : list (string * F)) :
  compare_multiple base_vec compare_vecs = Ok results →
  ∃ scored, scores_of base_vec compare_vecs scored
            ∧ results ≡ₚ scored
            ∧ map fst results ≡ₚ map fst compare_vecs.
Proof.
  unfold compare_multiple.
  destruct (compare_each base_vec compare_vecs) as [scored|e] eqn:Hs; [|done].
  intros [= <-]. exists scored. pose proof (compare_each_scores _ _ _ Hs) as Hsc.
  split; [done|]. split; [apply sorted_desc_perm|].
  rewrite sorted_desc_perm.
  clear Hs. induction Hsc as [|item result rest rest' [Hn _] _ IH]; [done|].
  cbn [map]. by rewrite Hn, IH.
Qed.

Hypothesis same_length_ok : ∀ vec1 vec2 : list F,
  length vec1 = length vec2 → ∃ x, cosine_similarity vec1 vec2 = Ok x.

Lemma cosine_ok_iff (vec1 vec2 : list F) :
  (∃ x, cosine_similarity vec1 vec2 = Ok x) ↔ length vec1 = length vec2.
Proof.
  split; [|apply same_length_ok]. intros [x Hx].
  destruct (decide (length vec1 = length vec2)) as [|Hne]; [done|].
  apply cosine_similarity_mismatch in Hne as (n1 & n2 & Hr). congruence.
Qed.

Lemma compare_multiple_lengths_any (base_vec : list F)
    (compare_vecs : list (string * list F)) :
  ((∃ results, compare_multiple base_vec compare_vecs = Ok results)
   ↔ Forall (fun item => length (snd item) = length base_vec) compare_vecs)
  ∧ ∀ before name vec rest,
      compare_vecs = before ++ (name, vec) :: rest →
      Forall (fun item => length (snd item) = length base_vec) before →
      length vec ≠ length base_vec →
      compare_multiple base_vec compare_vecs
      = Raise (DimensionMismatch (len base_vec) (len vec)).
Proof.
  split; [split|].
  - intros [results Hr]. unfold compare_multiple in Hr.
    destruct (compare_each base_vec compare_vecs) as [scored|e] eqn:Hs; [|done].
    apply compare_each_scores in Hs. clear Hr.
    induction Hs as [|item result rest rest' [_ Hc] _ IH]; constructor; [|done].
    symmetry. apply cosine_ok_iff. eauto.
  - intros Hall. destruct (compare_each_ok base_vec compare_vecs) as [scored Hs].
    { apply (Forall_impl _ _ _ Hall). intros item Hi. by apply cosine_ok_iff. }
    unfold compare_multiple. rewrite Hs. by eexists.
  - intros before name vec rest -> Hb Hne. unfold compare_multiple.
    rewrite (compare_each_raise base_vec before name vec rest
               (DimensionMismatch (len base_vec) (len vec))); [done| |].
    + apply (Forall_impl _ _ _ Hb). intros item Hi. by apply cosine_ok_iff.
    + unfold cosine_similarity, len.
      destruct (Z.eqb_spec (Z.of_nat (length base_vec)) (Z.of_nat (length vec)));
        [lia|done].
Qed.

End Each.

Lemma compare_multiple_scores_witness :
  ∃ scored,
    scores_of [1%float; 0%float]
      [("a", [0%float; 1%float]); ("b", [1%float; 0%float])] scored
    ∧ [("b", 1%float); ("a", 0%float)] ≡ₚ scored.
Proof.
  assert (Hr : compare_multiple [1%float; 0%float]
                 [("a", [0%float; 1%float]); ("b", [1%float; 0%float])]
               = Ok [("b", 1%float); ("a", 0%float)])
    by (vm_compute; reflexivity).
  destruct (compare_multiple_scores _ _ _ Hr) as (scored & Hs & Hp & _).
  exists scored. split; [exact Hs|exact Hp].
Defined.

Lemma double_same_length_ok (vec1 vec2 : list PrimFloat.float) :
  length vec1 = length vec2 → ∃ x, cosine_similarity vec1 vec2 = Ok x.
Proof.
  intros Hl. rewrite (cosine_similarity_double _ _ Hl).
  destruct (_ || _); by eexists.
Qed.

Lemma real_same_length_ok (vec1 vec2 : list R) :
  length vec1 = length vec2 → ∃ x, cosine_similarity vec1 vec2 = Ok x.
Proof.
  intros Hl. rewrite (cosine_similarity_real _ _ Hl).
  destruct (_ || _); by eexists.
Qed.

(** X21. In binary64 and in exact arithmetic [compare_multiple] returns
    exactly when every vector of the dictionary has the length of the base
    vector. Otherwise it raises the length error of [cosine_similarity]
    for the first vector, in the order of the dictionary, whose length
    differs, and no result is returned for the vectors before it. *)
Theorem compare_multiple_lengths :
  (∀ (base_vec : list PrimFloat.float) compare_vecs,
     ((∃ results, compare_multiple base_vec compare_vecs = Ok results)
      ↔ Forall (fun item => length (snd item) = length base_vec) compare_vecs)
     ∧ ∀ before name vec rest,
         compare_vecs = before ++ (name, vec) :: rest →
         Forall (fun item => length (snd item) = length base_vec) before →
         length vec ≠ length base_vec →
         compare_multiple base_vec compare_vecs
         = Raise (DimensionMismatch (len base_vec) (len vec)))
  ∧ (∀ (base_vec : list R) compare_vecs,
       ((∃ results, compare_multiple base_vec compare_vecs = Ok results)
        ↔ Forall (fun item => length (snd item) = length base_vec) compare_vecs)
       ∧ ∀ before name vec rest,
           compare_vecs = before ++ (name, vec) :: rest →
           Forall (fun item => length (snd item) = length base_vec) before →
           length vec ≠ length base_vec →
           compare_multiple base_vec compare_vecs
           = Raise (DimensionMismatch (len base_vec) (len vec))).
Proof.
  split; intros base_vec compare_vecs.
  - apply (@compare_multiple_lengths_any _ binary64 double_same_length_ok).
  - apply (@compare_multiple_lengths_any _ exact real_same_length_ok).
Qed.

Lemma compare_multiple_lengths_witness :
  compare_multiple [1%float; 0%float]
    [("a", [0%float; 1%float]); ("b", [1%float]); ("c", [])]
  = Raise (DimensionMismatch 2 1).
Proof.
  destruct compare_multiple_lengths as [Hd _].
  destruct (Hd [1%float; 0%float]
              [("a", [0%float; 1%float]); ("b", [1%float]); ("c", [])])
    as [_ Hraise].
  apply (Hraise [("a", [0%float; 1%float])] "b" [1%float] [("c", [])]).
  - reflexivity.
  - repeat constructor.
  - simpl. lia.
Defined.

(** X22. The result of [compare_multiple] is in falling order of
    similarity, and items that are already in falling order keep their
    places, so that equal scores stay in the order of the dictionary. In
    binary64 this is so when every score is a number. *)
Theorem compare_multiple_sorted :
  (∀ (base_vec : list PrimFloat.float) compare_vecs results,
     compare_multiple base_vec compare_vecs = Ok results →
     Forall (fun result => is_number (snd result)) results →
     StronglySorted (fun a b => PrimFloat.ltb (snd a) (snd b) = false) results
     ∧ ∀ scored, scores_of base_vec compare_vecs scored →
         StronglySorted (fun a b => PrimFloat.ltb (snd a) (snd b) = false) scored →
         results = scored)
  ∧ (∀ (base_vec : list R) compare_vecs results,
       compare_multiple base_vec compare_vecs = Ok results →
       StronglySorted (fun a b => (snd b <= snd a)%R) results
       ∧ ∀ scored, scores_of base_vec compare_vecs scored →
           StronglySorted (fun a b => (snd b <= snd a)%R) scored →
           results = scored).
Proof.
  split.
  - intros base_vec compare_vecs results Hr Hnum. unfold compare_multiple in Hr.
    destruct (compare_each base_vec compare_vecs) as [scored0|e] eqn:Hs; [|done].
    injection Hr as <-. split.
    + refine (sorted_desc_sorted PrimFloat.ltb snd
                (fun result => is_number (snd result)) _ _ scored0 _).
      * apply ltb_asym.
      * intros x y z. apply ltb_neg_trans.
      * by rewrite sorted_desc_perm in Hnum.
    + intros scored Hsc Hsorted.
      rewrite (scores_of_unique _ _ _ _ Hsc (compare_each_scores _ _ _ Hs)) in *.
      by refine (sorted_desc_fixed PrimFloat.ltb snd scored0 _).
  - intros base_vec compare_vecs results Hr. unfold compare_multiple in Hr.
    destruct (compare_each base_vec compare_vecs) as [scored0|e] eqn:Hs; [|done].
    injection Hr as <-.
    assert (Hrel : ∀ l : list (string * R),
              StronglySorted (fun a b => (snd b <= snd a)%R) l
              ↔ StronglySorted (falls (fltb (F := R)) snd) l).
    { intros l. split; induction 1 as [|a l Hl IH Ha]; constructor; try done;
        apply (Forall_impl _ _ _ Ha); intros b; unfold falls;
        by rewrite Rltb_false. }
    split.
    + apply Hrel.
      refine (sorted_desc_sorted (fltb (F := R)) snd (fun _ => True) _ _
                scored0 _).
      * intros x y. rewrite Rltb_true, Rltb_false. lra.
      * intros x y z _. rewrite !Rltb_false. lra.
      * by apply Forall_forall.
    + intros scored Hsc Hsorted.
      rewrite (scores_of_unique _ _ _ _ Hsc (compare_each_scores _ _ _ Hs)) in *.
      refine (sorted_desc_fixed (fltb (F := R)) snd scored0 _). by apply Hrel.
Qed.

Lemma compare_multiple_sorted_witness :
  StronglySorted (fun a b => PrimFloat.ltb (snd a) (snd b) = false)
    [("b", 1%float); ("a", 0%float)].
Proof.
  assert (Hr : compare_multiple [1%float; 0%float]
                 [("a", [0%float; 1%float]); ("b", [1%float; 0%float])]
               = Ok [("b", 1%float); ("a", 0%float)])
    by (vm_compute; reflexivity).
  destruct compare_multiple_sorted as [Hd _].
  destruct (Hd _ _ _ Hr) as [Hs _].
  - repeat constructor.
  - exact Hs.
Defined.

End RankingFacts.

(** ** Laws of the cosine similarity: theorems *)

Module CosineFacts.
Import Py Vocabulary Notions SemanticSimilarity SimilarityClaims.
Import (notations) Stdlib.Floats.PrimFloat.

Lemma SFmul_comm prec emax x y :
  SpecFloat.SFmul prec emax x y = SpecFloat.SFmul prec emax y x.
Proof.
  destruct x as [sx|sx| |sx mx ex], y as [sy|sy| |sy my ey]; cbn;
    rewrite ?(xorb_comm sx sy); try done.
  by rewrite (Pos.mul_comm mx my), (Z.add_comm ex ey).
Qed.

Lemma mul_comm (x y : PrimFloat.float) : PrimFloat.mul x y = PrimFloat.mul y x.
Proof.
  apply FloatAxioms.Prim2SF_inj. rewrite !FloatAxioms.mul_spec.
  apply SFmul_comm.
Qed.

Section Symmetry.
Context {F : Type} `{PyFloat F}.
Hypothesis fmul_comm : ∀ x y : F, fmul x y = fmul y x.

Lemma dot_product_comm (vec1 vec2 : list F) :
  dot_product vec1 vec2 = dot_product vec2 vec1.
Proof.
  unfold dot_product. f_equal. revert vec2.
  induction vec1 as [|a vec1 IH]; intros [|b vec2]; try done.
  cbn. by rewrite fmul_comm, IH.
Qed.

Lemma cosine_similarity_comm (vec1 vec2 : list F) :
  length vec1 = length vec2 →
  cosine_similarity vec1 vec2 = cosine_similarity vec2 vec1.
Proof.
  intros Hl. unfold cosine_similarity, len. rewrite Hl, Z.eqb_refl. cbn [negb].
  rewrite dot_product_comm. unfold math_sqrt.
  destruct (fltb (sum_of_squares vec1) _), (fltb (sum_of_squares vec2) _);
    cbn [bind]; try done.
  by rewrite orb_comm, fmul_comm.
Qed.

End Symmetry.

(** X23. The cosine similarity is symmetric, in binary64 to the last bit
    and in exact arithmetic: for two vectors of one length the result does
    not depend on their order. *)
Theorem cosine_similarity_symmetric :
  (∀ vec1 vec2 : list PrimFloat.float,
     length vec1 = length vec2 →
     cosine_similarity vec1 vec2 = cosine_similarity vec2 vec1)
  ∧ (∀ vec1 vec2 : list R,
       length vec1 = length vec2 →
       cosine_similarity vec1 vec2 = cosine_similarity vec2 vec1).
Proof.
  split; intros vec1 vec2.
  - apply (@cosine_similarity_comm _ binary64 mul_comm).
  - apply (@cosine_similarity_comm _ exact Rmult_comm).
Qed.

Lemma cosine_similarity_symmetric_witness :
  cosine_similarity [1%float; 2%float] [3%float; 4%float]
  = cosine_similarity [3%float; 4%float] [1%float; 2%float].
Proof.
  destruct cosine_similarity_symmetric as [Hd _]. by apply Hd.
Defined.

End CosineFacts.

(** ** The orchestrator with passages: theorems *)

Module AgentFacts.
Import Py Vocabulary Notions PyFacts RAGAgent.

Lemma startswith_app n s : startswith n (n +:+ s) = true.
Proof.
  induction n as [|c n IH]; [by destruct s|].
  rewrite app_cons. cbn [startswith]. by rewrite decide_True.
Qed.

Lemma contains_here n s : contains n (n +:+ s) = true.
Proof.
  destruct (n +:+ s) eqn:E; cbn [contains]; rewrite <- E, startswith_app; done.
Qed.

Lemma contains_later a n s : contains n s = true → contains n (a +:+ s) = true.
Proof.
  intros H. induction a as [|c a IH]; [done|].
  rewrite app_cons. cbn [contains]. rewrite IH. apply orb_true_r.
Qed.

Lemma contains_middle a n b : contains n (a +:+ n +:+ b) = true.
Proof. apply contains_later, contains_here. Qed.

Lemma source_blocks_lookup chunks : ∀ i k chunk,
  chunks !! k = Some chunk →
  ∃ before after,
    source_blocks i chunks = before +:+ source_block (i + k) chunk +:+ after.
Proof.
  induction chunks as [|c chunks IH]; intros i k chunk Hk; [done|].
  cbn [source_blocks]. destruct k as [|k].
  - injection Hk as ->. exists EmptyString, (source_blocks (S i) chunks).
    by rewrite Nat.add_0_r.
  - destruct (IH (S i) k chunk Hk) as (before & after & ->).
    exists (source_block i c +:+ before), after.
    rewrite app_assoc_str. by replace (i + S k)%nat with (S i + k)%nat by lia.
Qed.

Lemma build_prompt_shape query context_chunks :
  context_chunks ≠ [] →
  build_prompt_with_context query context_chunks
  = context_header +:+ source_blocks 1 context_chunks
    +:+ instructions +:+ query +:+ guidelines.
Proof.
  destruct context_chunks as [|c rest] eqn:E; [done|]. intros _.
  unfold build_prompt_with_context, context_header.
  by rewrite !app_assoc_str.
Qed.

Lemma source_block_citation i chunk :
  source_block i chunk = citation i chunk +:+ nl.
Proof. unfold source_block, citation. by rewrite !app_assoc_str. Qed.

(** X25. Every retrieved chunk is cited in the prompt: for the chunk at
    position [k], counted from 0, the prompt holds the label
    [[Source k+1: name]], where [name] is the [source] of the chunk's
    metadata or [Unknown Source], on a line of its own, and the whole text
    of the chunk on the next lines. The prompt begins with the context
    header and ends with the question and the fixed instructions. *)
Theorem prompt_cites_passages (query : string) (context_chunks : list Passage)
    (k : nat) (chunk : Passage) :
  context_chunks !! k = Some chunk →
  let prompt := build_prompt_with_context query context_chunks in
  (∃ before after,
     prompt = before +:+ source_block (S k) chunk +:+ after)
  ∧ contains (citation (S k) chunk) prompt = true
  ∧ startswith "=== KNOWLEDGE BASE CONTEXT ===" prompt = true
  ∧ ∃ before, prompt = before +:+ query +:+ guidelines.
Proof.
  intros Hk. cbn zeta.
  assert (Hne : context_chunks ≠ []) by (by destruct context_chunks).
  rewrite (build_prompt_shape _ _ Hne).
  destruct (source_blocks_lookup context_chunks 1 k chunk Hk)
    as (before & after & ->).
  change (1 + k)%nat with (S k).
  split; [|split; [|split]].
  - exists (context_header +:+ before),
           (after +:+ instructions +:+ query +:+ guidelines).
    by rewrite !app_assoc_str.
  - rewrite source_block_citation, !app_assoc_str.
    rewrite <- (app_assoc_str context_header before). apply contains_middle.
  - done.
  - exists (context_header
            +:+ (before +:+ source_block (S k) chunk +:+ after)
            +:+ instructions).
    by rewrite !app_assoc_str.
Qed.

Lemma prompt_cites_passages_witness :
  contains ("[Source 2: Unknown Source]" +:+ nl
            +:+ join EmptyString (replicate 400 "x") +:+ nl)
           (build_prompt_with_context "When?" two_passages) = true.
Proof.
  destruct (prompt_cites_passages "When?" two_passages 1 _ eq_refl)
    as (_ & H & _).
  exact H.
Defined.

Lemma length_app_str (a b : string) :
  String.length (a +:+ b) = (String.length a + String.length b)%nat.
Proof.
  induction a as [|c a IH]; [done|]. rewrite app_cons. simpl. by rewrite IH.
Qed.

Lemma length_prefix n : ∀ s,
  String.length (prefix n s) = Nat.min n (String.length s).
Proof.
  induction n as [|n IH]; intros [|c s]; try done. simpl. by rewrite IH.
Qed.

Lemma source_of_excerpt chunk : excerpt_of chunk (source_of chunk).
Proof.
  unfold excerpt_of, source_of. cbn [s_text s_metadata s_similarity].
  split; [done|]. split; [done|].
  destruct (Z.gtb_spec (str_len (p_text chunk)) 300) as [Hlong|Hshort].
  - assert (Hlen : str_len (prefix 300 (p_text chunk) +:+ "...") = 303).
    { unfold str_len in *. rewrite length_app_str, length_prefix.
      change (String.length "...") with 3%nat. lia. }
    split; [lia|]. split; [lia|done].
  - split; [lia|]. split; [done|lia].
Qed.

(** X26. The [sources] of an answer are the retrieved chunks in their
    order, one entry for each: the entry has the metadata and the
    similarity of its chunk; its text is the text of the chunk when this
    has at most 300 characters, and otherwise the first 300 characters and
    three dots, 303 characters in all. [num_sources] is the length of
    [sources], [has_sources] tells whether it is not empty, and the answer
    is what the completion service returns for the prompt built from the
    question and these chunks. *)
Theorem answer_sources (self : RAGAgent) (query : string) (top_k : Z) :
  let context_chunks := retrieve_context self query top_k in
  let r := answer self query top_k in
  Forall2 excerpt_of context_chunks (r_sources r)
  ∧ num_sources r = len (r_sources r)
  ∧ (has_sources r = true ↔ r_sources r ≠ [])
  ∧ r_query r = query
  ∧ r_answer r
    = llm_generate self (build_prompt_with_context query context_chunks).
Proof.
  cbn zeta. unfold answer.
  cbn [r_sources num_sources has_sources r_query r_answer].
  generalize (retrieve_context self query top_k). intros chunks.
  split; [|split; [|split; [|done]]].
  - induction chunks; constructor; [apply source_of_excerpt|done].
  - unfold len. by rewrite length_map.
  - destruct chunks; [done|]. split; [done|]. intros _.
    unfold len. cbn [length]. apply Z.gtb_lt. lia.
Qed.

Lemma answer_sources_witness :
  map (fun source => str_len (s_text source))
      (r_sources (answer fixed_agent "When?" 3))
  = [26; 303]
  ∧ num_sources (answer fixed_agent "When?" 3) = 2.
Proof.
  destruct (answer_sources fixed_agent "When?" 3) as (_ & Hn & _).
  split; [by vm_compute|]. rewrite Hn. by vm_compute.
Defined.

End AgentFacts.

(** ** The chat transcript: theorems *)

Module ChatFacts.
Import Py Vocabulary Notions PyFacts GeminiWrapper.

Lemma chat_step self message outcome :
  chat self message outcome
  = ({| model_name := model_name self;
        temperature := temperature self;
        history := history self
                   ++ match outcome with
                      | inl text =>
                          [ {| i_prompt :=
                                 chat_prompt (persona self)
                                   (default [] (chat_transcript self)
                                    ++ [mkTurn UserRole message]);
                               i_response := text;
                               i_temperature := temperature self;
                               i_model := model_name self |} ]
                      | inr _ => []
                      end;
        persona := persona self;
        chat_transcript :=
          Some (default [] (chat_transcript self)
                ++ exchange (message, outcome)) |},
     reply_of outcome).
Proof.
  unfold chat, generate, exchange.
  destruct outcome; cbn; rewrite <- ?app_assoc, ?app_nil_r; done.
Qed.

Lemma chats_turns steps : ∀ self,
  snd (chats self steps) = map (fun step => reply_of (snd step)) steps
  ∧ default [] (chat_transcript (fst (chats self steps)))
    = default [] (chat_transcript self) ++ concat (map exchange steps)
  ∧ length (history (fst (chats self steps)))
    = (length (history self) + returned steps)%nat
  ∧ persona (fst (chats self steps)) = persona self.
Proof.
  induction steps as [|[message outcome] rest IH]; intros self.
  - cbn. rewrite app_nil_r. unfold returned. cbn. repeat split; lia.
  - cbn [chats]. rewrite chat_step.
    match goal with |- context [chats ?s rest] => specialize (IH s) end.
    destruct (chats _ rest) as [self' replies]. cbn [fst snd] in *.
    destruct IH as (-> & -> & -> & ->).
    cbn [chat_transcript history persona default from_option id].
    split; [done|].
    split; [unfold Datatypes.id; cbn [map concat]; by rewrite <- app_assoc|].
    split; [|done].
    rewrite length_app. unfold returned.
    rewrite filter_cons. cbn [snd].
    destruct outcome; cbn [has_returned length];
      [rewrite decide_True by done|rewrite decide_False by done];
      cbn [length]; lia.
Qed.

(** [l[-10:]] *)
Lemma slice_last_ten {A} (l : list A) :
  slice l (-10) (len l) = drop (length l - 10) l.
Proof.
  unfold slice, clamp_index, len.
  change (-10 <? 0) with true. cbv iota.
  destruct (Z.ltb_spec (Z.of_nat (length l)) 0); [lia|].
  rewrite Z.min_id.
  replace (Z.to_nat (Z.max (-10 + Z.of_nat (length l)) 0))
    with (length l - 10)%nat by lia.
  apply take_ge. rewrite length_drop. lia.
Qed.

(** X27. A run of calls of [chat], whatever the service does at each: the
    replies are the texts that the service returned and, for a call that
    raised, the error text with the message of the exception; the
    transcript grows by the user turn and the assistant turn of every
    call, in this order, the error texts included as assistant turns;
    [history] grows by one entry for every call that returned and by none
    for a call that raised; and [clear_history] after it leaves an empty
    history and an empty transcript. *)
Theorem chat_transcript_turns (self : GeminiWrapper)
    (steps : list (string * (string + string))) :
  snd (chats self steps) = map (fun step => reply_of (snd step)) steps
  ∧ default [] (chat_transcript (fst (chats self steps)))
    = default [] (chat_transcript self) ++ concat (map exchange steps)
  ∧ length (history (fst (chats self steps)))
    = (length (history self) + returned steps)%nat
  ∧ (returned steps ≤ length steps)%nat
  ∧ default [] (chat_transcript (clear_history (fst (chats self steps)))) = []
  ∧ history (clear_history (fst (chats self steps))) = [].
Proof.
  destruct (chats_turns steps self) as (Hr & Ht & Hh & _).
  split; [done|]. split; [done|]. split; [done|].
  split; [apply length_filter|].
  split; [|done]. unfold clear_history. cbn.
  by destruct (chat_transcript _).
Qed.

Lemma concat_exchange_length steps :
  length (concat (map exchange steps)) = (2 * length steps)%nat.
Proof. induction steps as [|s l IH]; [done|]. cbn. lia. Qed.

Lemma exchange_roles steps : ∀ i turn,
  concat (map exchange steps) !! i = Some turn →
  role turn = if Nat.even i then UserRole else AssistantRole.
Proof.
  induction steps as [|s l IH]; intros i turn Hi; [done|].
  cbn [map concat exchange app] in Hi.
  destruct i as [|[|i]]; [by injection Hi as <-..|].
  cbn [lookup list_lookup] in Hi. apply IH in Hi.
  by rewrite Nat.even_succ_succ.
Qed.

(** X28. The prompt of [chat] for a new message, after any run of calls on
    a wrapper that had no transcript: it shows the last ten turns of the
    transcript, the new message being the last of them, or all turns when
    there are fewer; from the sixth message on these are ten turns of
    which the first is an assistant turn, so the oldest reply shown has
    lost its question. *)
Theorem chat_window (self : GeminiWrapper)
    (steps : list (string * (string + string))) (message : string) :
  chat_transcript self = None →
  let self' := fst (chats self steps) in
  chat_prompt (persona self')
    (default [] (chat_transcript self') ++ [mkTurn UserRole message])
  = join nl2
      (match truthy (persona self) with
       | Some p => ["SYSTEM: " +:+ p]
       | None => []
       end
       ++ map turn_line (window self' message) ++ ["ASSISTANT:"])
  ∧ window self' message
    = drop (2 * length steps + 1 - 10)
           (concat (map exchange steps) ++ [mkTurn UserRole message])
  ∧ length (window self' message) = Nat.min 10 (2 * length steps + 1)
  ∧ last (window self' message) = Some (mkTurn UserRole message)
  ∧ ((5 ≤ length steps)%nat →
       ∃ turn, head (window self' message) = Some turn
               ∧ role turn = AssistantRole).
Proof.
  intros Hnone. cbn zeta.
  destruct (chats_turns steps self) as (_ & Ht & _ & Hp).
  rewrite Hnone in Ht. cbn [default app] in Ht.
  unfold window, chat_prompt. rewrite Ht, Hp.
  set (turns := concat (map exchange steps) ++ [mkTurn UserRole message]).
  assert (Hlen : length turns = (2 * length steps + 1)%nat).
  { unfold turns. rewrite length_app, concat_exchange_length. simpl. lia. }
  rewrite !slice_last_ten, Hlen.
  split; [done|]. split; [done|].
  split; [rewrite length_drop; lia|].
  split.
  - unfold turns. rewrite drop_app_le by (rewrite concat_exchange_length; lia).
    by rewrite last_snoc.
  - intros Hfive.
    destruct (lookup_lt_is_Some_2 turns (2 * length steps + 1 - 10))
      as [turn Hturn]; [lia|].
    exists turn. split.
    + rewrite <- Hturn. rewrite <- (Nat.add_0_r (2 * length steps + 1 - 10)) at 2.
      rewrite <- lookup_drop. by destruct (drop _ turns).
    + unfold turns in Hturn.
      rewrite lookup_app_l in Hturn by (rewrite concat_exchange_length; lia).
      apply exchange_roles in Hturn. rewrite Hturn.
      replace (2 * length steps + 1 - 10)%nat
        with (S (2 * (length steps - 5)))%nat by lia.
      by rewrite Nat.even_succ, Nat.odd_mul, Nat.odd_2.
Qed.

Lemma chat_window_witness :
  window (fst (chats fresh_wrapper six_steps)) "q7"
  = [mkTurn AssistantRole "r2";
     mkTurn UserRole "q3";
     mkTurn AssistantRole "Error calling Gemini API: timeout";
     mkTurn UserRole "q4"; mkTurn AssistantRole "r4";
     mkTurn UserRole "q5"; mkTurn AssistantRole "r5";
     mkTurn UserRole "q6"; mkTurn AssistantRole "r6";
     mkTurn UserRole "q7"].
Proof.
  destruct (chat_window fresh_wrapper six_steps "q7" eq_refl) as (_ & -> & _).
  reflexivity.
Defined.

End ChatFacts.

(** ** The records of a document: theorems *)

Module StoreFacts.
Import Py Vocabulary Notions PyFacts TextChunker SentencesFacts.
Import Chunking ChunkingFacts KnowledgeBase.

Lemma chunk_metadata_lookup metadata chunk :
  chunk_metadata metadata chunk !! "chunk_id" = Some (MetaInt (chunk_id chunk))
  ∧ chunk_metadata metadata chunk !! "word_count"
    = Some (MetaInt (word_count chunk))
  ∧ chunk_metadata metadata chunk !! "method"
    = Some (MetaStr (method_name (method chunk)))
  ∧ ∀ key, key ≠ "chunk_id" → key ≠ "word_count" → key ≠ "method" →
      chunk_metadata metadata chunk !! key = metadata !! key.
Proof.
  unfold chunk_metadata. split; [|split; [|split]].
  - rewrite lookup_insert_ne by done. rewrite lookup_insert_ne by done.
    by rewrite lookup_insert_eq.
  - rewrite lookup_insert_ne by done. by rewrite lookup_insert_eq.
  - by rewrite lookup_insert_eq.
  - intros key H1 H2 H3. by rewrite !lookup_insert_ne by done.
Qed.

(** X29. What [add_document] hands to the store, for every text, every
    metadata of the caller and whatever identifiers are drawn: the call of
    the chunker does not fail; there are as many identifiers as documents
    and as metadata dictionaries, and none exactly when the text has no
    word; the metadata of the record at position [k] has [chunk_id] [k],
    the method [sentence-based] and as [word_count] the number of words of
    the document at this position, whatever the caller gave under these
    three keys; every other key has the caller's value. *)
Theorem add_document_records (document : string)
    (metadata : option (gmap string MetaValue)) (uuids : nat → string) :
  ∃ records,
    add_document document metadata uuids = Some records
    ∧ length (ids records) = length (documents records)
    ∧ length (metadatas records) = length (documents records)
    ∧ (documents records = [] ↔ split document = [])
    ∧ ∀ (k : nat) meta, metadatas records !! k = Some meta →
        ids records !! k = Some (uuids k)
        ∧ meta !! "chunk_id" = Some (MetaInt (Z.of_nat k))
        ∧ meta !! "method" = Some (MetaStr "sentence-based")
        ∧ (∃ doc, documents records !! k = Some doc
                  ∧ meta !! "word_count" = Some (MetaInt (count_words doc)))
        ∧ ∀ key, key ≠ "chunk_id" → key ≠ "word_count" → key ≠ "method" →
            meta !! key = default ∅ metadata !! key.
Proof.
  unfold add_document. cbn zeta.
  change (chunk_text chunker document "sentences")
    with (Some (Chunks (chunk_by_sentences chunker document))).
  eexists. split; [reflexivity|].
  cbn [ids documents metadatas records_of].
  rewrite length_imap, !length_map. split; [done|]. split; [done|].
  split.
  { rewrite <- (no_sentence_chunks chunker document).
    by destruct (chunk_by_sentences chunker document). }
  intros k meta Hk. rewrite list_lookup_fmap in Hk.
  destruct (chunk_by_sentences chunker document !! k) as [chunk|] eqn:Hc;
    [|done].
  injection Hk as <-.
  destruct (chunk_metadata_lookup (default ∅ metadata) chunk)
    as (Hid & Hwc & Hm & Hother).
  pose proof Hc as Hc'. rewrite chunk_by_sentences_groups in Hc'.
  destruct (number_chunks_well_indexed _ _ _ Hc') as [Hidx Hcount].
  apply number_chunks_lookup in Hc' as (g & _ & Hchunk).
  split; [by rewrite list_lookup_imap, Hc|].
  split; [by rewrite Hid, Hidx|].
  split; [by rewrite Hm, Hchunk|].
  split; [|done].
  exists (text chunk). rewrite list_lookup_fmap, Hc. split; [done|].
  by rewrite Hwc, Hcount.
Qed.

End StoreFacts.

(** ** What of a question matters: theorems *)

Module QuestionFacts.
Import Py Vocabulary Notions TextCleaner FAQFinder.

Lemma token_set_tokens (question1 question2 : string) :
  (list_to_set (tokenize question1) : gset string)
  = list_to_set (tokenize question2) →
  token_set (clean_text question1) = token_set (clean_text question2).
Proof.
  unfold tokenize, token_set. cbn zeta. by intros ->.
Qed.

(** X30. The answer depends on the question only through the set of its
    tokens: two questions with the same tokens, in whatever order and
    number, with whatever capitals, punctuation and spacing, get the same
    result from [find_answer], in any arithmetic. *)
Theorem find_answer_tokens {F : Type} `{PyFloat F} (self : FAQFinder)
    (question1 question2 : string) (threshold : F) :
  (list_to_set (tokenize question1) : gset string)
  = list_to_set (tokenize question2) →
  find_answer self question1 threshold = find_answer self question2 threshold.
Proof.
  intros Htokens. unfold find_answer.
  by rewrite (token_set_tokens _ _ Htokens).
Qed.

Lemma find_answer_tokens_witness :
  find_answer register_finder "How can I sign up?" double_0_15
  = find_answer register_finder "  UP, sign... can i: HOW how" double_0_15.
Proof.
  apply find_answer_tokens.
  apply (bool_decide_unpack _). by vm_compute.
Defined.

End QuestionFacts.
